(** * lightshowpi: permission and throttle subsystem of [configuration_manager.py]

    A shallow embedding of the SMS permission table ([sms], [has_permission]),
    the application state store ([load_state], [get_state], [update_state]) and
    the throttle check ([is_throttle_exceeded]), with the properties of the
    specification stated and settled against it; and of the other views of
    the configuration ([hardware], [lightshow]) and the example script
    [examples/test_pattern2.py], with properties read off the code.

    Python exceptions are values of [exn]; code that mutates module globals or
    the state file is written in a state-and-exception monad in which the
    state reached before an exception is kept, as it is in Python. *)

From Stdlib Require Import ZArith Ascii String Lia.
From stdpp Require Import base gmap strings list pretty.

Set Warnings "-clear-no-such-hyp".

(** ** Exceptions and the state-and-exception monad *)

Inductive exn : Type :=
  | KeyError | AttributeError | ValueError | TypeError
  | SyntaxError | OverflowError | ParsingError | IOError.

Inductive result (A : Type) : Type :=
  | Ok (a : A)
  | Raise (e : exn).
Arguments Ok {A} a.
Arguments Raise {A} e.

Definition M (S A : Type) : Type := S → result A * S.

Definition ret {S A} (a : A) : M S A := λ s, (Ok a, s).
Definition raise {S A} (e : exn) : M S A := λ s, (Raise e, s).
Definition lift {S A} (r : result A) : M S A := λ s, (r, s).
Definition bind {S A B} (m : M S A) (k : A → M S B) : M S B :=
  λ s, match m s with
       | (Ok a, s') => k a s'
       | (Raise e, s') => (Raise e, s')
       end.
Definition get {S} : M S S := λ s, (Ok s, s).
Definition modify {S} (f : S → S) : M S unit := λ s, (Ok tt, f s).

Declare Scope M_scope.
Delimit Scope M_scope with M.
Notation "x ← y ; z" := (bind y (λ x, z))
  (at level 20, y at level 100, z at level 200, only parsing) : M_scope.
Notation "x ;; z" := (bind x (λ _, z))
  (at level 100, z at level 200, only parsing, right associativity) : M_scope.
Open Scope M_scope.

(** [for x in l: body] *)
Fixpoint for_each {S A} (l : list A) (body : A → M S unit) : M S unit :=
  match l with
  | [] => ret tt
  | x :: l' => body x ;; for_each l' body
  end.

(** ** Python string primitives used by the module *)

Module PyStr.

(** [string.whitespace] of a Python 2 byte string. *)
Definition is_space (c : ascii) : bool :=
  match nat_of_ascii c with
  | 9%nat | 10%nat | 11%nat | 12%nat | 13%nat | 32%nat => true
  | _ => false
  end.

Definition is_empty (s : string) : bool :=
  match s with EmptyString => true | _ => false end.

Fixpoint lstrip (s : string) : string :=
  match s with
  | EmptyString => EmptyString
  | String c r => if is_space c then lstrip r else s
  end.

Fixpoint rstrip (s : string) : string :=
  match s with
  | EmptyString => EmptyString
  | String c r =>
      let r' := rstrip r in
      if is_space c && is_empty r' then EmptyString else String c r'
  end.

(** [str.strip(s)] *)
Definition strip (s : string) : string := rstrip (lstrip s).

(** [s.split(d)] for a one-character separator: never the empty list. *)
Fixpoint split (d : ascii) (s : string) : list string :=
  match s with
  | EmptyString => [EmptyString]
  | String c r =>
      if Ascii.eqb c d then EmptyString :: split d r
      else match split d r with
           | p :: ps => String c p :: ps
           | [] => [String c EmptyString]
           end
  end.

(** [d.join(l)] *)
Fixpoint join (d : string) (l : list string) : string :=
  match l with
  | [] => EmptyString
  | [x] => x
  | x :: l' => x +:+ d +:+ join d l'
  end.

Definition digit_val (c : ascii) : option Z :=
  let n := nat_of_ascii c in
  if (48 <=? n)%nat && (n <=? 57)%nat then Some (Z.of_nat n - 48)%Z else None.

Fixpoint digits (acc : Z) (s : string) : option Z :=
  match s with
  | EmptyString => Some acc
  | String c r =>
      match digit_val c with
      | Some d => digits (10 * acc + d)%Z r
      | None => None
      end
  end.

Definition unsigned (s : string) : result Z :=
  match s with
  | EmptyString => Raise ValueError
  | _ => match digits 0%Z s with Some z => Ok z | None => Raise ValueError end
  end.

(** [int(s)] for a string: optional surrounding whitespace, an optional sign,
    then one or more decimal digits; anything else is a [ValueError]. *)
Definition int (s : string) : result Z :=
  match strip s with
  | String "-"%char r =>
      match unsigned r with Ok z => Ok (- z)%Z | Raise e => Raise e end
  | String "+"%char r => unsigned r
  | t => unsigned t
  end.

(** [needle in hay] for two strings. *)
Fixpoint is_prefix (p s : string) : bool :=
  match p, s with
  | EmptyString, _ => true
  | String a p', String b s' => Ascii.eqb a b && is_prefix p' s'
  | String _ _, EmptyString => false
  end.

Fixpoint contains (needle hay : string) : bool :=
  is_prefix needle hay ||
  match hay with
  | EmptyString => false
  | String _ hay' => contains needle hay'
  end.

End PyStr.

(** ** Configuration values and module globals *)

(** What a value of the [_SMS_CONFIG] dictionary can be: [None] (a key given
    without a value, the parser being created with [allow_no_value=True]), the
    raw string of the configuration file, a list of names put in its place by
    [sms], or the dictionary stored under ['throttled_groups']. *)
Inductive cfgval : Type :=
  | VNone
  | VStr (s : string)
  | VList (l : list string)
  | VGroups (m : gmap string (gmap string Z)).

(** [_as_list(list_str, delimiter=',')]: only a string has [split]. *)
Definition _as_list (list_str : cfgval) : result (list string) :=
  match list_str with
  | VStr s => Ok (PyStr.strip <$> PyStr.split ","%char s)
  | _ => Raise AttributeError
  end.

(** [d[key]] *)
Definition getitem {V} (d : gmap string V) (key : string) : result V :=
  match d !! key with
  | Some v => Ok v
  | None => Raise KeyError
  end.

(** [x in v] *)
Definition py_in (x : string) (v : cfgval) : result bool :=
  match v with
  | VNone => Raise TypeError
  | VStr s => Ok (PyStr.contains x s)
  | VList l => Ok (bool_decide (x ∈ l))
  | VGroups m => Ok (bool_decide (is_Some (m !! x)))
  end.

(** The module globals [_SMS_CONFIG] and [_WHO_CAN], and the messages handed
    to [warnings.warn], newest first. *)
Record globals : Type := Globals {
  _SMS_CONFIG : gmap string cfgval;
  _WHO_CAN : gmap string (gset string);
  warned : list string
}.

Definition fresh_globals : globals := Globals ∅ ∅ [].

Definition set_sms_config (c : gmap string cfgval) : M globals unit :=
  modify (λ g, Globals c (_WHO_CAN g) (warned g)).
Definition set_who_can (w : gmap string (gset string)) : M globals unit :=
  modify (λ g, Globals (_SMS_CONFIG g) w (warned g)).

(** [_SMS_CONFIG[key] = v] *)
Definition cfg_set (key : string) (v : cfgval) : M globals unit :=
  modify (λ g, Globals (<[key := v]> (_SMS_CONFIG g)) (_WHO_CAN g) (warned g)).

(** [_SMS_CONFIG[key]] *)
Definition cfg_get (key : string) : M globals cfgval :=
  g ← get; lift (getitem (_SMS_CONFIG g) key).

(** [warnings.warn(msg)] *)
Definition warn (msg : string) : M globals unit :=
  modify (λ g, Globals (_SMS_CONFIG g) (_WHO_CAN g) (msg :: warned g)).

(** [_WHO_CAN[cmd] = set()] *)
Definition who_can_reset (cmd : string) : M globals unit :=
  modify (λ g, Globals (_SMS_CONFIG g) (<[cmd := ∅]> (_WHO_CAN g)) (warned g)).

(** [_WHO_CAN[cmd].add(user)] *)
Definition who_can_add (cmd user : string) : M globals unit :=
  g ← get;
  s ← lift (getitem (_WHO_CAN g) cmd);
  set_who_can (<[cmd := {[user]} ∪ s]> (_WHO_CAN g)).

(** [try: _SMS_CONFIG[key] = _as_list(_SMS_CONFIG[key])
     except KeyError: _SMS_CONFIG[key] = []], giving the list stored. *)
Definition listify (key : string) : M globals (list string) :=
  g ← get;
  match _SMS_CONFIG g !! key with
  | Some v => l ← lift (_as_list v); cfg_set key (VList l);; ret l
  | None => cfg_set key (VList []);; ret []
  end.

(** ** [sms]: building the permission table *)

(** The loop over [throttled_group_definitions] (lines 206-218). *)
Fixpoint parse_definitions (group : string) (defs : list string)
    (throttled_group : gmap string Z) : M globals (gmap string Z) :=
  match defs with
  | [] => ret throttled_group
  | definition :: rest =>
      match PyStr.split ":"%char definition with
      | [throttle_command; limit] =>
          throttle_limit ← lift (PyStr.int limit);
          parse_definitions group rest
            (<[throttle_command := throttle_limit]> throttled_group)
      | parts =>
          warn (group +:+ "_throttle definitions should be in the form "
                      +:+ "[command]:<limit> - " +:+ PyStr.join ":" parts);;
          parse_definitions group rest throttled_group
      end
  end.

Definition throttle_missing (group : string) : string :=
  "Throttle definition either does not exist or is configured incorrectly for group: "
  +:+ group.

(** The [try ... except KeyError] block of lines 201-223. *)
Definition parse_throttle (group : string) : M globals unit :=
  g ← get;
  match _SMS_CONFIG g !! (group +:+ "_throttle") with
  | None => warn (throttle_missing group)
  | Some v =>
      throttled_group_definitions ← lift (_as_list v);
      throttled_group ← parse_definitions group throttled_group_definitions ∅;
      g ← get;
      match _SMS_CONFIG g !! "throttled_groups" with
      | Some (VGroups m) =>
          cfg_set "throttled_groups" (VGroups (<[group := throttled_group]> m))
      | Some _ => raise TypeError
      | None => warn (throttle_missing group)
      end
  end.

(** The body of [for group in _SMS_CONFIG['groups']] (lines 184-223). *)
Definition sms_group (group : string) : M globals unit :=
  users ← listify (group +:+ "_users");
  commands ← listify (group +:+ "_commands");
  for_each commands (λ cmd, for_each users (λ user, who_can_add cmd user));;
  parse_throttle group.

(** The body of [for cmd in _SMS_CONFIG['commands']] (lines 172-177). *)
Definition sms_command (cmd : string) : M globals unit :=
  listify (cmd +:+ "_aliases");; who_can_reset cmd.

Definition of_items (items : gmap string (option string)) : gmap string cfgval :=
  (λ o, match o with Some s => VStr s | None => VNone end) <$> items.

(** [sms()], where [CONFIG] stands for [CONFIG.items('sms')]. *)
Definition sms (CONFIG : gmap string (option string))
    : M globals (gmap string cfgval) :=
  g ← get;
  (if decide (size (_SMS_CONFIG g) = 0%nat) then
     set_sms_config (of_items CONFIG);;
     set_who_can {[ "all" := ∅ ]};;
     v ← cfg_get "commands";
     commands ← lift (_as_list v);
     cfg_set "commands" (VList commands);;
     for_each commands sms_command;;
     v ← cfg_get "groups";
     groups ← lift (_as_list v);
     cfg_set "groups" (VList groups);;
     cfg_set "throttled_groups" (VGroups ∅);;
     for_each groups sms_group;;
     v ← cfg_get "blacklist";
     blacklist ← lift (_as_list v);
     cfg_set "blacklist" (VList blacklist)
   else ret tt);;
  g ← get;
  ret (_SMS_CONFIG g).

(** ** [has_permission] *)

(** [user in _WHO_CAN[key]] *)
Definition who_can_has (key user : string) : M globals bool :=
  g ← get;
  s ← lift (getitem (_WHO_CAN g) key);
  ret (bool_decide (user ∈ s)).

(** [has_permission(user, cmd)]; [and] and [or] evaluate their right operand
    only when the left one does not settle the result. *)
Definition has_permission (CONFIG : gmap string (option string))
    (user cmd : string) : M globals bool :=
  cfg ← sms CONFIG;
  bl ← lift (getitem cfg "blacklist");
  blacklisted ← lift (py_in user bl);
  if blacklisted return M globals bool then ret false
  else
    a ← who_can_has "all" user;
    if a return M globals bool then ret true
    else
      b ← who_can_has cmd "all";
      if b return M globals bool then ret true else who_can_has cmd user.

(** ** [datetime]: timestamps, their text form and [strptime] *)

(** A [datetime] is the number of microseconds since 0001-01-01 00:00:00 in
    the proleptic Gregorian calendar; [==] and [<] on datetimes are [=?] and
    [<?] on these numbers. The calendar functions follow CPython's
    [datetime] module. *)
Module DateTime.
Local Open Scope Z_scope.

Definition datetime : Type := Z.

Definition is_leap (y : Z) : bool :=
  (y mod 4 =? 0) && (negb (y mod 100 =? 0) || (y mod 400 =? 0)).

Definition days_before_year (y : Z) : Z :=
  let y1 := y - 1 in y1 * 365 + y1 / 4 - y1 / 100 + y1 / 400.

Definition days_in_month (y m : Z) : Z :=
  if (m =? 2) then (if is_leap y then 29 else 28)
  else if (m =? 4) || (m =? 6) || (m =? 9) || (m =? 11) then 30 else 31.

Definition days_before_month (y m : Z) : Z :=
  nth (Z.to_nat m) [0; 0; 31; 59; 90; 120; 151; 181; 212; 243; 273; 304; 334] 0
  + (if (2 <? m) && is_leap y then 1 else 0).

Definition ymd2ord (y m d : Z) : Z :=
  days_before_year y + days_before_month y m + d.

Definition DI400Y : Z := 146097.
Definition DI100Y : Z := 36524.
Definition DI4Y : Z := 1461.

Definition ord2ymd (ordinal : Z) : Z * Z * Z :=
  let n := ordinal - 1 in
  let n400 := n / DI400Y in let n := n mod DI400Y in
  let year := n400 * 400 + 1 in
  let n100 := n / DI100Y in let n := n mod DI100Y in
  let n4 := n / DI4Y in let n := n mod DI4Y in
  let n1 := n / 365 in let n := n mod 365 in
  let year := year + n100 * 100 + n4 * 4 + n1 in
  if (n1 =? 4) || (n100 =? 4) then (year - 1, 12, 31)
  else
    let leapyear := (n1 =? 3) && (negb (n4 =? 24) || (n100 =? 3)) in
    let month := Z.shiftr (n + 50) 5 in
    let preceding :=
      days_before_month 1 month + (if (2 <? month) && leapyear then 1 else 0) in
    if n <? preceding then
      let month := month - 1 in
      let preceding :=
        preceding - (days_in_month 1 month
                     + (if (month =? 2) && leapyear then 1 else 0)) in
      (year, month, n - preceding + 1)
    else (year, month, n - preceding + 1).

Definition US_PER_SECOND : Z := 1000000.
Definition US_PER_DAY : Z := 86400 * US_PER_SECOND.

(** One past [datetime.max], 9999-12-31 23:59:59.999999. *)
Definition END_OF_TIME : Z := days_before_year 10000 * US_PER_DAY.

Definition of_fields (y mo d h mi s us : Z) : datetime :=
  (ymd2ord y mo d - 1) * US_PER_DAY
  + ((h * 60 + mi) * 60 + s) * US_PER_SECOND + us.

(** [datetime(y, mo, d, h, mi, s, us)], which checks every field. *)
Definition make (y mo d h mi s us : Z) : result datetime :=
  if (1 <=? y) && (y <=? 9999) && (1 <=? mo) && (mo <=? 12)
     && (1 <=? d) && (d <=? days_in_month y mo)
     && (0 <=? h) && (h <=? 23) && (0 <=? mi) && (mi <=? 59)
     && (0 <=? s) && (s <=? 59) && (0 <=? us) && (us <=? 999999)
  then Ok (of_fields y mo d h mi s us)
  else Raise ValueError.

(** [t + datetime.timedelta(seconds=n)] *)
Definition add_seconds (t : datetime) (n : Z) : result datetime :=
  if (n / 86400 <? -999999999) || (999999999 <? n / 86400) then Raise OverflowError
  else
    let t' := t + n * US_PER_SECOND in
    if (0 <=? t') && (t' <? END_OF_TIME) then Ok t' else Raise OverflowError.

Fixpoint zeros (n : nat) : string :=
  match n with O => EmptyString | S n' => String "0"%char (zeros n') end.

(** ["%0<w>d" % z] for [0 <= z] *)
Definition pad (w : nat) (z : Z) : string :=
  let s := pretty z in zeros (w - String.length s) +:+ s.

(** [str(t)], that is [t.isoformat(sep=' ')]: the fraction is printed only
    when the microsecond field is not zero. *)
Definition str (t : datetime) : string :=
  let '(y, mo, d) := ord2ymd (t / US_PER_DAY + 1) in
  let r := t mod US_PER_DAY in
  let us := r mod US_PER_SECOND in
  let secs := r / US_PER_SECOND in
  pad 4 y +:+ "-" +:+ pad 2 mo +:+ "-" +:+ pad 2 d +:+ " "
    +:+ pad 2 (secs / 3600) +:+ ":" +:+ pad 2 (secs / 60 mod 60) +:+ ":"
    +:+ pad 2 (secs mod 60)
    +:+ (if us =? 0 then EmptyString else "." +:+ pad 6 us).

(** *** [datetime.strptime(s, '%Y-%m-%d %H:%M:%S.%f')]

    The format compiles to the regular expression
    [(\d\d\d\d)-(1[0-2]|0[1-9]|[1-9])-(3[01]|[12]\d|0[1-9]|[1-9]| [1-9])\s+
     (2[0-3]|[0-1]\d|\d):([0-5]\d|\d):(6[0-1]|[0-5]\d|\d)\.([0-9]{1,6})],
    which has to match all of [s]. Every field is followed by a character
    that is not a digit, so taking the first alternative that matches
    locally is what the regular expression does. *)

Definition parser (A : Type) : Type := string → option (A * string).

Definition digit : parser Z := λ s,
  match s with
  | String c r => match PyStr.digit_val c with Some d => Some (d, r) | None => None end
  | EmptyString => None
  end.

Definition lit (c : ascii) : parser unit := λ s,
  match s with
  | String c' r => if Ascii.eqb c c' then Some (tt, r) else None
  | EmptyString => None
  end.

(** Two digits [a b] with [ok a b], else one digit with [ok1]. *)
Definition two_or_one (ok : Z → Z → bool) (ok1 : Z → bool) : parser Z := λ s,
  match digit s with
  | None => None
  | Some (a, r) =>
      match digit r with
      | Some (b, r') =>
          if ok a b then Some (10 * a + b, r')
          else if ok1 a then Some (a, r) else None
      | None => if ok1 a then Some (a, r) else None
      end
  end.

Definition year4 : parser Z := λ s,
  match digit s with
  | Some (a, r) =>
    match digit r with
    | Some (b, r) =>
      match digit r with
      | Some (c, r) =>
        match digit r with
        | Some (d, r) => Some (((a * 10 + b) * 10 + c) * 10 + d, r)
        | None => None
        end
      | None => None
      end
    | None => None
    end
  | None => None
  end.

Definition month : parser Z :=
  two_or_one (λ a b, ((a =? 1) && (b <=? 2)) || ((a =? 0) && (1 <=? b)))
             (λ a, 1 <=? a).

Definition day : parser Z := λ s,
  match two_or_one (λ a b, ((a =? 3) && (b <=? 1)) || (a =? 1) || (a =? 2)
                            || ((a =? 0) && (1 <=? b)))
                   (λ a, 1 <=? a) s with
  | Some x => Some x
  | None =>
      match lit " " s with
      | Some (_, r) =>
          match digit r with
          | Some (a, r') => if 1 <=? a then Some (a, r') else None
          | None => None
          end
      | None => None
      end
  end.

Definition hour : parser Z :=
  two_or_one (λ a b, ((a =? 2) && (b <=? 3)) || (a <=? 1)) (λ _, true).
Definition minute : parser Z :=
  two_or_one (λ a _, a <=? 5) (λ _, true).
Definition second : parser Z :=
  two_or_one (λ a b, ((a =? 6) && (b <=? 1)) || (a <=? 5)) (λ _, true).

(** [\s+] *)
Definition spaces1 : parser unit := λ s,
  match s with
  | String c r => if PyStr.is_space c then Some (tt, PyStr.lstrip r) else None
  | EmptyString => None
  end.

(** [[0-9]{1,6}], read as a fraction of a second: the digits are padded
    with zeros on the right to six. *)
Fixpoint fraction_go (n : nat) (acc : Z) (s : string) : Z * string :=
  match n with
  | O => (acc, s)
  | S n' =>
      match digit s with
      | Some (d, r) => fraction_go n' (10 * acc + d) r
      | None => fraction_go n' (10 * acc) s
      end
  end.

Definition fraction : parser Z := λ s,
  match digit s with
  | Some (d, r) => Some (fraction_go 5 d r)
  | None => None
  end.

Definition strptime (s : string) : result datetime :=
  let parsed :=
    '(y, s) ← year4 s; '(_, s) ← lit "-" s;
    '(mo, s) ← month s; '(_, s) ← lit "-" s;
    '(d, s) ← day s; '(_, s) ← spaces1 s;
    '(h, s) ← hour s; '(_, s) ← lit ":" s;
    '(mi, s) ← minute s; '(_, s) ← lit ":" s;
    '(sec, s) ← second s; '(_, s) ← lit "." s;
    '(us, s) ← fraction s;
    match s with
    | EmptyString => Some (y, mo, d, h, mi, sec, us)
    | _ => None
    end in
  match parsed with
  | Some (y, mo, d, h, mi, sec, us) => make y mo d h mi sec us
  | None => Raise ValueError
  end.

End DateTime.

(** ** The throttle window and its text form *)

(** A value of the [throttle_state] dictionary: the start timestamp, kept as
    text, or the counters of one group. *)
Inductive tval : Type :=
  | TStr (s : string)
  | TDict (d : gmap string Z).

Module Literal.

Definition quote1 : ascii := "'"%char.
Definition quote2 : ascii := "034"%char.
Definition backslash : ascii := "\"%char.

Definition hex_digit (n : N) : ascii :=
  ascii_of_N (if (n <? 10)%N then 48 + n else 87 + n).

Fixpoint has_char (c : ascii) (s : string) : bool :=
  match s with
  | EmptyString => false
  | String c' r => Ascii.eqb c c' || has_char c r
  end.

(** How [repr] writes one character inside the quotes [q]. *)
Definition escape_char (q c : ascii) : string :=
  let n := N_of_ascii c in
  if Ascii.eqb c q || Ascii.eqb c backslash
  then String backslash (String c EmptyString)
  else if (n =? 9)%N then String backslash "t"
  else if (n =? 10)%N then String backslash "n"
  else if (n =? 13)%N then String backslash "r"
  else if (n <? 32)%N || (127 <=? n)%N
  then String backslash
         (String "x" (String (hex_digit (n / 16)) (String (hex_digit (n mod 16)) EmptyString)))
  else String c EmptyString.

Fixpoint escape (q : ascii) (s : string) : string :=
  match s with
  | EmptyString => EmptyString
  | String c r => escape_char q c +:+ escape q r
  end.

(** [repr(s)] of a byte string: single quotes, unless the string holds a
    single quote and no double quote. *)
Definition repr_str (s : string) : string :=
  let q := if has_char quote1 s && negb (has_char quote2 s) then quote2 else quote1 in
  String q (escape q s +:+ String q EmptyString).

Definition repr_item {V} (repr_v : V → string) (kv : string * V) : string :=
  repr_str kv.1 +:+ ": " +:+ repr_v kv.2.

Definition repr_items {V} (repr_v : V → string) (m : gmap string V) : string :=
  "{" +:+ PyStr.join ", " (repr_item repr_v <$> map_to_list m) +:+ "}".

Definition repr_tval (v : tval) : string :=
  match v with
  | TStr s => repr_str s
  | TDict d => repr_items (λ z : Z, pretty z) d
  end.

(** [str(throttle_state)]. The order in which a Python 2 dictionary prints
    its items is not specified; the order of [map_to_list] stands for it. *)
Definition str (throttle_state : gmap string tval) : string :=
  repr_items repr_tval throttle_state.

(** *** [ast.literal_eval], on the literals [str] writes

    A dictionary display whose keys are string literals and whose values
    are string literals or dictionary displays from string literals to
    integers. Any other text is a [SyntaxError] here. *)

Definition parser (A : Type) : Type := string → option (A * string).

Definition hex_val (c : ascii) : option N :=
  let n := N_of_ascii c in
  if (48 <=? n)%N && (n <=? 57)%N then Some (n - 48)%N
  else if (97 <=? n)%N && (n <=? 102)%N then Some (n - 87)%N
  else if (65 <=? n)%N && (n <=? 70)%N then Some (n - 55)%N
  else None.

(** The characters of a string literal up to its closing quote [q]. *)
Fixpoint str_body (q : ascii) (s : string) : option (string * string) :=
  match s with
  | EmptyString => None
  | String c r =>
      if Ascii.eqb c q then Some (EmptyString, r)
      else if Ascii.eqb c backslash then
        match r with
        | String e r' =>
            let cont (ch : ascii) (rest : option (string * string)) :=
              match rest with
              | Some (body, tail) => Some (String ch body, tail)
              | None => None
              end in
            if Ascii.eqb e backslash then cont backslash (str_body q r')
            else if Ascii.eqb e quote1 then cont quote1 (str_body q r')
            else if Ascii.eqb e quote2 then cont quote2 (str_body q r')
            else if Ascii.eqb e "n" then cont "010"%char (str_body q r')
            else if Ascii.eqb e "t" then cont "009"%char (str_body q r')
            else if Ascii.eqb e "r" then cont "013"%char (str_body q r')
            else if Ascii.eqb e "x" then
              match r' with
              | String h1 (String h2 r'') =>
                  match hex_val h1, hex_val h2 with
                  | Some a, Some b => cont (ascii_of_N (16 * a + b)) (str_body q r'')
                  | _, _ => None
                  end
              | _ => None
              end
            else None
        | EmptyString => None
        end
      else if (N_of_ascii c =? 10)%N then None
      else
        match str_body q r with
        | Some (body, tail) => Some (String c body, tail)
        | None => None
        end
  end.

Definition string_lit : parser string := λ s,
  match s with
  | String c r =>
      if Ascii.eqb c quote1 || Ascii.eqb c quote2 then str_body c r else None
  | EmptyString => None
  end.

Fixpoint digits_prefix (acc : Z) (s : string) : Z * string :=
  match s with
  | String c r =>
      match PyStr.digit_val c with
      | Some d => digits_prefix (10 * acc + d)%Z r
      | None => (acc, s)
      end
  | EmptyString => (acc, s)
  end.

Definition nat_lit : parser Z := λ s,
  match s with
  | String c r =>
      match PyStr.digit_val c with
      | Some d => Some (digits_prefix d r)
      | None => None
      end
  | EmptyString => None
  end.

Definition int_lit : parser Z := λ s,
  match s with
  | String "-"%char r =>
      match nat_lit r with Some (z, t) => Some ((- z)%Z, t) | None => None end
  | _ => nat_lit s
  end.

(** The items of a dictionary display, after its opening brace. *)
Fixpoint items {V} (value : parser V) (fuel : nat) (acc : gmap string V)
    (s : string) : option (gmap string V * string) :=
  match fuel with
  | O => None
  | S fuel' =>
      match PyStr.lstrip s with
      | String "}"%char r => Some (acc, r)
      | s1 =>
          '(k, s2) ← string_lit s1;
          match PyStr.lstrip s2 with
          | String ":"%char s3 =>
              '(v, s4) ← value (PyStr.lstrip s3);
              match PyStr.lstrip s4 with
              | String ","%char s5 => items value fuel' (<[k := v]> acc) s5
              | String "}"%char s5 => Some (<[k := v]> acc, s5)
              | _ => None
              end
          | _ => None
          end
      end
  end.

Definition dict {V} (value : parser V) : parser (gmap string V) := λ s,
  match s with
  | String "{"%char r => items value (String.length r) ∅ r
  | _ => None
  end.

Definition tval_lit : parser tval := λ s,
  match string_lit s with
  | Some (x, r) => Some (TStr x, r)
  | None =>
      match dict int_lit s with
      | Some (d, r) => Some (TDict d, r)
      | None => None
      end
  end.

Definition literal_eval (s : string) : result (gmap string tval) :=
  match dict tval_lit s with
  | Some (m, r) =>
      match PyStr.lstrip r with
      | EmptyString => Ok m
      | _ => Raise SyntaxError
      end
  | None => Raise SyntaxError
  end.

End Literal.

Notation "' x ← y ; z" := (bind y (λ x, z))
  (at level 20, x pattern, y at level 100, z at level 200, only parsing) : M_scope.

(** ** Application state: [STATE] and the state file *)

(** What the state file holds, as [ConfigParser] reads it back: the options
    of the section [do_not_modify], or text it cannot parse. *)
Inductive file : Type :=
  | FileOk (options : gmap string string)
  | FileCorrupt.

(** What is done to the state file, oldest first: [open], [fcntl.lockf] with
    [LOCK_SH], [LOCK_EX] or [LOCK_UN], [STATE.write] with the options
    written, and the close that ends a [with] block. *)
Inductive event : Type :=
  | EvOpen (writing : bool)
  | EvLock (exclusive : bool)
  | EvWrite (options : gmap string string)
  | EvUnlock
  | EvClose.

(** The disk under the state file. A disk that is full takes no more
    bytes, and the write of the state file ends in [IOError]; where the
    error arrives depends on the buffer of the file object, which holds
    [buffer] bytes: [STATE.write] raises it when the text does not fit the
    buffer, and else returns, the error coming from the close of the file,
    which flushes the buffer. [kept] is what the file holds afterwards, as
    [ConfigParser] reads it: the bytes the disk took before it failed. *)
Inductive disk_state : Type :=
  | DiskOk
  | DiskFull (buffer : nat) (kept : file).

(** [STATE] is the in-memory parser (its section [do_not_modify]). *)
Record world : Type := World {
  STATE : gmap string string;
  state_file : file;
  disk : disk_state;
  events : list event
}.

(** Whether the disk under the state file is full. *)
Definition disk_full (w : world) : bool :=
  match disk w with
  | DiskOk => false
  | DiskFull _ _ => true
  end.

(** The length of [str(value).replace('\n', '\n\t')]. *)
Fixpoint written_length (value : string) : nat :=
  match value with
  | EmptyString => 0
  | String c r => (if Ascii.eqb c "010" then 2 else 1) + written_length r
  end.

(** The number of bytes that [STATE.write] hands to the file: the line
    [[do_not_modify]], a line [name = value] for every option, and an empty
    line. *)
Definition written_size (options : gmap string string) : nat :=
  16 + map_fold (λ name value n, String.length name + 3 + written_length value + 1 + n)
         0 options
  + 1.

Definition emit (e : event) : M world unit :=
  modify (λ w, World (STATE w) (state_file w) (disk w) (events w ++ [e])).
Definition set_STATE (s : gmap string string) : M world unit :=
  modify (λ w, World s (state_file w) (disk w) (events w)).
Definition set_file (f : file) : M world unit :=
  modify (λ w, World (STATE w) f (disk w) (events w)).

(** [load_state()]: [readfp] adds the options of the file to [STATE],
    replacing those of the same name. An exception inside the [with] block
    leaves it through the close of the file. *)
Definition load_state : M world unit :=
  emit (EvOpen false);;
  emit (EvLock false);;
  w ← get;
  match state_file w with
  | FileOk options =>
      set_STATE (options ∪ STATE w);;
      emit EvUnlock;;
      emit EvClose
  | FileCorrupt =>
      emit EvClose;; raise ParsingError
  end.

(** [get_state(name, default)] *)
Definition get_state (name default : string) : M world string :=
  w ← get;
  ret (match STATE w !! name with Some v => v | None => default end).

(** [update_state(name, value)], with [value] already [str(value)]. Opening
    the file with mode ['wb'] empties it. On a full disk [STATE.write]
    raises when its text does not fit the buffer of the file, and the
    [with] block is left through the close of the file; a text that fits
    stays in the buffer, [STATE.write] returns, the lock is released, and
    the close of the file, which writes the buffer out, raises. *)
Definition update_state (name value : string) : M world unit :=
  w ← get;
  set_STATE (<[name := value]> (STATE w));;
  emit (EvOpen true);;
  set_file (FileOk ∅);;
  emit (EvLock true);;
  w ← get;
  match disk w with
  | DiskOk =>
      set_file (FileOk (STATE w));;
      emit (EvWrite (STATE w));;
      emit EvUnlock;;
      emit EvClose
  | DiskFull buffer kept =>
      if (written_size (STATE w) <=? buffer)%nat return M world unit then
        emit (EvWrite (STATE w));;
        emit EvUnlock;;
        set_file kept;;
        emit EvClose;; raise IOError
      else
        set_file kept;;
        emit EvClose;; raise IOError
  end.

(** ** [is_throttle_exceeded] *)

(** What the function returns: [False], [True], or the integer [-1] with
    which [process_command_flag] starts. *)
Inductive flag : Type := PyFalse | PyTrue | PyMinus1.

(** Truth value of a returned flag, as [if is_throttle_exceeded(...)] sees it. *)
Definition truthy (f : flag) : bool :=
  match f with PyFalse => false | _ => true end.

Definition START_KEY : string := "throttle_timestamp_start".

(** [int(v)] of a configuration value. *)
Definition int_of_cfgval (v : cfgval) : result Z :=
  match v with
  | VStr s => PyStr.int s
  | _ => Raise TypeError
  end.

Definition rbind {A B} (r : result A) (k : A → result B) : result B :=
  match r with Ok a => k a | Raise e => Raise e end.

(** [datetime.datetime.strptime(throttle_state['throttle_timestamp_start'], ...)
     if "throttle_timestamp_start" in throttle_state else current_timestamp] *)
Definition window_start (throttle_state : gmap string tval) (current_timestamp : Z)
    : result Z :=
  match throttle_state !! START_KEY with
  | Some (TStr s) => DateTime.strptime s
  | Some (TDict _) => Raise TypeError
  | None => Ok current_timestamp
  end.

(** Lines 363-383: reload the state, read the window, and reset it when the
    current time is its start or is past its stop. *)
Definition load_window (cfg : gmap string cfgval) (current_timestamp : Z)
    : M world (gmap string tval) :=
  load_state;;
  blob ← get_state "throttle" "{}";
  throttle_state ← lift (Literal.literal_eval blob);
  throttle_timelimit ← lift (getitem cfg "throttle_time_limit_seconds");
  throttle_starttime ← lift (window_start throttle_state current_timestamp);
  seconds ← lift (int_of_cfgval throttle_timelimit);
  throttle_stoptime ← lift (DateTime.add_seconds throttle_starttime seconds);
  if (current_timestamp =? throttle_starttime)%Z
     || (throttle_stoptime <? current_timestamp)%Z
     return M world (gmap string tval)
  then
    let throttle_state := {[ START_KEY := TStr (DateTime.str current_timestamp) ]} in
    update_state "throttle" (Literal.str throttle_state);;
    ret throttle_state
  else ret throttle_state.

(** [for x in v] *)
Fixpoint chars (s : string) : list string :=
  match s with
  | EmptyString => []
  | String c r => String c EmptyString :: chars r
  end.

Definition py_iter (v : cfgval) : result (list string) :=
  match v with
  | VNone => Raise TypeError
  | VStr s => Ok (chars s)
  | VList l => Ok l
  | VGroups m => Ok (map_to_list m).*1
  end.

(** [v[key]] *)
Definition groups_getitem (v : cfgval) (key : string) : result (gmap string Z) :=
  match v with
  | VGroups m => getitem m key
  | _ => Raise TypeError
  end.

(** What the search for the throttled group leaves behind:
    [throttled_group] ([None] when the loop ends without [break]),
    [all_throttle_limit] and [cmd_throttle_limit]. *)
Record selection : Type := Selection {
  throttled_group : option string;
  all_throttle_limit : Z;
  cmd_throttle_limit : Z
}.

(** Lines 391-414: the loop over [_SMS_CONFIG['groups']]. *)
Fixpoint find_group (cfg : gmap string cfgval) (user cmd : string)
    (groups : list string) (all_limit cmd_limit : Z) : result selection :=
  match groups with
  | [] => Ok (Selection None all_limit cmd_limit)
  | group :: rest =>
      rbind (getitem cfg (group +:+ "_users")) (λ userlist,
      rbind (py_in user userlist) (λ member,
      if member : bool then
        rbind (getitem cfg "throttled_groups") (λ tgs,
        rbind (py_in group tgs) (λ throttled,
        if throttled : bool then
          rbind (groups_getitem tgs group) (λ throttled_commands,
          let all_limit :=
            match throttled_commands !! "all" with Some l => l | None => all_limit end in
          let cmd_limit :=
            match throttled_commands !! cmd with Some l => l | None => cmd_limit end in
          if negb (all_limit =? -1)%Z || negb (cmd_limit =? -1)%Z
          then Ok (Selection (Some group) all_limit cmd_limit)
          else find_group cfg user cmd rest all_limit cmd_limit)
        else find_group cfg user cmd rest all_limit cmd_limit))
      else find_group cfg user cmd rest all_limit cmd_limit))
  end.

(** Lines 386-414. *)
Definition select_group (cfg : gmap string cfgval) (user cmd : string)
    : result selection :=
  rbind (getitem cfg "groups") (λ v,
  rbind (py_iter v) (λ groups,
  find_group cfg user cmd groups (-1) (-1))).

(** [key in bucket], [int(bucket[key])] and [bucket[key] = n] for the
    counters of a group, which are whatever [throttle_state] holds under the
    name of the group. *)
Definition bucket_has (key : string) (bucket : tval) : bool :=
  match bucket with
  | TDict d => bool_decide (is_Some (d !! key))
  | TStr s => PyStr.contains key s
  end.

Definition bucket_get (key : string) (bucket : tval) : result Z :=
  match bucket with
  | TDict d => getitem d key
  | TStr _ => Raise TypeError
  end.

Definition bucket_set (key : string) (n : Z) (bucket : tval) : result tval :=
  match bucket with
  | TDict d => Ok (TDict (<[key := n]> d))
  | TStr _ => Raise TypeError
  end.

(** Lines 449-461: the limit of the command, the write of the window, and
    the flag returned. *)
Definition apply_cmd_limit (cmd group : string) (cmd_limit count : Z)
    (bucket : tval) (throttle_state : gmap string tval) (process_command_flag : flag)
    : M world flag :=
  '(throttle_state, process_command_flag) ← lift
    (if negb (cmd_limit =? -1)%Z && (count <? cmd_limit)%Z then
       rbind (bucket_set cmd (count + 1)%Z bucket) (λ bucket,
       Ok (<[group := bucket]> throttle_state, PyFalse))
     else Ok (throttle_state, process_command_flag));
  update_state "throttle" (Literal.str throttle_state);;
  ret process_command_flag.

(** Lines 417-461. *)
Definition apply_limits (cmd : string) (sel : selection)
    (throttle_state : gmap string tval) : M world flag :=
  match throttled_group sel with
  | None => ret PyFalse
  | Some group =>
      if PyStr.is_empty group return M world flag then ret PyFalse
      else
        let bucket :=
          match throttle_state !! group with Some b => b | None => TDict ∅ end in
        count ← lift (if bucket_has cmd bucket then bucket_get cmd bucket else Ok 0%Z);
        if negb (all_throttle_limit sel =? -1)%Z return M world flag then
          all_count ← lift
            (if bucket_has "all" bucket then bucket_get "all" bucket else Ok 0%Z);
          if (all_count <? all_throttle_limit sel)%Z return M world flag then
            bucket ← lift (bucket_set "all" (all_count + 1)%Z bucket);
            apply_cmd_limit cmd group (cmd_throttle_limit sel) count bucket
              (<[group := bucket]> throttle_state) PyFalse
          else ret PyTrue
        else
          apply_cmd_limit cmd group (cmd_throttle_limit sel) count bucket
            throttle_state PyMinus1
  end.

(** [is_throttle_exceeded(cmd, user)], with [cfg] the global [_SMS_CONFIG]
    and [current_timestamp] what [datetime.datetime.now()] returns. *)
Definition is_throttle_exceeded (cfg : gmap string cfgval) (current_timestamp : Z)
    (cmd user : string) : M world flag :=
  throttle_state ← load_window cfg current_timestamp;
  sel ← lift (select_group cfg user cmd);
  apply_limits cmd sel throttle_state.

(** ** Predicates used in the statements *)

(** [stable P m]: running [m] from a state in [P] ends in a state in [P],
    whether it returns or raises. *)
Definition stable {S A} (P : S → Prop) (m : M S A) : Prop :=
  ∀ s r s', P s → m s = (r, s') → P s'.

(** [ends_with suf k]: [k] is [x +:+ suf] for some [x]. *)
Fixpoint ends_with (suf k : string) : bool :=
  bool_decide (suf = k) ||
  match k with
  | EmptyString => false
  | String _ k' => ends_with suf k'
  end.

(** A key that [sms] does not assign while it loops over the commands and
    the groups. *)
Definition fixed_key (k : string) : Prop :=
  ends_with "_aliases" k = false ∧ ends_with "_users" k = false
  ∧ ends_with "_commands" k = false ∧ k ≠ "throttled_groups".

(** A property of the globals that only looks at [_SMS_CONFIG]. *)
Definition on_cfg (Q : gmap string cfgval → Prop) (g : globals) : Prop :=
  Q (_SMS_CONFIG g).

(** The properties of [_SMS_CONFIG] that the loops keep. *)
Definition key_is (k : string) (v : cfgval) (c : gmap string cfgval) : Prop :=
  c !! k = Some v.
Definition key_is_list (k : string) (c : gmap string cfgval) : Prop :=
  ∃ l, c !! k = Some (VList l).
Definition key_is_groups (c : gmap string cfgval) : Prop :=
  ∃ m, c !! "throttled_groups" = Some (VGroups m).

(** The keys of [_WHO_CAN]. *)
Definition who_can_dom (D : gset string) (g : globals) : Prop :=
  dom (_WHO_CAN g) = D.

Record built (commands groups blacklist : list string) (g : globals) : Prop := {
  built_commands : _SMS_CONFIG g !! "commands" = Some (VList commands);
  built_groups : _SMS_CONFIG g !! "groups" = Some (VList groups);
  built_throttled : key_is_groups (_SMS_CONFIG g);
  built_users :
    ∀ group, group ∈ groups → key_is_list (group +:+ "_users") (_SMS_CONFIG g);
  built_blacklist : _SMS_CONFIG g !! "blacklist" = Some (VList blacklist);
  built_who_can : dom (_WHO_CAN g) = {[ "all" ]} ∪ list_to_set commands
}.

(** The world after a [load_state()] that reads [options], and after an
    [update_state(name, value)] that writes. *)
Definition after_load (options : gmap string string) (w : world) : world :=
  World (options ∪ STATE w) (state_file w) (disk w)
        (events w ++ [EvOpen false; EvLock false; EvUnlock; EvClose]).

Definition after_update (name value : string) (w : world) : world :=
  let state := <[name := value]> (STATE w) in
  World state (FileOk state) (disk w)
        (events w ++ [EvOpen true; EvLock true; EvWrite state; EvUnlock; EvClose]).

(** The window that a reset at [current_timestamp] creates. *)
Definition fresh_window (current_timestamp : Z) : gmap string tval :=
  {[ START_KEY := TStr (DateTime.str current_timestamp) ]}.

(** Lines 386-461, on the window that [load_window] hands over. *)
Definition evaluate_limits (cfg : gmap string cfgval) (cmd user : string)
    (throttle_state : gmap string tval) : M world flag :=
  sel ← lift (select_group cfg user cmd);
  apply_limits cmd sel throttle_state.


(** The counters of a group in a window, and a count in them: a missing
    group has no counters and a missing counter counts as 0. *)
Definition counters (throttle_state : gmap string tval) (group : string)
    : gmap string Z :=
  match throttle_state !! group with
  | Some (TDict d) => d
  | _ => ∅
  end.

Definition count_of (d : gmap string Z) (key : string) : Z :=
  default 0%Z (d !! key).

(** The window with the counter [key] of [group] raised by one. *)
Definition bump (group key : string) (throttle_state : gmap string tval)
    : gmap string tval :=
  let d := counters throttle_state group in
  <[group := TDict (<[key := (count_of d key + 1)%Z]> d)]> throttle_state.

(** The counters of [group] are a dictionary (or absent), not the text
    stored under [START_KEY]. *)
Definition has_counters (throttle_state : gmap string tval) (group : string) : Prop :=
  ∀ s, throttle_state !! group ≠ Some (TStr s).

(** The throttle definition of [group] has a limit for ['all'] or for [cmd]
    that is not [-1], the value with which [all_throttle_limit] and
    [cmd_throttle_limit] start. *)
Definition has_limit (m : gmap string (gmap string Z)) (group cmd : string) : Prop :=
  ∃ limits, m !! group = Some limits
    ∧ ((∃ a, limits !! "all" = Some a ∧ a ≠ (-1)%Z)
       ∨ (∃ c, limits !! cmd = Some c ∧ c ≠ (-1)%Z)).

(** The throttle definition of [group] has a limit for ['all'] or for [cmd],
    whatever its value: the condition in the words of the specification. *)
Definition defines_limit (m : gmap string (gmap string Z)) (group cmd : string) : Prop :=
  ∃ limits, m !! group = Some limits
    ∧ (is_Some (limits !! "all") ∨ is_Some (limits !! cmd)).

(** The limit of [group] for [key], [-1] when it has none. *)
Definition limit_of (m : gmap string (gmap string Z)) (group key : string) : Z :=
  match m !! group with
  | Some limits => default (-1)%Z (limits !! key)
  | None => (-1)%Z
  end.

(** None of [groups] both has [user] as a member and a limit for [cmd]. *)
Definition passed_over (cfg : gmap string cfgval) (m : gmap string (gmap string Z))
    (user cmd : string) (groups : list string) : Prop :=
  ∀ g, g ∈ groups →
    ∃ users, cfg !! (g +:+ "_users") = Some (VList users)
      ∧ ¬ (user ∈ users ∧ has_limit m g cmd).

(** ** Example configurations and worlds *)

(** An [sms] section with three groups; [carol] belongs to [vip] and to
    [guest], which both throttle [play]. *)
Definition demo_items : gmap string (option string) :=
  list_to_map
    [("commands", Some "play, volume"); ("groups", Some "admin, vip, guest");
     ("admin_users", Some "alice"); ("admin_commands", Some "all");
     ("vip_users", Some "carol, dave"); ("vip_commands", Some "play");
     ("vip_throttle", Some "all:5, play:1");
     ("guest_users", Some "bob, carol"); ("guest_commands", Some "play");
     ("guest_throttle", Some "play:0");
     ("blacklist", Some "mallory, bob");
     ("throttle_time_limit_seconds", Some "60")].

Definition demo_globals : globals := (sms demo_items fresh_globals).2.
Definition demo_cfg : gmap string cfgval := _SMS_CONFIG demo_globals.

(** A throttle definition whose limit is not an integer. *)
Definition malformed_items : gmap string (option string) :=
  list_to_map
    [("commands", Some "play, volume"); ("groups", Some "guest");
     ("guest_users", Some "bob"); ("guest_commands", Some "play");
     ("guest_throttle", Some "play:many, volume:3");
     ("blacklist", Some "mallory");
     ("throttle_time_limit_seconds", Some "60")].

(** Two groups with the same member; the first one gives ['all'] the limit [-1]. *)
Definition sentinel_items : gmap string (option string) :=
  list_to_map
    [("commands", Some "play"); ("groups", Some "a, b");
     ("a_users", Some "alice"); ("a_throttle", Some "all:-1");
     ("b_users", Some "alice"); ("b_throttle", Some "all:100");
     ("blacklist", Some "mallory");
     ("throttle_time_limit_seconds", Some "60")].

Definition sentinel_cfg : gmap string cfgval :=
  _SMS_CONFIG (sms sentinel_items fresh_globals).2.

(** [sentinel_items] with another limit for ['all'] in the first group. *)
Definition sentinel_items_with (limit : string) : gmap string (option string) :=
  <["a_throttle" := Some ("all:" +:+ limit)]> sentinel_items.

(** A process whose state file exists and is empty, with nothing loaded. *)
Definition empty_world : world := World ∅ (FileOk ∅) DiskOk [].

(** State files that hold a given text under [throttle], and one that
    [ConfigParser] cannot read. *)
Definition stored_world (blob : string) : world :=
  World ∅ (FileOk {[ "throttle" := blob ]}) DiskOk [].


(** 2020-01-01 00:00:00, and a microsecond and five seconds after it. *)
Definition midnight : Z := 63713433600000000.
Definition just_after : Z := 63713433600000001.
Definition five_seconds_after : Z := 63713433605000000.

(** The throttle definitions that [sms] stores for [demo_items]. *)
Definition demo_throttled : gmap string (gmap string Z) :=
  <["vip" := <["all" := 5%Z]> {[ "play" := 1%Z ]}]> {[ "guest" := {[ "play" := 0%Z ]} ]}.

(** The world after [carol]'s first [play] of a window that starts at
    [just_after], and the window stored in it. *)
Definition after_first_call : world :=
  (is_throttle_exceeded demo_cfg just_after "play" "carol" empty_world).2.

Definition first_call_window : gmap string tval :=
  bump "vip" "play" (bump "vip" "all" (fresh_window just_after)).

(** A state file with a window that started at [just_after] and has no
    counters yet. *)
Definition started_world : world :=
  stored_world "{'throttle_timestamp_start': '2020-01-01 00:00:00.000001'}".

(** The character that starts the fraction of a second. *)
Definition dot : ascii := "."%char.

(** A parser of [strptime] that leaves a dot to be read has been given a
    text with a dot. *)
Definition keeps_dot {A} (p : DateTime.parser A) : Prop :=
  ∀ s x r, p s = Some (x, r) →
    Literal.has_char dot r = true → Literal.has_char dot s = true.

(** Whether a result is a value. *)
Definition is_ok {A} (r : result A) : bool :=
  match r with Ok _ => true | Raise _ => false end.

(** [s] does not start with a digit. *)
Definition no_digit_head (s : string) : Prop :=
  match s with
  | EmptyString => True
  | String c _ => PyStr.digit_val c = None
  end.


(** [s] starts with a comma or a closing brace. *)
Definition separator_head (s : string) : Prop :=
  ∃ r, s = String ","%char r ∨ s = String "}"%char r.

(** How often the character [c] occurs in [s]. *)
Fixpoint count_char (c : ascii) (s : string) : nat :=
  match s with
  | EmptyString => 0
  | String c' r => (if Ascii.eqb c' c then 1 else 0) + count_char c r
  end.

(** The list that [sms] makes of the option [key] of the section: the
    names in its text, or no name when the section has no such option. *)
Definition raw_list (CONFIG : gmap string (option string)) (key : string)
    : list string :=
  match CONFIG !! key with
  | Some (Some s) => PyStr.strip <$> PyStr.split ","%char s
  | _ => []
  end.

(** One of [groups] lists [cmd] among its commands and [user] among its
    users. *)
Definition granted (CONFIG : gmap string (option string)) (groups : list string)
    (cmd user : string) : Prop :=
  ∃ group, group ∈ groups
    ∧ cmd ∈ raw_list CONFIG (group +:+ "_commands")
    ∧ user ∈ raw_list CONFIG (group +:+ "_users").

(** Every value of [c] is the one the section gave, or a list or the
    throttle table that [sms] has put in its place. *)
Definition raw_or_built (CONFIG : gmap string (option string))
    (c : gmap string cfgval) : Prop :=
  ∀ key, c !! key = of_items CONFIG !! key
         ∨ (∃ l, c !! key = Some (VList l))
         ∨ (∃ m, c !! key = Some (VGroups m)).

(** Every set of [_WHO_CAN] is empty. *)
Definition who_can_empty (g : globals) : Prop :=
  ∀ c users, _WHO_CAN g !! c = Some users → users = ∅.

(** The sets of [_WHO_CAN] hold the users that [groups] grant. *)
Definition who_can_grants (CONFIG : gmap string (option string))
    (groups : list string) (g : globals) : Prop :=
  ∀ c users, _WHO_CAN g !! c = Some users →
    ∀ user, user ∈ users ↔ granted CONFIG groups c user.

(** [_WHO_CAN] is [W]. *)
Definition who_can_is (W : gmap string (gset string)) (g : globals) : Prop :=
  _WHO_CAN g = W.

(** [m] keeps [P] when it raises. *)
Definition raise_keeps {S A} (P : S → Prop) (m : M S A) : Prop :=
  ∀ s e s', P s → m s = (Raise e, s') → P s'.

(** One check after another at the times [nows], each on the world the one
    before has left, as a caller that checks every command as it arrives
    makes them; the flags returned, oldest first. *)
Fixpoint successive_checks (cfg : gmap string cfgval) (cmd user : string)
    (nows : list Z) : M world (list flag) :=
  match nows with
  | [] => ret []
  | now :: rest =>
      f ← is_throttle_exceeded cfg now cmd user;
      fs ← successive_checks cfg cmd user rest;
      ret (f :: fs)
  end.

(** The window that [w] has for the next check: the state file can be read
    and written, and once it is loaded the text under ['throttle'] is that
    of [ts]. *)
Definition holds_window (ts : gmap string tval) (w : world) : Prop :=
  ∃ options, state_file w = FileOk options
    ∧ (options ∪ STATE w) !! "throttle" = Some (Literal.str ts)
    ∧ disk_full w = false.

(** The limit that decides a check, the counter it is compared with and
    the flag returned once it is reached: those of ['all'] when the group
    has a limit for ['all'], else those of the command. *)
Definition deciding_limit (sel : selection) : Z :=
  if (all_throttle_limit sel =? -1)%Z then cmd_throttle_limit sel
  else all_throttle_limit sel.
Definition deciding_counter (sel : selection) (cmd : string) : string :=
  if (all_throttle_limit sel =? -1)%Z then cmd else "all".
Definition flag_at_limit (sel : selection) : flag :=
  if (all_throttle_limit sel =? -1)%Z then PyMinus1 else PyTrue.

(** ** [hardware]: the device table *)

(** What [json.loads] makes of a text: a dictionary for a JSON object, with
    values of a type [V] that the module does not look into, or a value of
    another kind (a list, a number, a string, a boolean or [None]). *)
Inductive loaded (V : Type) : Type :=
  | JObject (members : gmap string V)
  | JOther.
Arguments JObject {V} members.
Arguments JOther {V}.

(** What a value of [_HARDWARE_CONFIG] can be: [None], the raw string of the
    configuration file, or the dictionary stored under ['devices']. *)
Inductive hwval (V : Type) : Type :=
  | HNone
  | HStr (s : string)
  | HDevices (devices : gmap string V).
Arguments HNone {V}.
Arguments HStr {V} s.
Arguments HDevices {V} devices.

(** The module global [_HARDWARE_CONFIG], and the errors handed to
    [logging.error] after the fixed text of the message, newest first. *)
Record hw_globals (V : Type) : Type := HwGlobals {
  _HARDWARE_CONFIG : gmap string (hwval V);
  logged : list exn
}.
Arguments HwGlobals {V} _ _.
Arguments _HARDWARE_CONFIG {V} _.
Arguments logged {V} _.

Definition fresh_hw_globals {V} : hw_globals V := HwGlobals ∅ [].

(** [dict(CONFIG.items('hardware'))] *)
Definition hw_items {V} (items : gmap string (option string)) : gmap string (hwval V) :=
  (λ o, match o with Some s => HStr s | None => HNone end) <$> items.

Section hardware.
Context {V : Type}.

(** [json.loads] on a string, which raises [ValueError] on a text that is
    not JSON, and [unicode.lower]. *)
Variable json_loads : string → result (loaded V).
Variable lower : string → string.

(** [json.loads(_HARDWARE_CONFIG['devices'])] *)
Definition load_devices (c : gmap string (hwval V)) : result (loaded V) :=
  rbind (getitem c "devices") (λ v,
  match v with
  | HStr s => json_loads s
  | _ => Raise TypeError
  end).

(** [{d.lower(): v for d, v in devices.iteritems()}]; the order of
    [map_to_list] stands for the order in which the dictionary is iterated. *)
Definition lowered (devices : gmap string V) : gmap string V :=
  foldl (λ acc dv, <[lower dv.1 := dv.2]> acc) ∅ (map_to_list devices).

(** [hardware()], where [CONFIG] stands for [CONFIG.items('hardware')]. *)
Definition hardware (CONFIG : gmap string (option string))
    : M (hw_globals V) (gmap string (hwval V)) :=
  g ← get;
  (if decide (size (_HARDWARE_CONFIG g) = 0%nat) then
     modify (λ g, HwGlobals (hw_items CONFIG) (logged g));;
     g ← get;
     devices ← match load_devices (_HARDWARE_CONFIG g) with
               | Ok devices => ret devices
               | Raise error =>
                   modify (λ g, HwGlobals (_HARDWARE_CONFIG g) (error :: logged g));;
                   ret (JObject ∅)
               end;
     match devices with
     | JObject devices =>
         modify (λ g, HwGlobals (<["devices" := HDevices (lowered devices)]>
                                    (_HARDWARE_CONFIG g)) (logged g))
     | JOther => raise AttributeError
     end
   else ret tt);;
  g ← get;
  ret (_HARDWARE_CONFIG g).

End hardware.

(** For the examples: [lower] on the letters A to Z, the object that
    [json.loads] makes of a device table with the members [Lamp] and
    [TREE], and the text of that table. *)
Definition demo_lower_char (c : ascii) : ascii :=
  let n := nat_of_ascii c in
  if (65 <=? n)%nat && (n <=? 90)%nat then ascii_of_nat (n + 32) else c.

Fixpoint demo_lower (s : string) : string :=
  match s with
  | EmptyString => EmptyString
  | String c r => String (demo_lower_char c) (demo_lower r)
  end.

Definition demo_devices : gmap string Z := <["Lamp" := 1%Z]> {[ "TREE" := 2%Z ]}.

Definition demo_devices_text : string :=
  "{" +:+ String Literal.quote2 ("Lamp" +:+ String Literal.quote2 (": 1, "
      +:+ String Literal.quote2 ("TREE" +:+ String Literal.quote2 ": 2}"))).

Definition demo_json_loads (text : string) : result (loaded Z) :=
  if decide (text = demo_devices_text) then Ok (JObject demo_devices)
  else Raise ValueError.

(** ** [examples/test_pattern2.py] *)

(** The calls that [main] makes on the hardware controller [hc] and on
    [time], oldest first; [Sleep] has the time in milliseconds. *)
Inductive call : Type :=
  | TurnOffLights
  | TurnOnLights
  | TurnOffLight (light : nat)
  | Sleep (milliseconds : nat).

Definition perform (c : call) : M (list call) unit := modify (λ calls, calls ++ [c]).

(** The working loop [for _ in range(50)], with [todo] of its passes still
    to make; [is_set pass] is what [exit_event.is_set()] answers at the end
    of the pass number [pass], counted from 0. *)
Fixpoint working_loop (lights : nat) (is_set : nat → bool) (pass todo : nat)
    : M (list call) unit :=
  match todo with
  | O => ret tt
  | S todo' =>
      for_each (seq 0 lights) (λ light,
        perform TurnOnLights;;
        perform (TurnOffLight light);;
        perform (Sleep 400));;
      if is_set pass return M (list call) unit then ret tt
      else working_loop lights is_set (S pass) todo'
  end.

(** [main(exit_event)], with [_GPIO_PINS] for [hc._GPIO_PINS]. *)
Definition main (_GPIO_PINS : list Z) (is_set : nat → bool) : M (list call) unit :=
  let lights := _GPIO_PINS in
  perform TurnOffLights;;
  perform (Sleep 2000);;
  working_loop (length lights) is_set 0 50;;
  perform TurnOffLights.

(** The calls of one pass over [lights] channels: each channel in turn is
    the only one switched off, for 0.4 seconds. *)
Definition pass_calls (lights : nat) : list call :=
  flat_map (λ light, [TurnOnLights; TurnOffLight light; Sleep 400]) (seq 0 lights).

(** The calls of a run of [main] with [passes] passes. *)
Definition run_calls (lights passes : nat) : list call :=
  [TurnOffLights; Sleep 2000]
  ++ concat (replicate passes (pass_calls lights)) ++ [TurnOffLights].

(** The last character of [s]. *)
Fixpoint last_char (s : string) : option ascii :=
  match s with
  | EmptyString => None
  | String c EmptyString => Some c
  | String _ r => last_char r
  end.

(** [m] is the table of the definitions [defs]: a command has the limit of
    its last definition of the form [command:limit], and no limit when it
    has no such definition. *)
Definition table_of (defs : list string) (m : gmap string Z) : Prop :=
  (∀ pre d post c l z,
     defs = pre ++ d :: post →
     PyStr.split ":" d = [c; l] →
     PyStr.int l = Ok z →
     (∀ d' l', d' ∈ post → PyStr.split ":" d' ≠ [c; l']) →
     m !! c = Some z)
  ∧ (∀ c, (∀ d l, d ∈ defs → PyStr.split ":" d ≠ [c; l]) → m !! c = None).

(** The throttle options are as the section gave them. *)
Definition throttle_raw (CONFIG : gmap string (option string))
    (c : gmap string cfgval) : Prop :=
  ∀ x, c !! (x +:+ "_throttle") = of_items CONFIG !! (x +:+ "_throttle").

(** [throttled] has a table for the groups of [processed] that have a
    throttle option in the section, the table of that option, and for no
    other group. *)
Definition throttled_as_configured (CONFIG : gmap string (option string))
    (processed : list string) (throttled : gmap string (gmap string Z)) : Prop :=
  ∀ group,
    match throttled !! group with
    | Some m =>
        group ∈ processed
        ∧ is_Some (CONFIG !! (group +:+ "_throttle"))
        ∧ table_of (raw_list CONFIG (group +:+ "_throttle")) m
    | None => group ∈ processed → CONFIG !! (group +:+ "_throttle") = None
    end.

(** ** [lightshow]: the show configuration *)

(** What a value of [_LIGHTSHOW_CONFIG] can be: [None], the raw string of
    the configuration file, the integer that [getint] has made of it, or what
    [json.loads] has made of a show configuration, of a type [V] that the
    module does not look into. *)
Inductive lsval (V : Type) : Type :=
  | LNone
  | LStr (s : string)
  | LInt (z : Z)
  | LJson (v : V).
Arguments LNone {V}.
Arguments LStr {V} s.
Arguments LInt {V} z.
Arguments LJson {V} v.

(** [lightshow] can end in [ConfigParser.NoOptionError] besides the
    exceptions of [exn]. *)
Inductive ls_exn : Type :=
  | NoOptionError
  | Py (e : exn).

Inductive ls_result (A : Type) : Type :=
  | Done (a : A)
  | Failed (e : ls_exn).
Arguments Done {A} a.
Arguments Failed {A} e.

(** The module global [_LIGHTSHOW_CONFIG], and the errors handed to
    [logging.error] after the fixed text of the message, newest first. *)
Record ls_globals (V : Type) : Type := LsGlobals {
  _LIGHTSHOW_CONFIG : gmap string (lsval V);
  ls_logged : list exn
}.
Arguments LsGlobals {V} _ _.
Arguments _LIGHTSHOW_CONFIG {V} _.
Arguments ls_logged {V} _.

Definition fresh_ls_globals {V} : ls_globals V := LsGlobals ∅ [].

Definition LS (V A : Type) : Type := ls_globals V → ls_result A * ls_globals V.

Definition ls_ret {V A} (a : A) : LS V A := λ g, (Done a, g).
Definition ls_lift {V A} (r : ls_result A) : LS V A := λ g, (r, g).
Definition ls_bind {V A B} (m : LS V A) (k : A → LS V B) : LS V B :=
  λ g, match m g with
       | (Done a, g') => k a g'
       | (Failed e, g') => (Failed e, g')
       end.
Definition ls_get {V} : LS V (ls_globals V) := λ g, (Done g, g).

(** [_LIGHTSHOW_CONFIG[key] = v] *)
Definition ls_set {V} (key : string) (v : lsval V) : LS V unit :=
  λ g, (Done tt, LsGlobals (<[key := v]> (_LIGHTSHOW_CONFIG g)) (ls_logged g)).

(** [logging.error(... + str(error))] *)
Definition ls_log {V} (error : exn) : LS V unit :=
  λ g, (Done tt, LsGlobals (_LIGHTSHOW_CONFIG g) (error :: ls_logged g)).

Declare Scope LS_scope.
Delimit Scope LS_scope with LS.
Notation "x ← y ; z" := (ls_bind y (λ x, z))
  (at level 20, y at level 100, z at level 200, only parsing) : LS_scope.
Notation "x ;; z" := (ls_bind x (λ _, z))
  (at level 100, z at level 200, only parsing, right associativity) : LS_scope.

(** [dict(CONFIG.items('lightshow'))] *)
Definition ls_items {V} (items : gmap string (option string)) : gmap string (lsval V) :=
  (λ o, match o with Some s => LStr s | None => LNone end) <$> items.

(** [CONFIG.get('lightshow', name)]: the raw value, [None] for an option
    without a value. *)
Definition config_get (CONFIG : gmap string (option string)) (name : string)
    : ls_result (option string) :=
  match CONFIG !! name with
  | Some v => Done v
  | None => Failed NoOptionError
  end.

(** [CONFIG.getint('lightshow', name)], that is [int(CONFIG.get(...))]. *)
Definition config_getint (CONFIG : gmap string (option string)) (name : string)
    : ls_result Z :=
  match config_get CONFIG name with
  | Done (Some s) =>
      match PyStr.int s with Ok z => Done z | Raise e => Failed (Py e) end
  | Done None => Failed (Py TypeError)
  | Failed e => Failed e
  end.

(** The truth value of what [CONFIG.get] returns. *)
Definition ls_truthy (v : option string) : bool :=
  match v with
  | Some s => negb (PyStr.is_empty s)
  | None => false
  end.

Section lightshow.
Context {V : Type}.

(** [json.loads] on a string, with [None] for the [ValueError] it raises on
    a text that is not JSON, and [os.path.isfile] on a string. *)
Variable json_loads : string → option V.
Variable isfile : string → bool.

(** Lines 115-131, and lines 133-147 with [postshow] for [preshow]: the
    value stored under [show]. *)
Definition show_setup (CONFIG : gmap string (option string)) (show : string)
    : LS V (lsval V) :=
  (configuration ← ls_lift (config_get CONFIG (show +:+ "_configuration"));
   use_configuration ←
     (if ls_truthy configuration return LS V bool then
        script ← ls_lift (config_get CONFIG (show +:+ "_script"));
        ls_ret (negb (ls_truthy script))
      else ls_ret false);
   g ← ls_get;
   if use_configuration : bool return LS V (lsval V) then
     match _LIGHTSHOW_CONFIG g !! (show +:+ "_configuration") with
     | None => ls_lift (Failed (Py KeyError))
     | Some (LStr text) =>
         match json_loads text with
         | Some v => ls_ret (LJson v)
         | None => ls_log ValueError;; ls_ret LNone
         end
     | Some _ => ls_log TypeError;; ls_ret LNone
     end
   else
     match _LIGHTSHOW_CONFIG g !! (show +:+ "_script") with
     | None => ls_lift (Failed (Py KeyError))
     | Some (LStr path) => ls_ret (if isfile path then LStr path else LNone)
     | Some _ => ls_lift (Failed (Py TypeError))
     end)%LS.

(** [lightshow()], where [CONFIG] stands for the section [lightshow] of
    the configuration. *)
Definition lightshow (CONFIG : gmap string (option string))
    : LS V (gmap string (lsval V)) :=
  (g ← ls_get;
   (if decide (size (_LIGHTSHOW_CONFIG g) = 0%nat) then
      (λ g, (Done tt, LsGlobals (ls_items CONFIG) (ls_logged g)));;
      channels ← ls_lift (config_getint CONFIG "audio_in_channels");
      ls_set "audio_in_channels" (LInt channels);;
      rate ← ls_lift (config_getint CONFIG "audio_in_sample_rate");
      ls_set "audio_in_sample_rate" (LInt rate);;
      preshow ← show_setup CONFIG "preshow";
      ls_set "preshow" preshow;;
      postshow ← show_setup CONFIG "postshow";
      ls_set "postshow" postshow
    else ls_ret tt);;
   g ← ls_get;
   ls_ret (_LIGHTSHOW_CONFIG g))%LS.

End lightshow.

(** * Properties *)

(** ** Reasoning about the monad *)

Lemma bind_Ok {S A B} (m : M S A) (k : A → M S B) s b s' :
  bind m k s = (Ok b, s') → ∃ a s1, m s = (Ok a, s1) ∧ k a s1 = (Ok b, s').
Proof.
  unfold bind. destruct (m s) as [[a|e] s1]; intros H.
  - by exists a, s1.
  - discriminate.
Qed.

Lemma bind_eq {S A B} (m : M S A) (k : A → M S B) s a s1 :
  m s = (Ok a, s1) → bind m k s = k a s1.
Proof. unfold bind. by intros ->. Qed.

Lemma bind_raise {S A B} (m : M S A) (k : A → M S B) s e s1 :
  m s = (Raise e, s1) → bind m k s = (Raise e, s1).
Proof. unfold bind. by intros ->. Qed.

Lemma stable_ret {S A} (P : S → Prop) (a : A) : stable P (ret a).
Proof. intros s r s' HP [= _ <-]. done. Qed.

Lemma stable_raise {S A} (P : S → Prop) e : stable P (@raise S A e).
Proof. intros s r s' HP [= _ <-]. done. Qed.

Lemma stable_lift {S A} (P : S → Prop) (x : result A) : stable P (lift x).
Proof. intros s r s' HP [= _ <-]. done. Qed.

Lemma stable_get {S} (P : S → Prop) : stable P get.
Proof. intros s r s' HP [= _ <-]. done. Qed.

Lemma stable_bind {S A B} (P : S → Prop) (m : M S A) (k : A → M S B) :
  stable P m → (∀ a, stable P (k a)) → stable P (bind m k).
Proof.
  intros Hm Hk s r s' HP. unfold bind.
  destruct (m s) as [[a|e] s1] eqn:E.
  - intros H. eapply Hk; [|exact H]. eapply Hm; eauto.
  - intros [= _ <-]. eapply Hm; eauto.
Qed.

Lemma stable_modify {S} (P : S → Prop) (f : S → S) :
  (∀ s, P s → P (f s)) → stable P (modify f).
Proof. intros Hf s r s' HP [= _ <-]. auto. Qed.

Lemma stable_for_each {S A} (P : S → Prop) (l : list A) (body : A → M S unit) :
  (∀ x, x ∈ l → stable P (body x)) → stable P (for_each l body).
Proof.
  induction l as [|x l IH]; intros Hb; simpl.
  - apply stable_ret.
  - apply stable_bind.
    + apply Hb. left.
    + intros _. apply IH. intros y Hy. apply Hb. by right.
Qed.

(** ** Keys of [_SMS_CONFIG] *)

Lemma ends_with_app x suf : ends_with suf (x +:+ suf) = true.
Proof.
  induction x as [|a x IH].
  - change (EmptyString +:+ suf) with suf.
    destruct suf; cbn [ends_with]; apply orb_true_iff; left;
      by apply bool_decide_eq_true_2.
  - simpl. rewrite IH. apply orb_true_r.
Qed.

Lemma app_ne x suf k : ends_with suf k = false → x +:+ suf ≠ k.
Proof. intros H <-. by rewrite ends_with_app in H. Qed.

Section stable_cfg.
Context (Q : gmap string cfgval → Prop).

Lemma stable_cfg_set key x :
  (∀ c, Q c → Q (<[key := x]> c)) → stable (on_cfg Q) (cfg_set key x).
Proof. intros H. apply stable_modify. intros g. apply H. Qed.

Lemma stable_cfg_warn msg : stable (on_cfg Q) (warn msg).
Proof. by apply stable_modify. Qed.

Lemma stable_cfg_listify key :
  (∀ c l, Q c → Q (<[key := VList l]> c)) → stable (on_cfg Q) (listify key).
Proof.
  intros H. unfold listify. apply stable_bind; [apply stable_get|]. intros g.
  destruct (_SMS_CONFIG g !! key).
  - apply stable_bind; [apply stable_lift|]. intros l.
    apply stable_bind; [apply stable_cfg_set; auto|]. intros _. apply stable_ret.
  - apply stable_bind; [apply stable_cfg_set; auto|]. intros _. apply stable_ret.
Qed.

Lemma stable_cfg_who_can_add cmd user : stable (on_cfg Q) (who_can_add cmd user).
Proof.
  intros g r g' HP. unfold who_can_add, bind, get, lift, getitem, set_who_can, modify.
  destruct (_WHO_CAN g !! cmd); by intros [= _ <-].
Qed.

Lemma stable_cfg_parse_definitions group defs acc :
  stable (on_cfg Q) (parse_definitions group defs acc).
Proof.
  revert acc. induction defs as [|d defs IH]; intros acc; simpl.
  - apply stable_ret.
  - destruct (PyStr.split ":" d) as [|a [|b [|c l]]];
      try (apply stable_bind; [by apply stable_cfg_warn|]; intros _; apply IH).
    apply stable_bind; [apply stable_lift|]. intros z. apply IH.
Qed.

Lemma stable_cfg_parse_throttle group :
  (∀ c m, Q c → Q (<["throttled_groups" := VGroups m]> c)) →
  stable (on_cfg Q) (parse_throttle group).
Proof.
  intros H. unfold parse_throttle.
  apply stable_bind; [apply stable_get|]. intros g.
  destruct (_SMS_CONFIG g !! (group +:+ "_throttle")).
  - apply stable_bind; [apply stable_lift|]. intros defs.
    apply stable_bind; [by apply stable_cfg_parse_definitions|]. intros tg.
    apply stable_bind; [apply stable_get|]. intros g1.
    destruct (_SMS_CONFIG g1 !! "throttled_groups") as [[]|];
      try apply stable_raise; try apply stable_cfg_warn.
    apply stable_cfg_set; auto.
  - apply stable_cfg_warn.
Qed.

Lemma stable_cfg_sms_group group :
  (∀ c l, Q c → Q (<[group +:+ "_users" := VList l]> c)) →
  (∀ c l, Q c → Q (<[group +:+ "_commands" := VList l]> c)) →
  (∀ c m, Q c → Q (<["throttled_groups" := VGroups m]> c)) →
  stable (on_cfg Q) (sms_group group).
Proof.
  intros Hu Hc Ht. unfold sms_group.
  apply stable_bind; [by apply stable_cfg_listify|]. intros users.
  apply stable_bind; [by apply stable_cfg_listify|]. intros commands.
  apply stable_bind.
  - apply stable_for_each. intros cmd _. apply stable_for_each. intros user _.
    apply stable_cfg_who_can_add.
  - intros _. by apply stable_cfg_parse_throttle.
Qed.

Lemma stable_cfg_sms_command cmd :
  (∀ c l, Q c → Q (<[cmd +:+ "_aliases" := VList l]> c)) →
  stable (on_cfg Q) (sms_command cmd).
Proof.
  intros H. unfold sms_command.
  apply stable_bind; [by apply stable_cfg_listify|]. intros _.
  by apply stable_modify.
Qed.
End stable_cfg.

Lemma key_is_insert k v key x c : key ≠ k → key_is k v c → key_is k v (<[key := x]> c).
Proof. unfold key_is. intros ? ?. by rewrite lookup_insert_ne. Qed.

Lemma key_is_list_insert k key l c :
  key_is_list k c → key_is_list k (<[key := VList l]> c).
Proof.
  unfold key_is_list. intros [l' H]. destruct (decide (key = k)) as [->|].
  - exists l. by rewrite lookup_insert_eq.
  - exists l'. by rewrite lookup_insert_ne.
Qed.

Lemma key_is_list_insert_ne k key x c :
  key ≠ k → key_is_list k c → key_is_list k (<[key := x]> c).
Proof. unfold key_is_list. intros ? [l H]. exists l. by rewrite lookup_insert_ne. Qed.

Lemma key_is_groups_insert m c : key_is_groups (<["throttled_groups" := VGroups m]> c).
Proof. exists m. by rewrite lookup_insert_eq. Qed.

Lemma key_is_groups_insert_ne key x c :
  key ≠ "throttled_groups" → key_is_groups c → key_is_groups (<[key := x]> c).
Proof. unfold key_is_groups. intros ? [m H]. exists m. by rewrite lookup_insert_ne. Qed.

Lemma stable_dom_listify D key : stable (who_can_dom D) (listify key).
Proof.
  unfold listify. apply stable_bind; [apply stable_get|]. intros g.
  destruct (_SMS_CONFIG g !! key).
  - apply stable_bind; [apply stable_lift|]. intros l.
    apply stable_bind; [by apply stable_modify|]. intros _. apply stable_ret.
  - apply stable_bind; [by apply stable_modify|]. intros _. apply stable_ret.
Qed.

Lemma stable_dom_who_can_add D cmd user : stable (who_can_dom D) (who_can_add cmd user).
Proof.
  intros g r g' HP. unfold who_can_add, bind, get, lift, getitem, set_who_can, modify.
  destruct (_WHO_CAN g !! cmd) as [s|] eqn:E; intros [= _ <-]; [|done].
  unfold who_can_dom in *. simpl. rewrite dom_insert_L.
  apply elem_of_dom_2 in E. set_solver.
Qed.

Lemma stable_dom_parse_definitions D group defs acc :
  stable (who_can_dom D) (parse_definitions group defs acc).
Proof.
  revert acc. induction defs as [|d defs IH]; intros acc; simpl.
  - apply stable_ret.
  - destruct (PyStr.split ":" d) as [|a [|b [|c l]]];
      try (apply stable_bind; [by apply stable_modify|]; intros _; apply IH).
    apply stable_bind; [apply stable_lift|]. intros z. apply IH.
Qed.

Lemma stable_dom_sms_group D group : stable (who_can_dom D) (sms_group group).
Proof.
  unfold sms_group.
  apply stable_bind; [apply stable_dom_listify|]. intros users.
  apply stable_bind; [apply stable_dom_listify|]. intros commands.
  apply stable_bind.
  - apply stable_for_each. intros cmd _. apply stable_for_each. intros user _.
    apply stable_dom_who_can_add.
  - intros _. unfold parse_throttle.
    apply stable_bind; [apply stable_get|]. intros g.
    destruct (_SMS_CONFIG g !! (group +:+ "_throttle")).
    + apply stable_bind; [apply stable_lift|]. intros defs.
      apply stable_bind; [by apply stable_dom_parse_definitions|]. intros tg.
      apply stable_bind; [apply stable_get|]. intros g1.
      destruct (_SMS_CONFIG g1 !! "throttled_groups") as [[]|];
        try apply stable_raise; try (by apply stable_modify).
    + by apply stable_modify.
Qed.

Lemma dom_sms_commands commands : ∀ g g',
  for_each commands sms_command g = (Ok tt, g') →
  dom (_WHO_CAN g') = dom (_WHO_CAN g) ∪ list_to_set commands.
Proof.
  induction commands as [|c commands IH]; intros g g'; simpl.
  - intros [= <-]. set_solver.
  - intros H. apply bind_Ok in H as ([] & g1 & H1 & H2).
    rewrite (IH _ _ H2).
    unfold sms_command in H1. apply bind_Ok in H1 as (l & g2 & Hl & Hr).
    injection Hr as <-. simpl.
    pose proof (stable_dom_listify (dom (_WHO_CAN g)) _ g (Ok l) g2 eq_refl Hl) as Hd.
    unfold who_can_dom in Hd. rewrite dom_insert_L, Hd. set_solver.
Qed.

Lemma cfg_get_Ok key g v g' :
  cfg_get key g = (Ok v, g') → g' = g ∧ _SMS_CONFIG g !! key = Some v.
Proof.
  unfold cfg_get, bind, get, lift, getitem.
  destruct (_SMS_CONFIG g !! key); by intros [= <- <-].
Qed.

Lemma lift_Ok {S A} (r : result A) (s : S) a s' :
  lift r s = (Ok a, s') → s' = s ∧ r = Ok a.
Proof. by intros [= -> <-]. Qed.

Lemma listify_Ok key g l g' :
  listify key g = (Ok l, g') → _SMS_CONFIG g' !! key = Some (VList l).
Proof.
  unfold listify, bind, get, lift, cfg_set, modify, ret.
  destruct (_SMS_CONFIG g !! key) as [v|].
  - destruct (_as_list v); intros [= <- <-]; simpl. by rewrite lookup_insert_eq.
  - intros [= <- <-]; simpl. by rewrite lookup_insert_eq.
Qed.

(** ** What a successful [sms] leaves in the globals *)

Lemma fixed_key_commands : fixed_key "commands".
Proof. by vm_compute. Qed.
Lemma fixed_key_groups : fixed_key "groups".
Proof. by vm_compute. Qed.

Lemma stable_fixed_sms_commands k v commands :
  fixed_key k → stable (on_cfg (key_is k v)) (for_each commands sms_command).
Proof.
  intros (Ha & _). apply stable_for_each. intros c _.
  apply stable_cfg_sms_command. intros ? ?. by apply key_is_insert, app_ne.
Qed.

Lemma stable_fixed_sms_groups k v groups :
  fixed_key k → stable (on_cfg (key_is k v)) (for_each groups sms_group).
Proof.
  intros (_ & Hu & Hc & Ht). apply stable_for_each. intros c _.
  apply stable_cfg_sms_group; intros ? ?; apply key_is_insert; try by apply app_ne.
  done.
Qed.

Lemma stable_throttled_sms_groups groups :
  stable (on_cfg key_is_groups) (for_each groups sms_group).
Proof.
  apply stable_for_each. intros c _.
  apply stable_cfg_sms_group; intros ? ? ?;
    try (by apply key_is_groups_insert_ne; [by apply app_ne|]).
  apply key_is_groups_insert.
Qed.

Lemma stable_users_sms_group group group' :
  stable (on_cfg (key_is_list (group +:+ "_users"))) (sms_group group').
Proof.
  apply stable_cfg_sms_group; intros ? ? ?; try by apply key_is_list_insert.
  apply key_is_list_insert_ne; [|done]. apply not_eq_sym. by apply app_ne.
Qed.

Lemma users_sms_groups groups : ∀ g g',
  for_each groups sms_group g = (Ok tt, g') →
  ∀ group, group ∈ groups → key_is_list (group +:+ "_users") (_SMS_CONFIG g').
Proof.
  induction groups as [|x groups IH]; intros g g' H group Hin.
  - by apply elem_of_nil in Hin.
  - simpl in H. apply bind_Ok in H as ([] & g1 & H1 & H2).
    apply elem_of_cons in Hin as [->|Hin]; [|by eapply IH].
    eapply (stable_for_each (on_cfg (key_is_list (x +:+ "_users")))); [| |exact H2].
    + intros y _. apply stable_users_sms_group.
    + unfold sms_group in H1. apply bind_Ok in H1 as (users & g2 & Hl & H1).
      apply listify_Ok in Hl.
      eapply (stable_bind (on_cfg (key_is_list (x +:+ "_users")))); [| | |exact H1].
      * apply stable_cfg_listify. intros ? ? ?. by apply key_is_list_insert.
      * intros commands. apply stable_bind.
        -- apply stable_for_each. intros cmd _. apply stable_for_each. intros user _.
           apply stable_cfg_who_can_add.
        -- intros _. apply stable_cfg_parse_throttle. intros ? ? ?.
           apply key_is_list_insert_ne; [|done]. apply not_eq_sym. by apply app_ne.
      * by exists users.
Qed.

Lemma sms_fresh CONFIG cfg g' :
  sms CONFIG fresh_globals = (Ok cfg, g') →
  cfg = _SMS_CONFIG g' ∧ ∃ commands groups blacklist, built commands groups blacklist g'.
Proof.
  unfold sms. intros H.
  apply bind_Ok in H as (g0 & s0 & [= <- <-] & H).
  rewrite decide_True in H by apply map_size_empty.
  apply bind_Ok in H as ([] & g1 & H & [= <- <-]). split; [done|].
  apply bind_Ok in H as ([] & s1 & [= <-] & H).
  apply bind_Ok in H as ([] & s2 & [= <-] & H).
  apply bind_Ok in H as (v & s3 & Hv & H). apply cfg_get_Ok in Hv as [-> _].
  apply bind_Ok in H as (commands & s4 & Hc & H). apply lift_Ok in Hc as [-> _].
  apply bind_Ok in H as ([] & s5 & [= <-] & H).
  apply bind_Ok in H as ([] & s6 & Hloop1 & H).
  apply bind_Ok in H as (v' & s7 & Hv' & H). apply cfg_get_Ok in Hv' as [-> _].
  apply bind_Ok in H as (groups & s8 & Hg & H). apply lift_Ok in Hg as [-> _].
  apply bind_Ok in H as ([] & s9 & [= <-] & H).
  apply bind_Ok in H as ([] & s10 & [= <-] & H).
  apply bind_Ok in H as ([] & s11 & Hloop2 & H).
  apply bind_Ok in H as (v'' & s12 & Hv'' & H). apply cfg_get_Ok in Hv'' as [-> _].
  apply bind_Ok in H as (blacklist & s13 & Hb & H). apply lift_Ok in Hb as [-> _].
  injection H as <-. simpl in *.
  exists commands, groups, blacklist.
  assert (Hcmd6 : on_cfg (key_is "commands" (VList commands)) s6).
  { eapply stable_fixed_sms_commands; [apply fixed_key_commands| |exact Hloop1].
    unfold on_cfg, key_is. simpl. by rewrite lookup_insert_eq. }
  assert (Hdom6 : dom (_WHO_CAN s6) = {[ "all" ]} ∪ list_to_set commands).
  { rewrite (dom_sms_commands _ _ _ Hloop1). simpl. by rewrite dom_singleton_L. }
  split; simpl.
  - rewrite lookup_insert_ne by done.
    eapply (stable_fixed_sms_groups "commands"); [apply fixed_key_commands| |exact Hloop2].
    unfold on_cfg, key_is. simpl. by rewrite !lookup_insert_ne.
  - rewrite lookup_insert_ne by done.
    eapply (stable_fixed_sms_groups "groups"); [apply fixed_key_groups| |exact Hloop2].
    unfold on_cfg, key_is. simpl. rewrite lookup_insert_ne by done.
    by rewrite lookup_insert_eq.
  - apply key_is_groups_insert_ne; [done|].
    eapply stable_throttled_sms_groups; [|exact Hloop2].
    apply key_is_groups_insert.
  - intros group Hin. apply key_is_list_insert.
    by eapply users_sms_groups.
  - by rewrite lookup_insert_eq.
  - rewrite <- Hdom6.
    eapply (stable_for_each (who_can_dom (dom (_WHO_CAN s6)))); [| |exact Hloop2]; [|done].
    intros group _. apply stable_dom_sms_group.
Qed.

Lemma sms_memo CONFIG g :
  size (_SMS_CONFIG g) ≠ 0%nat → sms CONFIG g = (Ok (_SMS_CONFIG g), g).
Proof.
  intros H. unfold sms, bind, get. by rewrite decide_False.
Qed.

Lemma built_nonempty commands groups blacklist g :
  built commands groups blacklist g → size (_SMS_CONFIG g) ≠ 0%nat.
Proof.
  intros [Hc _ _ _ _ _] Hs. apply map_size_empty_inv in Hs.
  rewrite Hs in Hc. by rewrite lookup_empty in Hc.
Qed.

(** [has_permission] once [sms] has returned. *)
Lemma has_permission_eval CONFIG user cmd g cfg g' blacklist :
  sms CONFIG g = (Ok cfg, g') →
  cfg !! "blacklist" = Some (VList blacklist) →
  has_permission CONFIG user cmd g =
    if bool_decide (user ∈ blacklist) then (Ok false, g')
    else match _WHO_CAN g' !! "all" with
         | None => (Raise KeyError, g')
         | Some all_users =>
             if bool_decide (user ∈ all_users) then (Ok true, g')
             else match _WHO_CAN g' !! cmd with
                  | None => (Raise KeyError, g')
                  | Some cmd_users =>
                      (Ok (bool_decide ("all" ∈ cmd_users)
                           || bool_decide (user ∈ cmd_users)), g')
                  end
         end.
Proof.
  intros Hsms Hbl. unfold has_permission.
  rewrite (bind_eq _ _ _ _ _ Hsms).
  unfold bind at 1. unfold lift at 1. unfold getitem. rewrite Hbl.
  unfold bind at 1. unfold lift at 1. simpl py_in. cbv iota beta.
  destruct (bool_decide (user ∈ blacklist)); [done|].
  unfold who_can_has, bind, get, lift, getitem, ret.
  destruct (_WHO_CAN g' !! "all") as [all_users|]; [|done].
  destruct (bool_decide (user ∈ all_users)); [done|].
  destruct (_WHO_CAN g' !! cmd) as [cmd_users|] eqn:Hc; [|done].
  destruct (bool_decide ("all" ∈ cmd_users)); simpl; [done|]. by rewrite Hc.
Qed.

(** ** The grant check *)

(** C1. For a command of the configured command list, [has_permission]
    returns [True] exactly when the user is not in the blacklist and is in
    [_WHO_CAN['all']], or ['all'] is in [_WHO_CAN[cmd]], or the user is in
    [_WHO_CAN[cmd]]; for a blacklisted user it returns [False] whatever the
    grants. This holds for the call that builds the table and for the calls
    after it. *)
Theorem has_permission_iff CONFIG user cmd cfg g' commands g0 :
  sms CONFIG fresh_globals = (Ok cfg, g') →
  cfg !! "commands" = Some (VList commands) →
  cmd ∈ commands →
  g0 = fresh_globals ∨ g0 = g' →
  ∃ blacklist all_users cmd_users,
    cfg !! "blacklist" = Some (VList blacklist)
    ∧ _WHO_CAN g' !! "all" = Some all_users
    ∧ _WHO_CAN g' !! cmd = Some cmd_users
    ∧ has_permission CONFIG user cmd g0 =
        (Ok (bool_decide ((user ∉ blacklist)
                          ∧ (user ∈ all_users ∨ "all" ∈ cmd_users ∨ user ∈ cmd_users))),
         g')
    ∧ (user ∈ blacklist → has_permission CONFIG user cmd g0 = (Ok false, g')).
Proof.
  intros Hsms Hcmds Hin Hg0.
  destruct (sms_fresh _ _ _ Hsms) as (-> & commands' & groups & blacklist & Hb).
  pose proof (built_commands _ _ _ _ Hb) as Hc'. rewrite Hcmds in Hc'.
  injection Hc' as <-.
  assert (Hsms0 : sms CONFIG g0 = (Ok (_SMS_CONFIG g'), g')).
  { destruct Hg0 as [->| ->]; [done|]. apply sms_memo. by eapply built_nonempty. }
  assert (Hall : is_Some (_WHO_CAN g' !! "all")).
  { apply elem_of_dom. rewrite (built_who_can _ _ _ _ Hb). set_solver. }
  assert (Hcmd : is_Some (_WHO_CAN g' !! cmd)).
  { apply elem_of_dom. rewrite (built_who_can _ _ _ _ Hb). set_solver. }
  destruct Hall as [all_users Hall], Hcmd as [cmd_users Hcmd].
  exists blacklist, all_users, cmd_users.
  pose proof (built_blacklist _ _ _ _ Hb) as Hbl.
  rewrite (has_permission_eval _ _ _ _ _ _ _ Hsms0 Hbl), Hall, Hcmd.
  repeat split; try done.
  - repeat case_bool_decide; simpl; try done; naive_solver.
  - intros Hu. by rewrite bool_decide_eq_true_2.
Qed.

(** C10, as the code has it. For a command that is neither in the configured
    command list nor the name ['all'], [has_permission] raises [KeyError]
    exactly when the user is neither blacklisted nor in [_WHO_CAN['all']]:
    a blacklisted user gets [False] and a user of [_WHO_CAN['all']] gets
    [True] before [_WHO_CAN[cmd]] is looked up. This holds for the call that
    builds the table and for the calls after it. *)
Theorem has_permission_unconfigured CONFIG user cmd cfg g' commands g0 :
  sms CONFIG fresh_globals = (Ok cfg, g') →
  cfg !! "commands" = Some (VList commands) →
  cmd ∉ commands →
  cmd ≠ "all" →
  g0 = fresh_globals ∨ g0 = g' →
  ∃ blacklist all_users,
    cfg !! "blacklist" = Some (VList blacklist)
    ∧ _WHO_CAN g' !! "all" = Some all_users
    ∧ has_permission CONFIG user cmd g0 =
        (if bool_decide (user ∈ blacklist) then Ok false
         else if bool_decide (user ∈ all_users) then Ok true
         else Raise KeyError, g').
Proof.
  intros Hsms Hcmds Hin Hne Hg0.
  destruct (sms_fresh _ _ _ Hsms) as (-> & commands' & groups & blacklist & Hb).
  pose proof (built_commands _ _ _ _ Hb) as Hc'. rewrite Hcmds in Hc'.
  injection Hc' as <-.
  assert (Hsms0 : sms CONFIG g0 = (Ok (_SMS_CONFIG g'), g')).
  { destruct Hg0 as [->| ->]; [done|]. apply sms_memo. by eapply built_nonempty. }
  assert (Hall : is_Some (_WHO_CAN g' !! "all")).
  { apply elem_of_dom. rewrite (built_who_can _ _ _ _ Hb). set_solver. }
  assert (Hcmd : _WHO_CAN g' !! cmd = None).
  { apply not_elem_of_dom. rewrite (built_who_can _ _ _ _ Hb). set_solver. }
  destruct Hall as [all_users Hall].
  exists blacklist, all_users.
  pose proof (built_blacklist _ _ _ _ Hb) as Hbl.
  rewrite (has_permission_eval _ _ _ _ _ _ _ Hsms0 Hbl), Hall, Hcmd.
  repeat split; try done.
  by repeat case_bool_decide.
Qed.

(** ** The state store *)

Lemma load_state_ok w options :
  state_file w = FileOk options → load_state w = (Ok tt, after_load options w).
Proof.
  intros H. unfold load_state, bind, emit, modify, get, set_STATE, after_load.
  simpl. rewrite H. simpl. by rewrite <- !app_assoc.
Qed.

Lemma load_state_corrupt w :
  state_file w = FileCorrupt →
  load_state w =
    (Raise ParsingError,
     World (STATE w) FileCorrupt (disk w)
           (events w ++ [EvOpen false; EvLock false; EvClose])).
Proof.
  intros H. unfold load_state, bind, emit, modify, get, raise.
  simpl. rewrite H. simpl. by rewrite <- !app_assoc.
Qed.

Lemma update_state_ok name value w :
  disk_full w = false → update_state name value w = (Ok tt, after_update name value w).
Proof.
  intros H. unfold update_state, bind, emit, modify, get, set_STATE, set_file, after_update.
  unfold disk_full in H. simpl. destruct (disk w); [|done]. simpl.
  by rewrite <- !app_assoc.
Qed.

(** On a full disk [update_state] raises [IOError]: from the close of the
    file, after the unlock, when the text fits the buffer, and else from
    [STATE.write], before it. *)
Lemma update_state_full name value w buffer kept :
  disk w = DiskFull buffer kept →
  update_state name value w =
    (Raise IOError,
     World (<[name := value]> (STATE w)) kept (disk w)
       (events w ++
        if (written_size (<[name := value]> (STATE w)) <=? buffer)%nat
        then [EvOpen true; EvLock true; EvWrite (<[name := value]> (STATE w));
              EvUnlock; EvClose]
        else [EvOpen true; EvLock true; EvClose])).
Proof.
  intros H. unfold update_state, bind, emit, modify, get, set_STATE, set_file, raise.
  cbn -[written_size Nat.leb]. rewrite H. cbn -[written_size Nat.leb].
  destruct (written_size (<[name := value]> (STATE w)) <=? buffer)%nat;
    cbn -[written_size Nat.leb]; by rewrite <- !app_assoc.
Qed.

Lemma update_state_full_raises name value w :
  disk_full w = true → (update_state name value w).1 = Raise IOError.
Proof.
  unfold disk_full. destruct (disk w) as [|buffer kept] eqn:E; [done|]. intros _.
  by rewrite (update_state_full _ _ _ _ _ E).
Qed.

Lemma is_throttle_exceeded_phases cfg now cmd user w :
  is_throttle_exceeded cfg now cmd user w =
    bind (load_window cfg now) (evaluate_limits cfg cmd user) w.
Proof. reflexivity. Qed.

(** [load_window], when the state file, the stored window and the time
    limit can be read. *)
Lemma load_window_eval cfg now w options ts limit seconds start stop :
  state_file w = FileOk options →
  Literal.literal_eval (default "{}" ((options ∪ STATE w) !! "throttle")) = Ok ts →
  cfg !! "throttle_time_limit_seconds" = Some limit →
  window_start ts now = Ok start →
  int_of_cfgval limit = Ok seconds →
  DateTime.add_seconds start seconds = Ok stop →
  load_window cfg now w =
    if ((now =? start) || (stop <? now))%Z
    then bind (update_state "throttle" (Literal.str (fresh_window now)))
              (λ _, ret (fresh_window now)) (after_load options w)
    else (Ok ts, after_load options w).
Proof.
  intros Hf Hts Hl Hs Hi Hstop. unfold load_window.
  rewrite (bind_eq _ _ _ _ _ (load_state_ok _ _ Hf)).
  unfold bind at 1. unfold get_state at 1. unfold bind at 1. unfold get at 1.
  unfold ret at 1. cbn [STATE after_load].
  change (match (options ∪ STATE w) !! "throttle" with Some v => v | None => "{}" end)
    with (default "{}" ((options ∪ STATE w) !! "throttle")).
  unfold bind at 1. unfold lift at 1. rewrite Hts.
  unfold bind at 1. unfold lift at 1. unfold getitem. rewrite Hl.
  unfold bind at 1. unfold lift at 1. rewrite Hs.
  unfold bind at 1. unfold lift at 1. rewrite Hi.
  unfold bind at 1. unfold lift at 1. rewrite Hstop.
  by destruct ((now =? start) || (stop <? now))%Z.
Qed.

(** ** The limits *)

Lemma counter_eval (d : gmap string Z) key :
  (if bucket_has key (TDict d) then bucket_get key (TDict d) else Ok 0%Z)
  = Ok (count_of d key).
Proof.
  unfold bucket_has, bucket_get, getitem, count_of.
  destruct (d !! key) eqn:E.
  - by rewrite bool_decide_eq_true_2 by eauto.
  - by rewrite bool_decide_eq_false_2 by (by intros [? ?]).
Qed.

Lemma bucket_of_counters ts group :
  has_counters ts group →
  match ts !! group with Some b => b | None => TDict ∅ end = TDict (counters ts group).
Proof.
  unfold has_counters, counters. intros H.
  destruct (ts !! group) as [[s|d]|] eqn:E; try done. by destruct (H s).
Qed.

Lemma counters_bump ts group key :
  counters (bump group key ts) group
  = <[key := (count_of (counters ts group) key + 1)%Z]> (counters ts group).
Proof. unfold bump. unfold counters at 1. by rewrite lookup_insert_eq. Qed.

Lemma count_of_bump_ne ts group key key' :
  key ≠ key' →
  count_of (counters (bump group key ts) group) key' = count_of (counters ts group) key'.
Proof. intros H. rewrite counters_bump. unfold count_of. by rewrite lookup_insert_ne. Qed.

Lemma apply_cmd_limit_eval cmd group cl count d ts f w :
  disk_full w = false →
  apply_cmd_limit cmd group cl count (TDict d) ts f w =
    if (negb (cl =? -1) && (count <? cl))%Z
    then (Ok PyFalse,
          after_update "throttle"
            (Literal.str (<[group := TDict (<[cmd := (count + 1)%Z]> d)]> ts)) w)
    else (Ok f, after_update "throttle" (Literal.str ts) w).
Proof.
  intros Hd. unfold apply_cmd_limit.
  destruct (negb (cl =? -1) && (count <? cl))%Z; simpl;
    unfold bind at 1; unfold lift at 1;
    by rewrite (bind_eq _ _ _ _ _ (update_state_ok _ _ _ Hd)).
Qed.

(** [apply_limits] for a throttled group with a name and with counters. *)
Lemma apply_limits_eval cmd sel ts w group :
  throttled_group sel = Some group →
  group ≠ EmptyString →
  has_counters ts group →
  disk_full w = false →
  apply_limits cmd sel ts w =
    let d := counters ts group in
    let al := all_throttle_limit sel in
    let cl := cmd_throttle_limit sel in
    if negb (al =? -1)%Z then
      if (count_of d "all" <? al)%Z then
        if (negb (cl =? -1) && (count_of d cmd <? cl))%Z
        then (Ok PyFalse,
              after_update "throttle"
                (Literal.str
                   (<[group := TDict (<[cmd := (count_of d cmd + 1)%Z]>
                                        (<["all" := (count_of d "all" + 1)%Z]> d))]> ts)) w)
        else (Ok PyFalse,
              after_update "throttle" (Literal.str (bump group "all" ts)) w)
      else (Ok PyTrue, w)
    else
      if (negb (cl =? -1) && (count_of d cmd <? cl))%Z
      then (Ok PyFalse, after_update "throttle" (Literal.str (bump group cmd ts)) w)
      else (Ok PyMinus1, after_update "throttle" (Literal.str ts) w).
Proof.
  intros Hg Hne Hc Hd. unfold apply_limits. rewrite Hg.
  destruct group as [|a group]; [done|]. cbn [PyStr.is_empty].
  rewrite (bucket_of_counters _ _ Hc). cbv zeta.
  unfold bind at 1. unfold lift at 1. rewrite counter_eval.
  destruct (negb (all_throttle_limit sel =? -1)%Z).
  - unfold bind at 1. unfold lift at 1. rewrite counter_eval.
    destruct (count_of (counters ts (String a group)) "all" <? all_throttle_limit sel)%Z;
      [|done].
    unfold bind at 1. unfold lift at 1. cbn [bucket_set].
    rewrite (apply_cmd_limit_eval _ _ _ _ _ _ _ _ Hd).
    destruct (negb (cmd_throttle_limit sel =? -1)
              && (count_of (counters ts (String a group)) cmd <? cmd_throttle_limit sel))%Z;
      [|done].
    by rewrite insert_insert_eq.
  - by rewrite (apply_cmd_limit_eval _ _ _ _ _ _ _ _ Hd).
Qed.

Lemma apply_limits_no_group cmd sel ts w :
  throttled_group sel = None ∨ throttled_group sel = Some EmptyString →
  apply_limits cmd sel ts w = (Ok PyFalse, w).
Proof. unfold apply_limits. by intros [-> | ->]. Qed.

(** ** The throttled group *)

Lemma limit_of_no_limit m g cmd :
  ¬ has_limit m g cmd → limit_of m g "all" = (-1)%Z ∧ limit_of m g cmd = (-1)%Z.
Proof.
  unfold has_limit, limit_of. intros H.
  destruct (m !! g) as [limits|]; [|done]. split.
  - destruct (limits !! "all") as [a|] eqn:E; [|done]. simpl.
    destruct (decide (a = -1)%Z) as [|Hne]; [done|].
    destruct H. exists limits. split; [done|]. left. by exists a.
  - destruct (limits !! cmd) as [c|] eqn:E; [|done]. simpl.
    destruct (decide (c = -1)%Z) as [|Hne]; [done|].
    destruct H. exists limits. split; [done|]. right. by exists c.
Qed.

Lemma limit_of_has_limit m g cmd :
  has_limit m g cmd →
  (negb (limit_of m g "all" =? -1) || negb (limit_of m g cmd =? -1))%Z = true.
Proof.
  unfold has_limit, limit_of. intros (limits & -> & [(a & -> & Ha) | (c & -> & Hc)]); simpl.
  - apply orb_true_iff. left. apply negb_true_iff. by apply Z.eqb_neq.
  - apply orb_true_iff. right. apply negb_true_iff. by apply Z.eqb_neq.
Qed.

(** One turn of the loop for a group whose users are a list. *)
Lemma find_group_step cfg m user cmd g rest users :
  cfg !! "throttled_groups" = Some (VGroups m) →
  cfg !! (g +:+ "_users") = Some (VList users) →
  find_group cfg user cmd (g :: rest) (-1) (-1) =
    if bool_decide (user ∈ users)
       && (negb (limit_of m g "all" =? -1) || negb (limit_of m g cmd =? -1))%Z
    then Ok (Selection (Some g) (limit_of m g "all") (limit_of m g cmd))
    else find_group cfg user cmd rest (-1) (-1).
Proof.
  intros Hm Hu. cbn [find_group]. unfold getitem. rewrite Hu, Hm.
  cbn [rbind py_in groups_getitem]. unfold limit_of, getitem.
  destruct (bool_decide (user ∈ users)); [|done].
  destruct (m !! g) as [limits|] eqn:E.
  - rewrite bool_decide_eq_true_2 by eauto. cbn [rbind andb].
    change (match limits !! "all" with Some l => l | None => -1 end)%Z
      with (default (-1)%Z (limits !! "all")).
    change (match limits !! cmd with Some l => l | None => -1 end)%Z
      with (default (-1)%Z (limits !! cmd)).
    generalize (default (-1)%Z (limits !! "all")) (default (-1)%Z (limits !! cmd)).
    intros a c. by destruct (Z.eqb_spec a (-1)), (Z.eqb_spec c (-1)); simpl; subst.
  - rewrite bool_decide_eq_false_2 by (by intros [? ?]). done.
Qed.

Lemma find_group_passed_over cfg m user cmd pre rest :
  cfg !! "throttled_groups" = Some (VGroups m) →
  passed_over cfg m user cmd pre →
  find_group cfg user cmd (pre ++ rest) (-1) (-1) = find_group cfg user cmd rest (-1) (-1).
Proof.
  intros Hm. induction pre as [|g pre IH]; intros Hp; [done|].
  destruct (Hp g) as (users & Hu & Hno); [left|].
  rewrite <- app_comm_cons, (find_group_step _ _ _ _ _ _ _ Hm Hu).
  rewrite IH by (intros g' Hg'; apply Hp; by right).
  case_bool_decide as Hin; [|done].
  destruct (limit_of_no_limit m g cmd) as [-> ->]; [tauto|done].
Qed.

Lemma find_group_match cfg m user cmd g post users :
  cfg !! "throttled_groups" = Some (VGroups m) →
  cfg !! (g +:+ "_users") = Some (VList users) →
  user ∈ users →
  has_limit m g cmd →
  find_group cfg user cmd (g :: post) (-1) (-1)
  = Ok (Selection (Some g) (limit_of m g "all") (limit_of m g cmd)).
Proof.
  intros Hm Hu Hin Hl. rewrite (find_group_step _ _ _ _ _ _ _ Hm Hu).
  by rewrite bool_decide_eq_true_2, limit_of_has_limit.
Qed.

Lemma select_group_eval cfg user cmd groups :
  cfg !! "groups" = Some (VList groups) →
  select_group cfg user cmd = find_group cfg user cmd groups (-1) (-1).
Proof. intros H. unfold select_group, getitem. by rewrite H. Qed.

(** C4, as the code has it. The first group, in the order of
    [_SMS_CONFIG['groups']], that has the user as a member and whose throttle
    definition has a limit other than [-1] for ['all'] or for the command is
    the throttled group, with its own two limits: the groups after it are
    not looked at, whatever the configuration holds for them, and the check
    goes on with the counters of that group, or returns [False] when its
    name is empty. When no group is such a group, the check returns [False]
    and leaves the world as [load_window] left it. *)
Theorem first_matching_group_governs cfg user cmd groups m :
  cfg !! "groups" = Some (VList groups) →
  cfg !! "throttled_groups" = Some (VGroups m) →
  (∀ pre g post users,
     groups = pre ++ g :: post →
     passed_over cfg m user cmd pre →
     cfg !! (g +:+ "_users") = Some (VList users) →
     user ∈ users →
     has_limit m g cmd →
     let sel := Selection (Some g) (limit_of m g "all") (limit_of m g cmd) in
     select_group cfg user cmd = Ok sel
     ∧ ∀ now w ts w1,
         load_window cfg now w = (Ok ts, w1) →
         is_throttle_exceeded cfg now cmd user w = apply_limits cmd sel ts w1
         ∧ (g = EmptyString → is_throttle_exceeded cfg now cmd user w = (Ok PyFalse, w1)))
  ∧ (passed_over cfg m user cmd groups →
     select_group cfg user cmd = Ok (Selection None (-1) (-1))
     ∧ ∀ now w ts w1,
         load_window cfg now w = (Ok ts, w1) →
         is_throttle_exceeded cfg now cmd user w = (Ok PyFalse, w1)).
Proof.
  intros Hg Hm. split.
  - intros pre g post users -> Hpre Hu Hin Hl sel.
    assert (Hsel : select_group cfg user cmd = Ok sel).
    { rewrite (select_group_eval _ _ _ _ Hg).
      rewrite (find_group_passed_over _ _ _ _ _ _ Hm Hpre).
      by eapply find_group_match. }
    split; [done|]. intros now w ts w1 Hw.
    assert (Hrun : is_throttle_exceeded cfg now cmd user w = apply_limits cmd sel ts w1).
    { rewrite is_throttle_exceeded_phases, (bind_eq _ _ _ _ _ Hw).
      unfold evaluate_limits. unfold bind at 1. unfold lift at 1. by rewrite Hsel. }
    split; [done|]. intros ->. rewrite Hrun. by apply apply_limits_no_group; right.
  - intros Hall.
    assert (Hsel : select_group cfg user cmd = Ok (Selection None (-1) (-1))).
    { rewrite (select_group_eval _ _ _ _ Hg).
      rewrite <- (app_nil_r groups).
      by rewrite (find_group_passed_over _ _ _ _ _ _ Hm Hall). }
    split; [done|]. intros now w ts w1 Hw.
    rewrite is_throttle_exceeded_phases, (bind_eq _ _ _ _ _ Hw).
    unfold evaluate_limits. unfold bind at 1. unfold lift at 1. by rewrite Hsel.
Qed.

(** The search returns for every configuration that [sms] builds, and the
    group it returns is one of the configured groups. *)
Lemma find_group_total cfg user cmd (groups : list string) :
  key_is_groups cfg →
  ∀ (gs : list string) a c,
    (∀ g, g ∈ gs → g ∈ groups ∧ key_is_list (g +:+ "_users") cfg) →
    ∃ sel, find_group cfg user cmd gs a c = Ok sel
      ∧ ∀ g, throttled_group sel = Some g → g ∈ groups.
Proof.
  intros [m Hm]. induction gs as [|g gs IH]; intros a c Hgs.
  - eexists. split; [done|]. by intros g [=].
  - destruct (Hgs g) as [Hin [users Hu]]; [left|].
    assert (Hrest : ∀ g', g' ∈ gs → g' ∈ groups ∧ key_is_list (g' +:+ "_users") cfg).
    { intros g' Hg'. apply Hgs. by right. }
    cbn [find_group]. unfold getitem. rewrite Hu, Hm.
    cbn [rbind py_in groups_getitem]. unfold getitem.
    destruct (bool_decide (user ∈ users)); [|by apply IH].
    destruct (m !! g) as [limits|] eqn:E.
    + rewrite bool_decide_eq_true_2 by eauto. cbn [rbind].
      match goal with |- context [if ?b then _ else _] => destruct b end.
      * eexists. split; [done|]. by intros g' [= <-].
      * by apply IH.
    + rewrite bool_decide_eq_false_2 by (by intros [? ?]). by apply IH.
Qed.

Lemma select_group_total commands groups blacklist g user cmd :
  built commands groups blacklist g →
  ∃ sel, select_group (_SMS_CONFIG g) user cmd = Ok sel
    ∧ ∀ group, throttled_group sel = Some group → group ∈ groups.
Proof.
  intros Hb. rewrite (select_group_eval _ _ _ _ (built_groups _ _ _ _ Hb)).
  apply find_group_total; [apply (built_throttled _ _ _ _ Hb)|].
  intros group Hin. split; [done|]. by apply (built_users _ _ _ _ Hb).
Qed.

(** ** The throttle window *)


Lemma fresh_window_lookup now key :
  fresh_window now !! key =
    if decide (key = START_KEY) then Some (TStr (DateTime.str now)) else None.
Proof.
  unfold fresh_window. destruct (decide (key = START_KEY)) as [->|].
  - by rewrite lookup_singleton_eq.
  - by rewrite lookup_singleton_ne.
Qed.


(** ** The two limits *)

Lemma bump_cmd_after_all ts group cmd :
  cmd ≠ "all" →
  bump group cmd (bump group "all" ts) =
    let d := counters ts group in
    <[group := TDict (<[cmd := (count_of d cmd + 1)%Z]>
                        (<["all" := (count_of d "all" + 1)%Z]> d))]> ts.
Proof.
  intros Hne. unfold bump at 1. rewrite counters_bump.
  unfold count_of at 1. rewrite lookup_insert_ne by done.
  unfold bump. by rewrite insert_insert_eq.
Qed.

(** C2, as the code has it. With a limit for ['all'] and a limit for the
    command: a count of ['all'] that has reached its limit ends the check
    with [True] and nothing is incremented or written; otherwise the count
    of ['all'] is raised. If then the count of the command has reached its
    limit, that count stays, the window with the raised ['all'] count is
    written, and the check returns [False], as it does when the count of the
    command is raised as well: a command limit that is reached is not
    reported as exceeded. *)
Theorem all_limit_before_cmd_limit cfg now cmd user w ts w1 sel group :
  load_window cfg now w = (Ok ts, w1) →
  select_group cfg user cmd = Ok sel →
  throttled_group sel = Some group →
  group ≠ EmptyString →
  has_counters ts group →
  disk_full w1 = false →
  all_throttle_limit sel ≠ (-1)%Z →
  cmd_throttle_limit sel ≠ (-1)%Z →
  cmd ≠ "all" →
  let all_count := count_of (counters ts group) "all" in
  let cmd_count := count_of (counters ts group) cmd in
  is_throttle_exceeded cfg now cmd user w =
    if (all_throttle_limit sel <=? all_count)%Z then (Ok PyTrue, w1)
    else if (cmd_throttle_limit sel <=? cmd_count)%Z
    then (Ok PyFalse,
          after_update "throttle" (Literal.str (bump group "all" ts)) w1)
    else (Ok PyFalse,
          after_update "throttle"
            (Literal.str (bump group cmd (bump group "all" ts))) w1).
Proof.
  intros Hw Hsel Hg Hne Hc Hd Hal Hcl Hcmd all_count cmd_count.
  rewrite is_throttle_exceeded_phases, (bind_eq _ _ _ _ _ Hw).
  unfold evaluate_limits. unfold bind at 1. unfold lift at 1. rewrite Hsel.
  rewrite (apply_limits_eval _ _ _ _ _ Hg Hne Hc Hd). cbv zeta.
  apply Z.eqb_neq in Hal, Hcl. rewrite Hal, Hcl. cbn [negb andb].
  fold all_count cmd_count.
  rewrite (Z.leb_antisym all_count), (Z.leb_antisym cmd_count).
  destruct (all_count <? all_throttle_limit sel)%Z; [|done]. cbn [negb].
  destruct (cmd_count <? cmd_throttle_limit sel)%Z; [|done]. cbn [negb].
  subst all_count cmd_count. by rewrite bump_cmd_after_all.
Qed.

(** C5, as the code has it. A check that gets past [load_window] has
    reloaded the state file first. It then ends by writing the window,
    changed or not, exactly when a throttled group with a name was found and
    the limit of ['all'], if there is one, was not reached; the return for
    no throttled group and the return for a reached ['all'] limit leave the
    world as [load_window] left it. *)
Theorem window_written_unless_early_return cfg now cmd user w ts w1 sel :
  load_window cfg now w = (Ok ts, w1) →
  select_group cfg user cmd = Ok sel →
  disk_full w1 = false →
  (∀ group, throttled_group sel = Some group → has_counters ts group) →
  (∃ options rest,
     state_file w = FileOk options
     ∧ events w1 = events (after_load options w) ++ rest)
  ∧ match throttled_group sel with
    | None => is_throttle_exceeded cfg now cmd user w = (Ok PyFalse, w1)
    | Some group =>
        if PyStr.is_empty group
        then is_throttle_exceeded cfg now cmd user w = (Ok PyFalse, w1)
        else if (negb (all_throttle_limit sel =? -1)
                 && (all_throttle_limit sel <=? count_of (counters ts group) "all"))%Z
        then is_throttle_exceeded cfg now cmd user w = (Ok PyTrue, w1)
        else ∃ f ts',
          is_throttle_exceeded cfg now cmd user w
          = (Ok f, after_update "throttle" (Literal.str ts') w1)
    end.
Proof.
  intros Hw Hsel Hd Hc. split.
  { unfold load_window in Hw. apply bind_Ok in Hw as ([] & w0 & Hload & Hrest).
    destruct (state_file w) as [options|] eqn:Hf.
    - exists options. rewrite (load_state_ok _ _ Hf) in Hload. injection Hload as <-.
      clear Hsel Hd Hc.
      apply bind_Ok in Hrest as (blob & s1 & [= _ <-] & Hrest).
      apply bind_Ok in Hrest as (ts0 & s2 & [-> _]%lift_Ok & Hrest).
      apply bind_Ok in Hrest as (lim & s3 & [-> _]%lift_Ok & Hrest).
      apply bind_Ok in Hrest as (start & s4 & [-> _]%lift_Ok & Hrest).
      apply bind_Ok in Hrest as (secs & s5 & [-> _]%lift_Ok & Hrest).
      apply bind_Ok in Hrest as (stop & s6 & [-> _]%lift_Ok & Hrest).
      destruct (_ || _).
      + apply bind_Ok in Hrest as ([] & s7 & Hup & [= _ <-]).
        destruct (disk_full (after_load options w)) eqn:Hfull.
        * apply (f_equal fst) in Hup.
          by rewrite (update_state_full_raises _ _ _ Hfull) in Hup.
        * rewrite (update_state_ok _ _ _ Hfull) in Hup. injection Hup as <-.
          by eexists.
      + injection Hrest as _ <-. exists []. by rewrite app_nil_r.
    - by rewrite (load_state_corrupt _ Hf) in Hload. }
  assert (Hrun : is_throttle_exceeded cfg now cmd user w = apply_limits cmd sel ts w1).
  { rewrite is_throttle_exceeded_phases, (bind_eq _ _ _ _ _ Hw).
    unfold evaluate_limits. unfold bind at 1. unfold lift at 1. by rewrite Hsel. }
  rewrite Hrun. clear Hrun.
  destruct (throttled_group sel) as [group|] eqn:Hg;
    [|by apply apply_limits_no_group; left].
  destruct (PyStr.is_empty group) eqn:He.
  { destruct group; [|done]. by apply apply_limits_no_group; right. }
  assert (Hne : group ≠ EmptyString) by (by intros ->).
  rewrite (apply_limits_eval _ _ _ _ _ Hg Hne (Hc _ eq_refl) Hd). cbv zeta.
  rewrite (Z.leb_antisym (count_of (counters ts group) "all")).
  destruct (negb (all_throttle_limit sel =? -1)%Z); cbn [andb].
  - destruct (count_of (counters ts group) "all" <? all_throttle_limit sel)%Z;
      cbn [negb]; [|done].
    destruct (_ && _); by eexists _, _.
  - destruct (_ && _); by eexists _, _.
Qed.

(** ** A missing or unreadable window *)

Lemma literal_eval_empty : Literal.literal_eval "{}" = Ok ∅.
Proof. reflexivity. Qed.

(** C6, as the code has it. When nothing is stored under [throttle],
    [get_state] gives the text of the empty dictionary, the check reads it
    as a window without a start and without counters, resets it, and, for a
    configuration built by [sms], returns a flag. (Text that
    [ast.literal_eval] cannot read makes the check raise instead, as
    [unreadable_window_raises] shows.) *)
Theorem absent_window_is_default CONFIG cfg g' now cmd user w options limit seconds stop :
  sms CONFIG fresh_globals = (Ok cfg, g') →
  state_file w = FileOk options →
  disk_full w = false →
  (options ∪ STATE w) !! "throttle" = None →
  cfg !! "throttle_time_limit_seconds" = Some limit →
  int_of_cfgval limit = Ok seconds →
  DateTime.add_seconds now seconds = Ok stop →
  (∀ groups, cfg !! "groups" = Some (VList groups) → START_KEY ∉ groups) →
  get_state "throttle" "{}" (after_load options w) = (Ok "{}", after_load options w)
  ∧ Literal.literal_eval "{}" = Ok ∅
  ∧ load_window cfg now w =
      (Ok (fresh_window now),
       after_update "throttle" (Literal.str (fresh_window now)) (after_load options w))
  ∧ ∃ f w', is_throttle_exceeded cfg now cmd user w = (Ok f, w').
Proof.
  intros Hsms Hf Hd Habsent Hl Hi Hstop Hgroups.
  destruct (sms_fresh _ _ _ Hsms) as (-> & commands & groups & blacklist & Hb).
  split. { unfold get_state, bind, get, ret. cbn [STATE after_load]. by rewrite Habsent. }
  split; [done|].
  assert (Hts : Literal.literal_eval (default "{}" ((options ∪ STATE w) !! "throttle")) = Ok ∅)
    by (by rewrite Habsent).
  assert (Hw : load_window (_SMS_CONFIG g') now w =
      (Ok (fresh_window now),
       after_update "throttle" (Literal.str (fresh_window now)) (after_load options w))).
  { rewrite (load_window_eval _ _ _ _ _ _ _ _ _ Hf Hts Hl eq_refl Hi Hstop).
    rewrite Z.eqb_refl. cbn [orb].
    by rewrite (bind_eq _ _ _ _ _ (update_state_ok _ _ (after_load options w) Hd)). }
  split; [done|].
  rewrite is_throttle_exceeded_phases, (bind_eq _ _ _ _ _ Hw).
  destruct (select_group_total _ _ _ _ user cmd Hb) as (sel & Hsel & Hin).
  unfold evaluate_limits. unfold bind at 1. unfold lift at 1. rewrite Hsel.
  destruct (throttled_group sel) as [group|] eqn:Hg.
  - destruct (decide (group = EmptyString)) as [->|Hne].
    { rewrite apply_limits_no_group by (by right). by eexists _, _. }
    assert (Hc : has_counters (fresh_window now) group).
    { intros s. rewrite fresh_window_lookup.
      rewrite decide_False; [done|]. intros ->.
      by apply (Hgroups groups (built_groups _ _ _ _ Hb)), Hin. }
    rewrite (apply_limits_eval _ _ _ _ _ Hg Hne Hc) by done. cbv zeta.
    repeat match goal with |- context [if ?b then _ else _] => destruct b end;
      by eexists _, _.
  - rewrite apply_limits_no_group by (by left). by eexists _, _.
Qed.

(** ** Throttle definitions *)

(** A definition that does not split on [':'] into two parts is passed over
    with a warning, and the definitions after it are read. *)
Lemma parse_definitions_skips group definition rest acc :
  length (PyStr.split ":" definition) ≠ 2%nat →
  parse_definitions group (definition :: rest) acc =
    (warn (group +:+ "_throttle definitions should be in the form "
                 +:+ "[command]:<limit> - "
                 +:+ PyStr.join ":" (PyStr.split ":" definition));;
     parse_definitions group rest acc).
Proof.
  intros H. cbn [parse_definitions].
  by destruct (PyStr.split ":" definition) as [|a [|b [|c l]]].
Qed.

(** A definition whose limit is not an integer ends the loop with the
    exception of [int]. *)
Lemma parse_definitions_raises group definition rest acc command limit e g :
  PyStr.split ":" definition = [command; limit] →
  PyStr.int limit = Raise e →
  parse_definitions group (definition :: rest) acc g = (Raise e, g).
Proof.
  intros Hs Hi. cbn [parse_definitions]. rewrite Hs.
  unfold bind, lift. by rewrite Hi.
Qed.

(** C7, at the failing input. With [guest_throttle = play:many, volume:3],
    [sms] raises [ValueError]: nothing is warned about, the definition
    [volume:3] is not read, no throttle definition is stored for the group
    and the blacklist is still the text of the configuration file. *)
Theorem malformed_limit_aborts_sms :
  let '(r, g) := sms malformed_items fresh_globals in
  r = Raise ValueError
  ∧ warned g = []
  ∧ _SMS_CONFIG g !! "throttled_groups" = Some (VGroups ∅)
  ∧ _SMS_CONFIG g !! "blacklist" = Some (VStr "mallory").
Proof. vm_compute. by repeat split. Qed.

(** ** Locks on the state file *)


(** ** The text of the start timestamp *)


Lemma has_char_app c a b :
  Literal.has_char c (a +:+ b) = Literal.has_char c a || Literal.has_char c b.
Proof.
  induction a as [|x a IH]; simpl; [done|]. rewrite IH. apply orb_assoc.
Qed.

Lemma pretty_N_char_not_dot x : Ascii.eqb dot (pretty_N_char x) = false.
Proof. unfold pretty_N_char. by repeat case_match. Qed.

Lemma has_dot_pretty_N_go x s :
  Literal.has_char dot (pretty_N_go x s) = Literal.has_char dot s.
Proof.
  revert s. induction (N.lt_wf_0 x) as [x _ IH]; intros s.
  assert (x = 0 ∨ 0 < x)%N as [->|Hx] by lia.
  - by rewrite pretty_N_go_0.
  - rewrite pretty_N_go_step by done. rewrite IH by (by apply N.div_lt).
    cbn [Literal.has_char]. by rewrite pretty_N_char_not_dot.
Qed.

Lemma has_dot_pretty_N (x : N) : Literal.has_char dot (pretty x) = false.
Proof.
  unfold pretty, pretty_N. case_decide; [done|]. by rewrite has_dot_pretty_N_go.
Qed.

Lemma has_dot_pretty_Z (z : Z) : Literal.has_char dot (pretty z) = false.
Proof.
  destruct z as [|p|p]; [done| |].
  - apply (has_dot_pretty_N (N.pos p)).
  - change (pretty (Z.neg p)) with ("-" +:+ pretty (N.pos p)).
    rewrite has_char_app. simpl. apply (has_dot_pretty_N (N.pos p)).
Qed.

Lemma has_dot_pad w z : Literal.has_char dot (DateTime.pad w z) = false.
Proof.
  unfold DateTime.pad. rewrite has_char_app, has_dot_pretty_Z, orb_false_r.
  induction (w - String.length (pretty z))%nat as [|n IH]; [done|]. by simpl.
Qed.

(** The text of a timestamp whose microsecond field is zero has no dot. *)
Lemma str_without_fraction t :
  (t mod 1000000 = 0)%Z → Literal.has_char dot (DateTime.str t) = false.
Proof.
  intros Ht. unfold DateTime.str.
  destruct (DateTime.ord2ymd _) as [[y mo] d].
  assert (Hus : ((t mod DateTime.US_PER_DAY) mod DateTime.US_PER_SECOND =? 0)%Z = true).
  { apply Z.eqb_eq. unfold DateTime.US_PER_DAY, DateTime.US_PER_SECOND.
    rewrite Z.mod_mod_divide; [done|]. by exists 86400%Z. }
  rewrite Hus. rewrite !has_char_app, !has_dot_pad. done.
Qed.

Lemma keeps_dot_digit : keeps_dot DateTime.digit.
Proof.
  intros [|c s] x r; [done|]. unfold DateTime.digit.
  destruct (PyStr.digit_val c); [|done]. intros [= _ <-] H. simpl.
  rewrite H. apply orb_true_r.
Qed.

Lemma keeps_dot_lit c : keeps_dot (DateTime.lit c).
Proof.
  intros [|c' s] x r; [done|]. unfold DateTime.lit.
  destruct (Ascii.eqb c c'); [|done]. intros [= _ <-] H. simpl.
  rewrite H. apply orb_true_r.
Qed.

Lemma keeps_dot_two_or_one ok ok1 : keeps_dot (DateTime.two_or_one ok ok1).
Proof.
  intros s x r. unfold DateTime.two_or_one.
  destruct (DateTime.digit s) as [[a s1]|] eqn:E1; [|done].
  destruct (DateTime.digit s1) as [[b s2]|] eqn:E2.
  - destruct (ok a b).
    + intros [= _ <-] H. eapply keeps_dot_digit; [exact E1|].
      eapply keeps_dot_digit; [exact E2|done].
    + destruct (ok1 a); [|done]. intros [= _ <-] H. by eapply keeps_dot_digit.
  - destruct (ok1 a); [|done]. intros [= _ <-] H. by eapply keeps_dot_digit.
Qed.

Lemma keeps_dot_year4 : keeps_dot DateTime.year4.
Proof.
  intros s x r. unfold DateTime.year4.
  destruct (DateTime.digit s) as [[a s1]|] eqn:E1; [|done].
  destruct (DateTime.digit s1) as [[b s2]|] eqn:E2; [|done].
  destruct (DateTime.digit s2) as [[c s3]|] eqn:E3; [|done].
  destruct (DateTime.digit s3) as [[d s4]|] eqn:E4; [|done].
  intros [= _ <-] H.
  eapply keeps_dot_digit; [exact E1|]. eapply keeps_dot_digit; [exact E2|].
  eapply keeps_dot_digit; [exact E3|]. by eapply keeps_dot_digit.
Qed.

Lemma keeps_dot_day : keeps_dot DateTime.day.
Proof.
  intros s x r. unfold DateTime.day.
  destruct (DateTime.two_or_one _ _ s) as [[v s1]|] eqn:E.
  - intros [= _ <-] H. by eapply keeps_dot_two_or_one.
  - destruct (DateTime.lit " " s) as [[[] s1]|] eqn:E1; [|done].
    destruct (DateTime.digit s1) as [[a s2]|] eqn:E2; [|done].
    destruct (1 <=? a)%Z; [|done]. intros [= _ <-] H.
    eapply keeps_dot_lit; [exact E1|]. by eapply keeps_dot_digit.
Qed.

Lemma has_dot_lstrip s :
  Literal.has_char dot (PyStr.lstrip s) = true → Literal.has_char dot s = true.
Proof.
  induction s as [|c s IH]; [done|]. simpl.
  destruct (PyStr.is_space c); [|done]. intros H. rewrite (IH H). apply orb_true_r.
Qed.

Lemma keeps_dot_spaces1 : keeps_dot DateTime.spaces1.
Proof.
  intros [|c s] x r; [done|]. unfold DateTime.spaces1.
  destruct (PyStr.is_space c); [|done]. intros [= _ <-] H. simpl.
  rewrite (has_dot_lstrip _ H). apply orb_true_r.
Qed.

Lemma lit_dot_has_dot s x r :
  DateTime.lit dot s = Some (x, r) → Literal.has_char dot s = true.
Proof.
  destruct s as [|c s]; [done|]. unfold DateTime.lit.
  destruct (Ascii.eqb dot c) eqn:E; [|done]. intros _.
  cbn [Literal.has_char]. by rewrite E.
Qed.

(** [strptime] reads only texts that have a dot: the format asks for
    [.%f] after the seconds. *)
Lemma strptime_needs_fraction s t :
  DateTime.strptime s = Ok t → Literal.has_char dot s = true.
Proof.
  unfold DateTime.strptime.
  destruct (DateTime.year4 s) as [[y s1]|] eqn:E1; [|done]. cbn [mbind option_bind].
  destruct (DateTime.lit "-" s1) as [[[] s2]|] eqn:E2; [|done]. cbn [mbind option_bind].
  destruct (DateTime.month s2) as [[mo s3]|] eqn:E3; [|done]. cbn [mbind option_bind].
  destruct (DateTime.lit "-" s3) as [[[] s4]|] eqn:E4; [|done]. cbn [mbind option_bind].
  destruct (DateTime.day s4) as [[d s5]|] eqn:E5; [|done]. cbn [mbind option_bind].
  destruct (DateTime.spaces1 s5) as [[[] s6]|] eqn:E6; [|done]. cbn [mbind option_bind].
  destruct (DateTime.hour s6) as [[h s7]|] eqn:E7; [|done]. cbn [mbind option_bind].
  destruct (DateTime.lit ":" s7) as [[[] s8]|] eqn:E8; [|done]. cbn [mbind option_bind].
  destruct (DateTime.minute s8) as [[mi s9]|] eqn:E9; [|done]. cbn [mbind option_bind].
  destruct (DateTime.lit ":" s9) as [[[] s10]|] eqn:E10; [|done]. cbn [mbind option_bind].
  destruct (DateTime.second s10) as [[sec s11]|] eqn:E11; [|done]. cbn [mbind option_bind].
  destruct (DateTime.lit "." s11) as [[[] s12]|] eqn:E12; [|done]. intros _.
  apply lit_dot_has_dot in E12.
  eapply keeps_dot_year4; [exact E1|]. eapply keeps_dot_lit; [exact E2|].
  eapply keeps_dot_two_or_one; [exact E3|]. eapply keeps_dot_lit; [exact E4|].
  eapply keeps_dot_day; [exact E5|]. eapply keeps_dot_spaces1; [exact E6|].
  eapply keeps_dot_two_or_one; [exact E7|]. eapply keeps_dot_lit; [exact E8|].
  eapply keeps_dot_two_or_one; [exact E9|]. eapply keeps_dot_lit; [exact E10|].
  by eapply keeps_dot_two_or_one.
Qed.

Lemma strptime_str_without_fraction t :
  (t mod 1000000 = 0)%Z → DateTime.strptime (DateTime.str t) = Raise ValueError.
Proof.
  intros Ht. destruct (DateTime.strptime (DateTime.str t)) as [t'|e] eqn:E.
  - apply strptime_needs_fraction in E. by rewrite str_without_fraction in E.
  - revert E. unfold DateTime.strptime.
    destruct (_ ≫= _) as [[[[[[[y mo] d] h] mi] sec] us]|]; [|by intros [= <-]].
    unfold DateTime.make. destruct (_ && _); [done|]. by intros [= <-].
Qed.

(** A window whose start is the text of a timestamp with microsecond 0, as
    a reset at such a time writes it, is not read back: [str] leaves the
    fraction out, [strptime] with the format [%Y-%m-%d %H:%M:%S.%f] asks for
    it, and every later check raises [ValueError] once it has reloaded the
    state. *)
Theorem zero_microsecond_window_raises cfg now cmd user w options ts limit t :
  state_file w = FileOk options →
  Literal.literal_eval (default "{}" ((options ∪ STATE w) !! "throttle")) = Ok ts →
  cfg !! "throttle_time_limit_seconds" = Some limit →
  ts !! START_KEY = Some (TStr (DateTime.str t)) →
  (t mod 1000000 = 0)%Z →
  fresh_window t !! START_KEY = Some (TStr (DateTime.str t))
  ∧ DateTime.strptime (DateTime.str t) = Raise ValueError
  ∧ is_throttle_exceeded cfg now cmd user w = (Raise ValueError, after_load options w).
Proof.
  intros Hf Hts Hl Hstart Ht.
  split; [by rewrite fresh_window_lookup|].
  pose proof (strptime_str_without_fraction t Ht) as Hp. split; [done|].
  rewrite is_throttle_exceeded_phases. apply bind_raise.
  unfold load_window.
  rewrite (bind_eq _ _ _ _ _ (load_state_ok _ _ Hf)).
  unfold bind at 1. unfold get_state at 1. unfold bind at 1. unfold get at 1.
  unfold ret at 1. cbn [STATE after_load].
  change (match (options ∪ STATE w) !! "throttle" with Some v => v | None => "{}" end)
    with (default "{}" ((options ∪ STATE w) !! "throttle")).
  unfold bind at 1. unfold lift at 1. rewrite Hts.
  unfold bind at 1. unfold lift at 1. unfold getitem. rewrite Hl.
  unfold bind at 1. unfold lift at 1. unfold window_start. by rewrite Hstart, Hp.
Qed.

(** C9, at the failing input. A check at 2020-01-01 00:00:00 sharp resets
    the window and stores its start as [str(current_timestamp)], which has no
    fraction; [strptime] with the format [%Y-%m-%d %H:%M:%S.%f] does not read
    it back, so the next check raises [ValueError]. *)
Theorem zero_microsecond_start_not_read_back :
  let first := is_throttle_exceeded demo_cfg midnight "play" "carol" empty_world in
  first.1 = Ok PyFalse
  ∧ STATE first.2 !! "throttle"
    = Some "{'vip': {'all': 1, 'play': 1}, 'throttle_timestamp_start': '2020-01-01 00:00:00'}"
  ∧ state_file first.2 = FileOk (STATE first.2)
  ∧ DateTime.strptime (DateTime.str midnight) = Raise ValueError
  ∧ (is_throttle_exceeded demo_cfg five_seconds_after "play" "carol" first.2).1
    = Raise ValueError.
Proof. vm_compute. by repeat split. Qed.

(** A start with a fraction is read back. *)
Lemma fraction_start_read_back :
  DateTime.str just_after = "2020-01-01 00:00:00.000001"
  ∧ DateTime.strptime (DateTime.str just_after) = Ok just_after.
Proof. vm_compute. by split. Qed.

(** ** The text of a window is read back as the window *)

Lemma append_cons x (a b : string) : String x a +:+ b = String x (a +:+ b).
Proof. reflexivity. Qed.

Lemma append_nil (b : string) : EmptyString +:+ b = b.
Proof. reflexivity. Qed.

Lemma append_assoc (a b c : string) : (a +:+ b) +:+ c = a +:+ (b +:+ c).
Proof. induction a as [|x a IH]; [done|]. by rewrite !append_cons, IH. Qed.

Lemma hex_val_hex_digit k :
  (k < 16)%N → Literal.hex_val (Literal.hex_digit k) = Some k.
Proof.
  intros H.
  assert (k = 0 ∨ k = 1 ∨ k = 2 ∨ k = 3 ∨ k = 4 ∨ k = 5 ∨ k = 6 ∨ k = 7 ∨ k = 8
          ∨ k = 9 ∨ k = 10 ∨ k = 11 ∨ k = 12 ∨ k = 13 ∨ k = 14 ∨ k = 15)%N
    as Hk by lia.
  repeat (destruct Hk as [-> | Hk]; [done|]). by subst.
Qed.

Lemma ascii_of_code c n : N_of_ascii c = n → c = ascii_of_N n.
Proof. intros <-. by rewrite ascii_N_embedding. Qed.

(** Reading what [repr] writes for one character gives the character. *)
Lemma str_body_escape_char q c tail :
  q = Literal.quote1 ∨ q = Literal.quote2 →
  Literal.str_body q (Literal.escape_char q c +:+ tail) =
    match Literal.str_body q tail with
    | Some (body, rest) => Some (String c body, rest)
    | None => None
    end.
Proof.
  intros Hq. unfold Literal.escape_char.
  assert (Hqb : Ascii.eqb Literal.backslash q = false) by (by destruct Hq as [-> | ->]).
  destruct (Ascii.eqb c q || Ascii.eqb c Literal.backslash) eqn:E1.
  { rewrite !append_cons, append_nil. cbn [Literal.str_body].
    rewrite Hqb, Ascii.eqb_refl.
    destruct (Ascii.eqb c Literal.backslash) eqn:Eb.
    { apply Ascii.eqb_eq in Eb as ->. done. }
    rewrite orb_false_r in E1. apply Ascii.eqb_eq in E1 as ->.
    by destruct Hq as [-> | ->]. }
  apply orb_false_iff in E1 as [Ecq Ecb].
  destruct (N_of_ascii c =? 9)%N eqn:E9.
  { apply N.eqb_eq, ascii_of_code in E9 as ->.
    rewrite !append_cons, append_nil. cbn [Literal.str_body]. by rewrite Hqb. }
  destruct (N_of_ascii c =? 10)%N eqn:E10.
  { apply N.eqb_eq, ascii_of_code in E10 as ->.
    rewrite !append_cons, append_nil. cbn [Literal.str_body]. by rewrite Hqb. }
  destruct (N_of_ascii c =? 13)%N eqn:E13.
  { apply N.eqb_eq, ascii_of_code in E13 as ->.
    rewrite !append_cons, append_nil. cbn [Literal.str_body]. by rewrite Hqb. }
  destruct ((N_of_ascii c <? 32)%N || (127 <=? N_of_ascii c)%N) eqn:Ex.
  { pose proof (N_ascii_bounded c) as Hb.
    assert (H1 : (N_of_ascii c / 16 < 16)%N) by (apply N.Div0.div_lt_upper_bound; lia).
    assert (H2 : (N_of_ascii c mod 16 < 16)%N) by (by apply N.mod_lt).
    rewrite !append_cons, append_nil. cbn [Literal.str_body].
    rewrite Hqb, Ascii.eqb_refl.
    change (Ascii.eqb "x" Literal.backslash) with false.
    change (Ascii.eqb "x" Literal.quote1) with false.
    change (Ascii.eqb "x" Literal.quote2) with false.
    change (Ascii.eqb "x" "n") with false.
    change (Ascii.eqb "x" "t") with false.
    change (Ascii.eqb "x" "r") with false.
    change (Ascii.eqb "x" "x") with true. cbv iota.
    rewrite (hex_val_hex_digit _ H1), (hex_val_hex_digit _ H2).
    rewrite <- N.div_mod by done. by rewrite ascii_N_embedding. }
  rewrite !append_cons, append_nil. cbn [Literal.str_body].
  by rewrite Ecq, Ecb, E10.
Qed.

Lemma str_body_escape q s rest :
  q = Literal.quote1 ∨ q = Literal.quote2 →
  Literal.str_body q (Literal.escape q s +:+ String q rest) = Some (s, rest).
Proof.
  intros Hq. induction s as [|c s IH].
  - cbn [Literal.escape]. rewrite append_nil. cbn [Literal.str_body].
    by rewrite Ascii.eqb_refl.
  - cbn [Literal.escape]. by rewrite append_assoc, (str_body_escape_char _ _ _ Hq), IH.
Qed.

Lemma string_lit_repr s rest :
  Literal.string_lit (Literal.repr_str s +:+ rest) = Some (s, rest).
Proof.
  unfold Literal.repr_str, Literal.string_lit.
  destruct (Literal.has_char Literal.quote1 s && negb (Literal.has_char Literal.quote2 s));
    rewrite append_cons, append_assoc, append_cons, append_nil.
  - change (Ascii.eqb Literal.quote2 Literal.quote1 || Ascii.eqb Literal.quote2 Literal.quote2)
      with true. cbv iota. apply str_body_escape. by right.
  - change (Ascii.eqb Literal.quote1 Literal.quote1 || Ascii.eqb Literal.quote1 Literal.quote2)
      with true. cbv iota. apply str_body_escape. by left.
Qed.

Lemma pretty_N_go_app x s : pretty_N_go x s = pretty_N_go x EmptyString +:+ s.
Proof.
  revert s. induction (N.lt_wf_0 x) as [x _ IH]; intros s.
  assert (x = 0 ∨ 0 < x)%N as [->|Hx] by lia.
  - by rewrite !pretty_N_go_0.
  - rewrite !(pretty_N_go_step x) by done.
    rewrite IH by (by apply N.div_lt). symmetry.
    rewrite IH by (by apply N.div_lt). by rewrite append_assoc.
Qed.

Lemma digit_val_pretty_N_char d :
  (d < 10)%N → PyStr.digit_val (pretty_N_char d) = Some (Z.of_N d).
Proof.
  intros H.
  assert (d = 0 ∨ d = 1 ∨ d = 2 ∨ d = 3 ∨ d = 4 ∨ d = 5 ∨ d = 6 ∨ d = 7 ∨ d = 8
          ∨ d = 9)%N as Hd by lia.
  repeat (destruct Hd as [-> | Hd]; [done|]). by subst.
Qed.

Lemma digits_prefix_pretty x :
  ∃ p, ∀ acc s,
    Literal.digits_prefix acc (pretty_N_go x s)
    = Literal.digits_prefix (acc * p + Z.of_N x)%Z s.
Proof.
  induction (N.lt_wf_0 x) as [x _ IH].
  assert (x = 0 ∨ 0 < x)%N as [->|Hx] by lia.
  - exists 1%Z. intros acc s. rewrite pretty_N_go_0. f_equal. lia.
  - destruct (IH (x `div` 10)%N) as [p Hp]; [by apply N.div_lt|].
    exists (10 * p)%Z. intros acc s.
    rewrite pretty_N_go_step, Hp by done. cbn [Literal.digits_prefix].
    rewrite digit_val_pretty_N_char by (by apply N.mod_lt).
    f_equal. rewrite (N.div_mod x 10) at 3 by done. lia.
Qed.

Lemma pretty_N_go_head x s :
  (0 < x)%N → ∃ c r d, pretty_N_go x s = String c r ∧ PyStr.digit_val c = Some d.
Proof.
  revert s. induction (N.lt_wf_0 x) as [x _ IH]; intros s Hx.
  rewrite pretty_N_go_step by done.
  destruct (N.eq_0_gt_0_cases (x `div` 10)) as [->|Hd].
  - rewrite pretty_N_go_0. eexists _, _, _. split; [done|].
    apply digit_val_pretty_N_char. by apply N.mod_lt.
  - apply IH; [by apply N.div_lt|done].
Qed.

Lemma digits_prefix_stop acc s :
  no_digit_head s → Literal.digits_prefix acc s = (acc, s).
Proof. destruct s as [|c r]; [done|]. simpl. by intros ->. Qed.

Lemma nat_lit_digits c r d :
  PyStr.digit_val c = Some d →
  Literal.nat_lit (String c r) = Some (Literal.digits_prefix 0 (String c r)).
Proof. intros H. simpl. by rewrite H. Qed.

Lemma nat_lit_pretty (x : N) rest :
  no_digit_head rest → Literal.nat_lit (pretty x +:+ rest) = Some (Z.of_N x, rest).
Proof.
  intros Hrest. unfold pretty, pretty_N. case_decide as Hx.
  - subst. rewrite append_cons, append_nil.
    rewrite (nat_lit_digits _ _ 0%Z) by done. cbn [Literal.digits_prefix].
    change (PyStr.digit_val "0") with (Some 0%Z). cbv iota.
    by rewrite digits_prefix_stop.
  - rewrite <- pretty_N_go_app.
    destruct (pretty_N_go_head x rest) as (c & r & d & Hs & Hc); [lia|].
    rewrite Hs, (nat_lit_digits _ _ _ Hc), <- Hs.
    destruct (digits_prefix_pretty x) as [p Hp]. rewrite Hp.
    by rewrite digits_prefix_stop.
Qed.

Lemma int_lit_digit c r d :
  PyStr.digit_val c = Some d → Literal.int_lit (String c r) = Literal.nat_lit (String c r).
Proof.
  intros H. destruct c as [[] [] [] [] [] [] [] []]; try reflexivity.
  by vm_compute in H.
Qed.

Lemma int_lit_pretty (z : Z) rest :
  no_digit_head rest → Literal.int_lit (pretty z +:+ rest) = Some (z, rest).
Proof.
  intros Hrest. destruct z as [|p|p].
  - pose proof (nat_lit_pretty 0%N rest Hrest) as Hn.
    change (pretty 0%Z) with "0". change (pretty 0%N) with "0" in Hn.
    rewrite append_cons, append_nil in *.
    by rewrite (int_lit_digit _ _ 0%Z), Hn.
  - change (pretty (Z.pos p)) with (pretty (N.pos p)).
    pose proof (nat_lit_pretty (N.pos p) rest Hrest) as Hn.
    unfold pretty, pretty_N in *. rewrite decide_False in * by done.
    rewrite <- pretty_N_go_app in *.
    destruct (pretty_N_go_head (N.pos p) rest) as (c & r & d & Hs & Hc); [lia|].
    rewrite Hs in *. by rewrite (int_lit_digit _ _ _ Hc), Hn.
  - change (pretty (Z.neg p)) with ("-" +:+ pretty (N.pos p)).
    rewrite append_assoc, append_cons, append_nil. cbn [Literal.int_lit].
    by rewrite (nat_lit_pretty (N.pos p) rest Hrest).
Qed.

Lemma lstrip_head c r :
  PyStr.is_space c = false → PyStr.lstrip (String c r) = String c r.
Proof. intros H. cbn [PyStr.lstrip]. by rewrite H. Qed.

Lemma repr_str_head s :
  ∃ q body, Literal.repr_str s = String q body
    ∧ (q = Literal.quote1 ∨ q = Literal.quote2).
Proof. unfold Literal.repr_str. destruct (_ && _); eexists _, _; eauto. Qed.

Lemma append_length a b :
  String.length (a +:+ b) = (String.length a + String.length b)%nat.
Proof.
  induction a as [|c a IH]; [done|]. rewrite append_cons. cbn [String.length].
  by rewrite IH.
Qed.

Lemma append_nil_r (a : string) : a +:+ EmptyString = a.
Proof. induction a as [|c a IH]; [done|]. by rewrite append_cons, IH. Qed.

Lemma items_unfold {V} (value : Literal.parser V) fuel acc s :
  (∀ r, PyStr.lstrip s ≠ String "}"%char r) →
  Literal.items value (S fuel) acc s =
    Literal.string_lit (PyStr.lstrip s) ≫= λ '(k, s2),
    match PyStr.lstrip s2 with
    | String ":"%char s3 =>
        value (PyStr.lstrip s3) ≫= λ '(v, s4),
        match PyStr.lstrip s4 with
        | String ","%char s5 => Literal.items value fuel (<[k := v]> acc) s5
        | String "}"%char s5 => Some (<[k := v]> acc, s5)
        | _ => None
        end
    | _ => None
    end.
Proof.
  intros H. cbn [Literal.items]. destruct (PyStr.lstrip s) as [|c r]; [done|].
  destruct c as [[] [] [] [] [] [] [] []]; try reflexivity. by destruct (H r).
Qed.

Lemma join_cons d x y l :
  PyStr.join d (x :: y :: l) = x +:+ d +:+ PyStr.join d (y :: l).
Proof. reflexivity. Qed.

Section dict_round_trip.
Context {V : Type} (repr_v : V → string) (value : Literal.parser V).
Hypothesis value_ok : ∀ v tail,
  separator_head tail →
  PyStr.lstrip (repr_v v +:+ tail) = repr_v v +:+ tail
  ∧ value (repr_v v +:+ tail) = Some (v, tail).

Lemma repr_item_head k v tail :
  ∃ q body, Literal.repr_item repr_v (k, v) +:+ tail = String q body
    ∧ (q = Literal.quote1 ∨ q = Literal.quote2).
Proof.
  unfold Literal.repr_item. cbn [fst snd].
  destruct (repr_str_head k) as (q & body & -> & Hq).
  rewrite !append_cons. by eexists _, _.
Qed.

Lemma lstrip_quote q body :
  q = Literal.quote1 ∨ q = Literal.quote2 →
  PyStr.lstrip (String q body) = String q body
  ∧ ∀ r, String q body ≠ String "}"%char r.
Proof. by intros [-> | ->]. Qed.

Lemma items_item fuel acc k v s tail :
  PyStr.lstrip s = Literal.repr_item repr_v (k, v) +:+ tail →
  separator_head tail →
  Literal.items value (S fuel) acc s =
    match tail with
    | String ","%char s5 => Literal.items value fuel (<[k := v]> acc) s5
    | String "}"%char s5 => Some (<[k := v]> acc, s5)
    | _ => None
    end.
Proof.
  intros Hs Htail.
  destruct (repr_item_head k v tail) as (q & body & Hhead & Hq).
  destruct (lstrip_quote q body Hq) as [_ Hne].
  rewrite items_unfold by (rewrite Hs, Hhead; apply Hne).
  rewrite Hs. unfold Literal.repr_item. cbn [fst snd].
  rewrite !append_assoc, string_lit_repr. cbn [mbind option_bind].
  rewrite !append_cons, append_nil.
  rewrite (lstrip_head ":") by done. cbv iota beta.
  change (PyStr.lstrip (String " " (repr_v v +:+ tail)))
    with (PyStr.lstrip (repr_v v +:+ tail)).
  destruct (value_ok v tail Htail) as [-> ->]. cbn [mbind option_bind].
  by destruct Htail as [r [-> | ->]].
Qed.

Lemma lstrip_join kv l tail :
  PyStr.lstrip (String " " (PyStr.join ", " (Literal.repr_item repr_v <$> kv :: l) +:+ tail))
  = PyStr.join ", " (Literal.repr_item repr_v <$> kv :: l) +:+ tail.
Proof.
  change (PyStr.lstrip (String " " ?x)) with (PyStr.lstrip x).
  destruct kv as [k v].
  assert (∃ t, PyStr.join ", " (Literal.repr_item repr_v <$> (k, v) :: l) +:+ tail
               = Literal.repr_item repr_v (k, v) +:+ t) as [t ->].
  { rewrite fmap_cons. destruct l as [|kv' l'].
    - by eexists.
    - rewrite fmap_cons, join_cons, !append_assoc. by eexists. }
  destruct (repr_item_head k v t) as (q & body & -> & Hq).
  by apply lstrip_quote.
Qed.

Lemma items_round l : ∀ fuel acc s rest,
  l ≠ [] →
  (length l ≤ fuel)%nat →
  PyStr.lstrip s = PyStr.join ", " (Literal.repr_item repr_v <$> l) +:+ "}" +:+ rest →
  Literal.items value fuel acc s
  = Some (foldl (λ a kv, <[kv.1 := kv.2]> a) acc l, rest).
Proof.
  induction l as [|[k v] l IH]; intros fuel acc s rest Hne Hlen Hs; [done|].
  destruct fuel as [|fuel]; [simpl in Hlen; lia|].
  destruct l as [|kv' l'].
  - cbn [fmap list_fmap PyStr.join] in Hs.
    rewrite (items_item fuel acc k v s ("}" +:+ rest) Hs)
      by (eexists; right; by rewrite append_cons, append_nil).
    by rewrite append_cons, append_nil.
  - rewrite (fmap_cons _ (k, v)), (fmap_cons _ kv'), join_cons in Hs.
    rewrite <- (fmap_cons _ kv') in Hs. rewrite !append_assoc in Hs.
    rewrite (items_item fuel acc k v s _ Hs)
      by (eexists; left; by rewrite !append_cons, append_nil).
    rewrite !append_cons, append_nil.
    apply IH; [done|simpl in *; lia|]. apply lstrip_join.
Qed.

Lemma join_length l :
  (length l ≤ String.length (PyStr.join ", " (Literal.repr_item repr_v <$> l)))%nat.
Proof.
  induction l as [|[k v] l IH]; [done|].
  rewrite fmap_cons.
  destruct (repr_item_head k v EmptyString) as (q & body & Hh & _).
  rewrite append_nil_r in Hh.
  destruct l as [|kv' l'].
  - cbn [fmap list_fmap PyStr.join]. rewrite Hh. simpl. lia.
  - rewrite (fmap_cons _ kv'), join_cons, <- (fmap_cons _ kv').
    rewrite !append_length, Hh. simpl in *. lia.
Qed.

Lemma foldl_insert_list_to_map (l : list (string * V)) : ∀ acc : gmap string V,
  NoDup l.*1 →
  foldl (λ a kv, <[kv.1 := kv.2]> a) acc l = list_to_map l ∪ acc.
Proof.
  induction l as [|[k v] l IH]; intros acc Hnd.
  - cbn [foldl list_to_map foldr]. by rewrite (left_id_L ∅ (∪)).
  - rewrite fmap_cons in Hnd. apply NoDup_cons in Hnd as [Hk Hnd].
    cbn [foldl fst snd list_to_map foldr].
    rewrite IH by done. rewrite <- insert_union_l. symmetry.
    apply insert_union_r. by apply not_elem_of_list_to_map_1.
Qed.

Lemma dict_repr_items m rest :
  Literal.dict value (Literal.repr_items repr_v m +:+ rest) = Some (m, rest).
Proof.
  unfold Literal.repr_items, Literal.dict.
  rewrite !append_assoc, append_cons, append_nil.
  destruct (map_to_list m) as [|kv l] eqn:El.
  - apply map_to_list_empty_iff in El as ->.
    cbn [fmap list_fmap PyStr.join]. by rewrite append_nil, append_cons, append_nil.
  - rewrite (items_round (kv :: l) _ ∅ _ rest).
    + rewrite foldl_insert_list_to_map, (right_id_L ∅ (∪)), <- El by
        (rewrite <- El; apply NoDup_fst_map_to_list).
      by rewrite list_to_map_to_list.
    + done.
    + rewrite append_length. pose proof (join_length (kv :: l)). lia.
    + destruct kv as [k v].
      assert (∃ t, PyStr.join ", " (Literal.repr_item repr_v <$> (k, v) :: l)
                     +:+ "}" +:+ rest
                   = Literal.repr_item repr_v (k, v) +:+ t) as [t Ht].
      { rewrite fmap_cons. destruct l as [|kv' l'].
        - by eexists.
        - rewrite fmap_cons, join_cons, !append_assoc. by eexists. }
      rewrite Ht. destruct (repr_item_head k v t) as (q & body & -> & Hq).
      by apply lstrip_quote.
Qed.
End dict_round_trip.

Lemma digit_not_space c d : PyStr.digit_val c = Some d → PyStr.is_space c = false.
Proof.
  intros H. destruct c as [[] [] [] [] [] [] [] []]; try reflexivity;
    by vm_compute in H.
Qed.

Lemma pretty_Z_head (z : Z) :
  ∃ c r, pretty z = String c r ∧ PyStr.is_space c = false.
Proof.
  destruct z as [|p|p].
  - by exists "0"%char, EmptyString.
  - change (pretty (Z.pos p)) with (pretty (N.pos p)).
    unfold pretty, pretty_N. rewrite decide_False by done.
    destruct (pretty_N_go_head (N.pos p) EmptyString) as (c & r & d & -> & Hc); [lia|].
    exists c, r. split; [done|]. by eapply digit_not_space.
  - change (pretty (Z.neg p)) with ("-" +:+ pretty (N.pos p)).
    rewrite append_cons, append_nil. by eexists _, _.
Qed.

Lemma int_value_ok (z : Z) tail :
  separator_head tail →
  PyStr.lstrip (pretty z +:+ tail) = pretty z +:+ tail
  ∧ Literal.int_lit (pretty z +:+ tail) = Some (z, tail).
Proof.
  intros Htail. split.
  - destruct (pretty_Z_head z) as (c & r & -> & Hc).
    rewrite append_cons. by apply lstrip_head.
  - apply int_lit_pretty. by destruct Htail as [r [-> | ->]].
Qed.

Lemma tval_value_ok (v : tval) tail :
  separator_head tail →
  PyStr.lstrip (Literal.repr_tval v +:+ tail) = Literal.repr_tval v +:+ tail
  ∧ Literal.tval_lit (Literal.repr_tval v +:+ tail) = Some (v, tail).
Proof.
  intros Htail. destruct v as [s|d]; cbn [Literal.repr_tval].
  - split.
    + destruct (repr_str_head s) as (q & body & -> & Hq).
      rewrite append_cons. by apply lstrip_quote.
    + unfold Literal.tval_lit. by rewrite string_lit_repr.
  - pose proof (dict_repr_items (λ z : Z, pretty z) Literal.int_lit int_value_ok d tail)
      as Hd.
    unfold Literal.repr_items in *. rewrite !append_assoc, append_cons, append_nil in *.
    split; [by apply lstrip_head|].
    unfold Literal.tval_lit. cbn [Literal.string_lit].
    change (Ascii.eqb "{" Literal.quote1 || Ascii.eqb "{" Literal.quote2) with false.
    cbv iota. by rewrite Hd.
Qed.

(** The text that [str] writes for a window is read back by
    [ast.literal_eval] as that window, whatever the names of its groups and
    commands and whatever its counts. *)
Lemma window_text_round_trip ts : Literal.literal_eval (Literal.str ts) = Ok ts.
Proof.
  unfold Literal.literal_eval, Literal.str.
  rewrite <- (append_nil_r (Literal.repr_items Literal.repr_tval ts)).
  by rewrite (dict_repr_items Literal.repr_tval Literal.tval_lit tval_value_ok).
Qed.

(** ** Lists of names: [_as_list] *)

Lemma split_length d s : length (PyStr.split d s) = S (count_char d s).
Proof.
  induction s as [|c s IH]; [done|]. cbn [PyStr.split count_char].
  destruct (Ascii.eqb c d).
  - cbn [length]. by rewrite IH.
  - destruct (PyStr.split d s) as [|p ps]; [done|]. exact IH.
Qed.

Lemma split_no_separator d s x :
  x ∈ PyStr.split d s → Literal.has_char d x = false.
Proof.
  revert x. induction s as [|c s IH]; intros x; cbn [PyStr.split].
  - by intros ->%list_elem_of_singleton.
  - destruct (Ascii.eqb c d) eqn:E.
    + intros [->|Hx]%elem_of_cons; [done|by apply IH].
    + destruct (PyStr.split d s) as [|p ps] eqn:Es.
      * intros ->%list_elem_of_singleton. cbn [Literal.has_char].
        by rewrite Ascii.eqb_sym, E.
      * intros [->|Hx]%elem_of_cons.
        -- cbn [Literal.has_char]. rewrite Ascii.eqb_sym, E. apply IH. left.
        -- apply IH. by right.
Qed.

Lemma has_char_lstrip c s :
  Literal.has_char c s = false → Literal.has_char c (PyStr.lstrip s) = false.
Proof.
  induction s as [|a s IH]; [done|]. cbn [PyStr.lstrip].
  destruct (PyStr.is_space a); [|done]. cbn [Literal.has_char].
  intros [_ H]%orb_false_iff. by apply IH.
Qed.

Lemma has_char_rstrip c s :
  Literal.has_char c s = false → Literal.has_char c (PyStr.rstrip s) = false.
Proof.
  induction s as [|a s IH]; [done|]. cbn [PyStr.rstrip Literal.has_char].
  intros [Ha H]%orb_false_iff. destruct (_ && _); [done|].
  cbn [Literal.has_char]. by rewrite Ha, IH.
Qed.

Lemma rstrip_idemp s : PyStr.rstrip (PyStr.rstrip s) = PyStr.rstrip s.
Proof.
  induction s as [|a s IH]; [done|]. cbn [PyStr.rstrip].
  destruct (PyStr.is_space a && PyStr.is_empty (PyStr.rstrip s)) eqn:E; [done|].
  cbn [PyStr.rstrip]. by rewrite IH, E.
Qed.

Lemma lstrip_no_space s :
  PyStr.lstrip s = EmptyString
  ∨ ∃ c r, PyStr.lstrip s = String c r ∧ PyStr.is_space c = false.
Proof.
  induction s as [|a s IH]; [by left|]. cbn [PyStr.lstrip].
  destruct (PyStr.is_space a) eqn:E; [done|]. right. by exists a, s.
Qed.

Lemma strip_idemp s : PyStr.strip (PyStr.strip s) = PyStr.strip s.
Proof.
  unfold PyStr.strip.
  destruct (lstrip_no_space s) as [-> | (c & r & -> & Hc)]; [done|].
  cbn [PyStr.rstrip]. rewrite Hc. cbn [andb PyStr.lstrip]. rewrite Hc.
  cbn [PyStr.rstrip]. by rewrite Hc, rstrip_idemp.
Qed.

(** [_as_list] of a string never gives the empty list: it gives one name
    more than the string has commas (so one empty name for the empty
    string), and every name is stripped and has no comma; anything that is
    not a string raises [AttributeError]. *)
Theorem as_list_shape (v : cfgval) :
  match v with
  | VStr s =>
      ∃ l, _as_list v = Ok l
        ∧ length l = S (count_char "," s)
        ∧ ∀ x, x ∈ l → PyStr.strip x = x ∧ Literal.has_char "," x = false
  | _ => _as_list v = Raise AttributeError
  end.
Proof.
  destruct v as [|s|l|m]; try done.
  eexists. split; [done|]. split.
  - by rewrite length_fmap, split_length.
  - intros x (y & -> & Hy)%list_elem_of_fmap. split; [apply strip_idemp|].
    unfold PyStr.strip. by eapply has_char_rstrip, has_char_lstrip, split_no_separator.
Qed.

(** ** The steps of [sms] *)

Lemma bind_Raise {S A B} (m : M S A) (k : A → M S B) s e s' :
  bind m k s = (Raise e, s') →
  m s = (Raise e, s') ∨ ∃ a s1, m s = (Ok a, s1) ∧ k a s1 = (Raise e, s').
Proof.
  unfold bind. destruct (m s) as [[a|e'] s1]; intros H.
  - right. by exists a, s1.
  - left. by injection H as -> ->.
Qed.

(** What a successful first [sms] has done, step by step: the two lists it
    has looped over and the globals between the loops. *)
Lemma sms_fresh_steps CONFIG cfg g' :
  sms CONFIG fresh_globals = (Ok cfg, g') →
  ∃ commands groups blacklist g1 g2,
    _as_list (default VNone (of_items CONFIG !! "commands")) = Ok commands
    ∧ for_each commands sms_command
        (Globals (<["commands" := VList commands]> (of_items CONFIG)) {[ "all" := ∅ ]} [])
      = (Ok tt, g1)
    ∧ for_each groups sms_group
        (Globals (<["throttled_groups" := VGroups ∅]>
                    (<["groups" := VList groups]> (_SMS_CONFIG g1)))
                 (_WHO_CAN g1) (warned g1))
      = (Ok tt, g2)
    ∧ _as_list (default VNone (_SMS_CONFIG g2 !! "blacklist")) = Ok blacklist
    ∧ g' = Globals (<["blacklist" := VList blacklist]> (_SMS_CONFIG g2))
                   (_WHO_CAN g2) (warned g2)
    ∧ cfg = _SMS_CONFIG g'
    ∧ built commands groups blacklist g'.
Proof.
  intros Hsms. pose proof Hsms as H. unfold sms in H.
  apply bind_Ok in H as (g0 & s0 & [= <- <-] & H).
  rewrite decide_True in H by apply map_size_empty.
  apply bind_Ok in H as ([] & g1 & H & [= <- <-]).
  apply bind_Ok in H as ([] & s1 & [= <-] & H).
  apply bind_Ok in H as ([] & s2 & [= <-] & H).
  apply bind_Ok in H as (v & s3 & Hv & H). apply cfg_get_Ok in Hv as [-> Hv].
  apply bind_Ok in H as (commands & s4 & Hc & H). apply lift_Ok in Hc as [-> Hc].
  apply bind_Ok in H as ([] & s5 & [= <-] & H).
  apply bind_Ok in H as ([] & s6 & Hloop1 & H).
  apply bind_Ok in H as (v' & s7 & Hv' & H). apply cfg_get_Ok in Hv' as [-> _].
  apply bind_Ok in H as (groups & s8 & Hg & H). apply lift_Ok in Hg as [-> _].
  apply bind_Ok in H as ([] & s9 & [= <-] & H).
  apply bind_Ok in H as ([] & s10 & [= <-] & H).
  apply bind_Ok in H as ([] & s11 & Hloop2 & H).
  apply bind_Ok in H as (v'' & s12 & Hv'' & H). apply cfg_get_Ok in Hv'' as [-> Hv''].
  apply bind_Ok in H as (blacklist & s13 & Hbl & H). apply lift_Ok in Hbl as [-> Hbl].
  injection H as <-. simpl in *.
  exists commands, groups, blacklist, s6, s11.
  rewrite Hv, Hv''. cbn [default]. do 6 (split; [done|]).
  destruct (sms_fresh _ _ _ Hsms) as (_ & commands' & groups' & blacklist' & Hb).
  simpl in Hb.
  assert (commands' = commands) as ->.
  { pose proof (built_commands _ _ _ _ Hb) as E. simpl in E.
    rewrite lookup_insert_ne in E by done.
    assert (on_cfg (key_is "commands" (VList commands)) s11) as E'.
    { eapply (stable_fixed_sms_groups "commands"); [apply fixed_key_commands| |exact Hloop2].
      unfold on_cfg, key_is. simpl. rewrite !lookup_insert_ne by done.
      eapply stable_fixed_sms_commands; [apply fixed_key_commands| |exact Hloop1].
      unfold on_cfg, key_is. simpl. by rewrite lookup_insert_eq. }
    unfold on_cfg, key_is in E'. rewrite E' in E. by injection E. }
  assert (groups' = groups) as ->.
  { pose proof (built_groups _ _ _ _ Hb) as E. simpl in E.
    rewrite lookup_insert_ne in E by done.
    assert (on_cfg (key_is "groups" (VList groups)) s11) as E'.
    { eapply (stable_fixed_sms_groups "groups"); [apply fixed_key_groups| |exact Hloop2].
      unfold on_cfg, key_is. simpl. rewrite lookup_insert_ne by done.
      by rewrite lookup_insert_eq. }
    unfold on_cfg, key_is in E'. rewrite E' in E. by injection E. }
  assert (blacklist' = blacklist) as ->.
  { pose proof (built_blacklist _ _ _ _ Hb) as E. simpl in E.
    rewrite lookup_insert_eq in E. by injection E. }
  done.
Qed.

(** ** Names that occur twice *)

Lemma listify_list key l g :
  _SMS_CONFIG g !! key = Some (VList l) →
  ∃ g', listify key g = (Raise AttributeError, g').
Proof.
  intros H. unfold listify, bind, get, lift. rewrite H. by eexists.
Qed.

(** A loop whose turn for [x] fails when the key [x +:+ suffix] is a list,
    makes it a list, and keeps such keys lists, has run over names that all
    differ when it returns. *)
Lemma loop_no_repeat (suffix : string) (body : string → M globals unit) :
  (∀ x g l, _SMS_CONFIG g !! (x +:+ suffix) = Some (VList l) →
            ∃ e g', body x g = (Raise e, g')) →
  (∀ x y, stable (on_cfg (key_is_list (x +:+ suffix))) (body y)) →
  (∀ x g g1, body x g = (Ok tt, g1) → key_is_list (x +:+ suffix) (_SMS_CONFIG g1)) →
  ∀ names g g', for_each names body g = (Ok tt, g') → NoDup names.
Proof.
  intros Hfail Hstable Hmake.
  assert (Hraise : ∀ x names g g',
            key_is_list (x +:+ suffix) (_SMS_CONFIG g) → x ∈ names →
            for_each names body g ≠ (Ok tt, g')).
  { intros x names. induction names as [|y names IH]; intros g g' Hx Hin Hrun.
    { by apply elem_of_nil in Hin. }
    cbn [for_each] in Hrun. apply bind_Ok in Hrun as ([] & g1 & Hy & Hrest).
    apply elem_of_cons in Hin as [<-|Hin].
    - destruct Hx as [l Hl]. destruct (Hfail _ _ _ Hl) as (e & g2 & Hr).
      by rewrite Hr in Hy.
    - eapply IH; [|done|exact Hrest]. by eapply (Hstable x y). }
  intros names. induction names as [|x names IH]; intros g g' Hrun.
  { constructor. }
  cbn [for_each] in Hrun. apply bind_Ok in Hrun as ([] & g1 & Hx & Hrest).
  constructor; [|by eapply IH].
  intros Hin. eapply Hraise; [|exact Hin|exact Hrest]. by eapply Hmake.
Qed.

Lemma sms_command_aliases_list cmd g g1 :
  sms_command cmd g = (Ok tt, g1) →
  key_is_list (cmd +:+ "_aliases") (_SMS_CONFIG g1).
Proof.
  unfold sms_command. intros H. apply bind_Ok in H as (l & g2 & Hl & H).
  apply listify_Ok in Hl. injection H as <-. by exists l.
Qed.

Lemma sms_group_users_list group g g1 :
  sms_group group g = (Ok tt, g1) →
  key_is_list (group +:+ "_users") (_SMS_CONFIG g1).
Proof.
  unfold sms_group. intros H1. apply bind_Ok in H1 as (users & g2 & Hl & H1).
  apply listify_Ok in Hl.
  eapply (stable_bind (on_cfg (key_is_list (group +:+ "_users")))); [| | |exact H1].
  - apply stable_cfg_listify. intros ? ? ?. by apply key_is_list_insert.
  - intros commands. apply stable_bind.
    + apply stable_for_each. intros cmd _. apply stable_for_each. intros user _.
      apply stable_cfg_who_can_add.
    + intros _. apply stable_cfg_parse_throttle. intros ? ? ?.
      apply key_is_list_insert_ne; [|done]. apply not_eq_sym. by apply app_ne.
  - by exists users.
Qed.

(** A successful [sms] has read a command list and a group list in which no
    name comes twice: the second turn for a name finds a list where it
    expects the text of the section, and [_as_list] raises. *)
Theorem sms_names_differ CONFIG cfg g' commands groups :
  sms CONFIG fresh_globals = (Ok cfg, g') →
  cfg !! "commands" = Some (VList commands) →
  cfg !! "groups" = Some (VList groups) →
  NoDup commands ∧ NoDup groups.
Proof.
  intros Hsms Hc Hg.
  destruct (sms_fresh_steps _ _ _ Hsms)
    as (commands' & groups' & blacklist & g1 & g2 & _ & H1 & H2 & _ & _ & -> & Hb).
  rewrite (built_commands _ _ _ _ Hb) in Hc. injection Hc as ->.
  rewrite (built_groups _ _ _ _ Hb) in Hg. injection Hg as ->.
  split.
  - eapply (loop_no_repeat "_aliases" sms_command); [| | |exact H1].
    + intros x g l Hl. destruct (listify_list _ _ _ Hl) as [g3 Hr].
      exists AttributeError, g3. unfold sms_command. by rewrite (bind_raise _ _ _ _ _ Hr).
    + intros x y. apply stable_cfg_sms_command. intros ? ? ?.
      by apply key_is_list_insert.
    + apply sms_command_aliases_list.
  - eapply (loop_no_repeat "_users" sms_group); [| | |exact H2].
    + intros x g l Hl. destruct (listify_list _ _ _ Hl) as [g3 Hr].
      exists AttributeError, g3. unfold sms_group. by rewrite (bind_raise _ _ _ _ _ Hr).
    + intros x y. apply stable_users_sms_group.
    + apply sms_group_users_list.
Qed.

(** ** Who can run a command *)

Lemma raw_or_built_insert_list CONFIG key l c :
  raw_or_built CONFIG c → raw_or_built CONFIG (<[key := VList l]> c).
Proof.
  intros H k. destruct (decide (key = k)) as [->|Hne].
  - right. left. exists l. by rewrite lookup_insert_eq.
  - rewrite lookup_insert_ne by done. apply H.
Qed.

Lemma raw_or_built_insert_groups CONFIG key m c :
  raw_or_built CONFIG c → raw_or_built CONFIG (<[key := VGroups m]> c).
Proof.
  intros H k. destruct (decide (key = k)) as [->|Hne].
  - right. right. exists m. by rewrite lookup_insert_eq.
  - rewrite lookup_insert_ne by done. apply H.
Qed.

Lemma raw_or_built_items CONFIG : raw_or_built CONFIG (of_items CONFIG).
Proof. intros key. by left. Qed.

(** Where every value is raw or built, [listify] reads the text of the
    section. *)
Lemma listify_raw CONFIG key g l g1 :
  raw_or_built CONFIG (_SMS_CONFIG g) →
  listify key g = (Ok l, g1) →
  l = raw_list CONFIG key
  ∧ g1 = Globals (<[key := VList l]> (_SMS_CONFIG g)) (_WHO_CAN g) (warned g).
Proof.
  intros Hraw. unfold listify, bind, get, lift, cfg_set, modify, ret, raw_list.
  destruct (Hraw key) as [E | [[l' E] | [m E]]]; rewrite E.
  - unfold of_items. rewrite lookup_fmap.
    destruct (CONFIG !! key) as [[s|]|]; cbn [fmap option_fmap option_map _as_list];
      by intros [= <- <-].
  - by cbn [_as_list].
  - by cbn [_as_list].
Qed.

Lemma stable_who_can_listify W key : stable (who_can_is W) (listify key).
Proof.
  unfold listify. apply stable_bind; [apply stable_get|]. intros g.
  destruct (_SMS_CONFIG g !! key).
  - apply stable_bind; [apply stable_lift|]. intros l.
    apply stable_bind; [by apply stable_modify|]. intros _. apply stable_ret.
  - apply stable_bind; [by apply stable_modify|]. intros _. apply stable_ret.
Qed.

Lemma stable_who_can_parse_definitions W group defs acc :
  stable (who_can_is W) (parse_definitions group defs acc).
Proof.
  revert acc. induction defs as [|d defs IH]; intros acc; simpl.
  - apply stable_ret.
  - destruct (PyStr.split ":" d) as [|a [|b [|c l]]];
      try (apply stable_bind; [by apply stable_modify|]; intros _; apply IH).
    apply stable_bind; [apply stable_lift|]. intros z. apply IH.
Qed.

Lemma stable_who_can_parse_throttle W group :
  stable (who_can_is W) (parse_throttle group).
Proof.
  unfold parse_throttle.
  apply stable_bind; [apply stable_get|]. intros g.
  destruct (_SMS_CONFIG g !! (group +:+ "_throttle")).
  - apply stable_bind; [apply stable_lift|]. intros defs.
    apply stable_bind; [by apply stable_who_can_parse_definitions|]. intros tg.
    apply stable_bind; [apply stable_get|]. intros g1.
    destruct (_SMS_CONFIG g1 !! "throttled_groups") as [[]|];
      try apply stable_raise; try (by apply stable_modify).
  - by apply stable_modify.
Qed.

(** [for user in users: _WHO_CAN[cmd].add(user)] *)
Lemma add_users cmd users : ∀ g g',
  for_each users (λ user, who_can_add cmd user) g = (Ok tt, g') →
  _SMS_CONFIG g' = _SMS_CONFIG g
  ∧ (users ≠ [] → is_Some (_WHO_CAN g !! cmd))
  ∧ ∀ c, _WHO_CAN g' !! c =
      (λ s, (if decide (c = cmd) then list_to_set users else ∅) ∪ s) <$> _WHO_CAN g !! c.
Proof.
  induction users as [|u users IH]; intros g g' H.
  - injection H as <-. split; [done|]. split; [done|]. intros c.
    destruct (_WHO_CAN g !! c) as [s|]; [|done]. cbn. f_equal.
    case_decide; set_solver.
  - cbn [for_each] in H. apply bind_Ok in H as ([] & g1 & Hu & H).
    apply IH in H as (Hcfg & _ & Hwho).
    unfold who_can_add, bind, get, lift, getitem, set_who_can, modify in Hu.
    destruct (_WHO_CAN g !! cmd) as [s0|] eqn:E; [|done]. injection Hu as <-.
    split; [done|]. split; [by eauto|]. intros c. rewrite Hwho. cbn [_WHO_CAN].
    destruct (decide (c = cmd)) as [->|Hne].
    + rewrite lookup_insert_eq, E. cbn. f_equal. set_solver.
    + rewrite lookup_insert_ne by done.
      destruct (_WHO_CAN g !! c) as [s|]; [|done]. cbn. f_equal.
Qed.

(** [for cmd in commands: for user in users: _WHO_CAN[cmd].add(user)] *)
Lemma grant_commands users commands : ∀ g g',
  for_each commands (λ cmd, for_each users (λ user, who_can_add cmd user)) g
  = (Ok tt, g') →
  _SMS_CONFIG g' = _SMS_CONFIG g
  ∧ (users ≠ [] → ∀ cmd, cmd ∈ commands → is_Some (_WHO_CAN g !! cmd))
  ∧ ∀ c, _WHO_CAN g' !! c =
      (λ s, (if decide (c ∈ commands) then list_to_set users else ∅) ∪ s)
        <$> _WHO_CAN g !! c.
Proof.
  induction commands as [|cmd commands IH]; intros g g' H.
  - injection H as <-. split; [done|]. split.
    { intros _ cmd Hin. by apply elem_of_nil in Hin. }
    intros c. destruct (_WHO_CAN g !! c) as [s|]; [|done]. cbn. f_equal.
    rewrite decide_False by apply not_elem_of_nil. set_solver.
  - cbn [for_each] in H. apply bind_Ok in H as ([] & g1 & Hu & H).
    apply add_users in Hu as (Hcfg1 & Hdom1 & Hwho1).
    apply IH in H as (Hcfg & Hdom & Hwho).
    split; [congruence|]. split.
    { intros Hne c [->|Hin]%elem_of_cons; [by apply Hdom1|].
      specialize (Hdom Hne c Hin). rewrite Hwho1 in Hdom.
      by apply fmap_is_Some in Hdom. }
    intros c. rewrite Hwho, Hwho1.
    destruct (_WHO_CAN g !! c) as [s|]; [|done]. cbn. f_equal.
    repeat case_decide; set_solver.
Qed.

(** One turn of the loop over the groups, where every value is raw or
    built. *)
Lemma sms_group_grants CONFIG group g g' :
  raw_or_built CONFIG (_SMS_CONFIG g) →
  sms_group group g = (Ok tt, g') →
  raw_or_built CONFIG (_SMS_CONFIG g')
  ∧ (raw_list CONFIG (group +:+ "_users") ≠ [] →
     ∀ cmd, cmd ∈ raw_list CONFIG (group +:+ "_commands") →
            is_Some (_WHO_CAN g !! cmd))
  ∧ ∀ c, _WHO_CAN g' !! c =
      (λ s, (if decide (c ∈ raw_list CONFIG (group +:+ "_commands"))
             then list_to_set (raw_list CONFIG (group +:+ "_users")) else ∅) ∪ s)
        <$> _WHO_CAN g !! c.
Proof.
  intros Hraw H. unfold sms_group in H.
  apply bind_Ok in H as (users & g1 & Hu & H).
  apply (listify_raw CONFIG) in Hu as [-> ->]; [|done].
  apply bind_Ok in H as (commands & g2 & Hc & H).
  apply (listify_raw CONFIG) in Hc as [-> ->];
    [|by apply raw_or_built_insert_list].
  apply bind_Ok in H as ([] & g3 & Hloop & H).
  apply grant_commands in Hloop as (Hcfg & Hdom & Hwho). cbn [_SMS_CONFIG _WHO_CAN] in *.
  assert (Hraw3 : raw_or_built CONFIG (_SMS_CONFIG g3)).
  { rewrite Hcfg. by do 2 apply raw_or_built_insert_list. }
  split.
  { eapply (stable_cfg_parse_throttle (raw_or_built CONFIG)); [|exact Hraw3|exact H].
    intros ? ? ?. by apply raw_or_built_insert_groups. }
  split; [done|].
  intros c. rewrite <- Hwho.
  pose proof (stable_who_can_parse_throttle (_WHO_CAN g3) group g3 _ _ eq_refl H) as E.
  unfold who_can_is in E. by rewrite E.
Qed.

Lemma sms_groups_grant CONFIG groups : ∀ processed g g',
  raw_or_built CONFIG (_SMS_CONFIG g) →
  who_can_grants CONFIG processed g →
  for_each groups sms_group g = (Ok tt, g') →
  who_can_grants CONFIG (processed ++ groups) g'
  ∧ dom (_WHO_CAN g') = dom (_WHO_CAN g)
  ∧ ∀ group, group ∈ groups →
      raw_list CONFIG (group +:+ "_users") ≠ [] →
      ∀ cmd, cmd ∈ raw_list CONFIG (group +:+ "_commands") →
             cmd ∈ dom (_WHO_CAN g).
Proof.
  induction groups as [|group groups IH]; intros processed g g' Hraw Hgr H.
  - injection H as <-. rewrite app_nil_r. split; [done|]. split; [done|].
    intros group Hin. by apply elem_of_nil in Hin.
  - cbn [for_each] in H. apply bind_Ok in H as ([] & g1 & H1 & H).
    destruct (sms_group_grants CONFIG _ _ _ Hraw H1) as (Hraw1 & Hdom1 & Hwho1).
    assert (Hd1 : dom (_WHO_CAN g1) = dom (_WHO_CAN g)).
    { apply set_eq. intros c. rewrite !elem_of_dom, Hwho1. by rewrite fmap_is_Some. }
    assert (Hgr1 : who_can_grants CONFIG (processed ++ [group]) g1).
    { intros c users Hc user. rewrite Hwho1 in Hc.
      destruct (_WHO_CAN g !! c) as [s|] eqn:Es; [|done]. injection Hc as <-.
      specialize (Hgr c s Es user). rewrite elem_of_union, Hgr.
      unfold granted. split.
      - intros [Hu | (x & Hx & Hg)].
        + case_decide as Hc; [|by apply elem_of_empty in Hu].
          apply elem_of_list_to_set in Hu. exists group. split; [|done].
          apply elem_of_app. right. left.
        + exists x. split; [|done]. apply elem_of_app. by left.
      - intros (x & [Hx | ->%list_elem_of_singleton]%elem_of_app & Hcmd & Huser).
        + right. by exists x.
        + left. rewrite decide_True by done. by apply elem_of_list_to_set. }
    destruct (IH _ _ _ Hraw1 Hgr1 H) as (Hfinal & Hd & Hknown).
    rewrite <- app_assoc in Hfinal. split; [done|]. split; [congruence|].
    intros x [->|Hin]%elem_of_cons Hne cmd Hcmd.
    + apply elem_of_dom. by apply Hdom1.
    + rewrite <- Hd1. by eapply Hknown.
Qed.

Lemma stable_who_can_empty_sms_command cmd : stable who_can_empty (sms_command cmd).
Proof.
  unfold sms_command. apply stable_bind.
  - intros g r g' He H c users.
    pose proof (stable_who_can_listify (_WHO_CAN g) _ g r g' eq_refl H) as E.
    unfold who_can_is in E. rewrite E. apply He.
  - intros _. apply stable_modify. intros g He c users. cbn [_WHO_CAN].
    destruct (decide (cmd = c)) as [->|Hne].
    + rewrite lookup_insert_eq. by intros [= <-].
    + rewrite lookup_insert_ne by done. apply He.
Qed.

(** What a successful first [sms] leaves in [_WHO_CAN]: the set of a command
    holds exactly the users of the groups that list the command, and every
    command that a group with users lists is ['all'] or one of the
    configured commands. *)
Lemma sms_who_can CONFIG cfg g' commands groups :
  sms CONFIG fresh_globals = (Ok cfg, g') →
  cfg !! "commands" = Some (VList commands) →
  cfg !! "groups" = Some (VList groups) →
  who_can_grants CONFIG groups g'
  ∧ cfg !! "blacklist" = Some (VList (raw_list CONFIG "blacklist"))
  ∧ ∀ group, group ∈ groups →
      raw_list CONFIG (group +:+ "_users") ≠ [] →
      ∀ cmd, cmd ∈ raw_list CONFIG (group +:+ "_commands") →
             cmd = "all" ∨ cmd ∈ commands.
Proof.
  intros Hsms Hc Hg.
  destruct (sms_fresh_steps _ _ _ Hsms)
    as (commands' & groups' & blacklist & g1 & g2 & _ & H1 & H2 & Hbl & -> & -> & Hb).
  rewrite (built_commands _ _ _ _ Hb) in Hc. injection Hc as ->.
  rewrite (built_groups _ _ _ _ Hb) in Hg. injection Hg as ->.
  assert (Hraw1 : raw_or_built CONFIG (_SMS_CONFIG g1)).
  { eapply (stable_for_each (on_cfg (raw_or_built CONFIG))); [| |exact H1].
    - intros c _. apply stable_cfg_sms_command. intros ? ? ?.
      by apply raw_or_built_insert_list.
    - apply raw_or_built_insert_list, raw_or_built_items. }
  assert (He1 : who_can_empty g1).
  { eapply (stable_for_each who_can_empty); [| |exact H1].
    - intros c _. apply stable_who_can_empty_sms_command.
    - intros c users. cbn [_WHO_CAN].
      destruct (decide (c = "all")) as [->|Hne].
      + rewrite lookup_singleton_eq. by intros [= <-].
      + by rewrite lookup_singleton_ne. }
  set (G2 := Globals (<["throttled_groups" := VGroups ∅]>
                        (<["groups" := VList groups]> (_SMS_CONFIG g1)))
                     (_WHO_CAN g1) (warned g1)) in *.
  assert (Hraw2 : raw_or_built CONFIG (_SMS_CONFIG G2)).
  { by apply raw_or_built_insert_groups, raw_or_built_insert_list. }
  assert (Hgr2 : who_can_grants CONFIG [] G2).
  { intros c users Hcu user. cbn [_WHO_CAN G2] in Hcu. rewrite (He1 c users Hcu).
    split; [by intros ?%elem_of_empty|]. by intros (x & ?%elem_of_nil & _). }
  destruct (sms_groups_grant CONFIG groups [] G2 _ Hraw2 Hgr2 H2) as (Hgr & Hd & Hknown).
  split; [exact Hgr|].
  assert (Hraw3 : raw_or_built CONFIG (_SMS_CONFIG g2)).
  { eapply (stable_for_each (on_cfg (raw_or_built CONFIG))); [| |exact H2]; [|exact Hraw2].
    intros c _. apply stable_cfg_sms_group; intros ? ? ?;
      by (apply raw_or_built_insert_list || apply raw_or_built_insert_groups). }
  split.
  { cbn [_SMS_CONFIG]. rewrite lookup_insert_eq. do 2 f_equal.
    unfold raw_list. destruct (Hraw3 "blacklist") as [E | [[l E] | [m E]]];
      rewrite E in Hbl; [|done|done].
    unfold of_items in Hbl. rewrite lookup_fmap in Hbl.
    destruct (CONFIG !! "blacklist") as [[s|]|]; cbn in Hbl; [|done|done].
    by injection Hbl. }
  intros group Hin Hne cmd Hcmd.
  specialize (Hknown group Hin Hne cmd Hcmd). cbn [_WHO_CAN G2] in Hknown.
  rewrite (dom_sms_commands _ _ _ H1) in Hknown. cbn [_WHO_CAN] in Hknown.
  rewrite dom_singleton_L in Hknown.
  apply elem_of_union in Hknown as [->%elem_of_singleton | Hk%elem_of_list_to_set];
    by eauto.
Qed.

(** ** The permission table, from the section *)

(** After a successful first [sms], [_WHO_CAN[cmd]] holds exactly the users
    of the groups that list [cmd] among their commands. *)
Theorem who_can_is_granted CONFIG cfg g' groups cmd users user :
  sms CONFIG fresh_globals = (Ok cfg, g') →
  cfg !! "groups" = Some (VList groups) →
  _WHO_CAN g' !! cmd = Some users →
  user ∈ users ↔ granted CONFIG groups cmd user.
Proof.
  intros Hsms Hg Hu.
  destruct (sms_fresh _ _ _ Hsms) as (-> & commands & groups' & blacklist & Hb).
  destruct (sms_who_can _ _ _ commands groups Hsms (built_commands _ _ _ _ Hb) Hg)
    as (Hgr & _).
  by apply Hgr.
Qed.

(** A successful first [sms] has met no group with users that lists a
    command other than ['all'] and the configured commands: [_WHO_CAN] has
    no set for such a command, and adding a user to it raises [KeyError]. *)
Theorem granted_commands_configured CONFIG cfg g' commands groups group cmd :
  sms CONFIG fresh_globals = (Ok cfg, g') →
  cfg !! "commands" = Some (VList commands) →
  cfg !! "groups" = Some (VList groups) →
  group ∈ groups →
  raw_list CONFIG (group +:+ "_users") ≠ [] →
  cmd ∈ raw_list CONFIG (group +:+ "_commands") →
  cmd = "all" ∨ cmd ∈ commands.
Proof.
  intros Hsms Hc Hg Hin Hne Hcmd.
  destruct (sms_who_can _ _ _ commands groups Hsms Hc Hg) as (_ & _ & Hknown).
  by eapply Hknown.
Qed.

(** [has_permission], read off the section: for a configured command, the
    first call returns [True] exactly when the user is not in the blacklist
    of the section and some group grants the user ['all'], or grants the
    command to the user, or grants the command to the user name ['all']. *)
Theorem has_permission_from_section CONFIG cfg g' commands groups user cmd :
  sms CONFIG fresh_globals = (Ok cfg, g') →
  cfg !! "commands" = Some (VList commands) →
  cfg !! "groups" = Some (VList groups) →
  cmd ∈ commands →
  ∃ b, has_permission CONFIG user cmd fresh_globals = (Ok b, g')
    ∧ (b = true ↔
       (user ∉ raw_list CONFIG "blacklist")
       ∧ (granted CONFIG groups "all" user
          ∨ granted CONFIG groups cmd "all"
          ∨ granted CONFIG groups cmd user)).
Proof.
  intros Hsms Hc Hg Hin.
  destruct (sms_who_can _ _ _ commands groups Hsms Hc Hg) as (Hgr & Hbl & _).
  destruct (sms_fresh _ _ _ Hsms) as (_ & commands' & groups' & blacklist & Hb).
  pose proof (built_commands _ _ _ _ Hb) as Hc'.
  destruct (sms_fresh _ _ _ Hsms) as (Hcfg & _). rewrite <- Hcfg, Hc in Hc'.
  injection Hc' as <-.
  assert (Hall : is_Some (_WHO_CAN g' !! "all")).
  { apply elem_of_dom. rewrite (built_who_can _ _ _ _ Hb). set_solver. }
  assert (Hcmd : is_Some (_WHO_CAN g' !! cmd)).
  { apply elem_of_dom. rewrite (built_who_can _ _ _ _ Hb). set_solver. }
  destruct Hall as [all_users Hall], Hcmd as [cmd_users Hcmd].
  rewrite (has_permission_eval _ _ _ _ _ _ _ Hsms Hbl), Hall, Hcmd.
  pose proof (Hgr _ _ Hall user) as Ha.
  pose proof (Hgr _ _ Hcmd "all") as Hca.
  pose proof (Hgr _ _ Hcmd user) as Hcu.
  repeat case_bool_decide; eexists; (split; [done|]); cbn; split; try done;
    naive_solver.
Qed.

(** ** A first [sms] that raises *)

Lemma raise_keeps_bind {S A B} (P : S → Prop) (m : M S A) (k : A → M S B) :
  stable P m → (∀ a, raise_keeps P (k a)) → raise_keeps P (bind m k).
Proof.
  intros Hm Hk s e s' HP H. apply bind_Raise in H as [H | (a & s1 & H1 & H2)].
  - by eapply Hm.
  - eapply Hk; [|exact H2]. by eapply Hm.
Qed.

Lemma raise_keeps_modify {S} (P : S → Prop) (f : S → S) : raise_keeps P (modify f).
Proof. by intros s e s' _ H. Qed.

Lemma stable_cfg_get (P : globals → Prop) key : stable P (cfg_get key).
Proof.
  intros g r g' HP. unfold cfg_get, bind, get, lift, getitem.
  destruct (_SMS_CONFIG g !! key); by intros [= _ <-].
Qed.

Lemma fixed_key_blacklist : fixed_key "blacklist".
Proof. by vm_compute. Qed.

(** The globals that a raising first [sms] leaves: the section has been
    copied and the blacklist is still the text of the section. *)
Lemma sms_raise_blacklist CONFIG e g' v :
  sms CONFIG fresh_globals = (Raise e, g') →
  of_items CONFIG !! "blacklist" = Some v →
  _SMS_CONFIG g' !! "blacklist" = Some v.
Proof.
  intros H Hv. unfold sms in H.
  apply bind_Raise in H as [H | (g0 & s0 & [= <- <-] & H)]; [done|].
  rewrite decide_True in H by apply map_size_empty.
  apply bind_Raise in H as [H | (? & ? & _ & H)]; [|done].
  apply bind_Raise in H as [H | ([] & s1 & [= <-] & H)]; [done|].
  apply bind_Raise in H as [H | ([] & s2 & [= <-] & H)]; [done|].
  revert H. apply (raise_keeps_bind (on_cfg (key_is "blacklist" v))); [| |exact Hv].
  { apply stable_cfg_get. }
  intros x. apply raise_keeps_bind; [apply stable_lift|]. intros commands.
  apply raise_keeps_bind.
  { apply stable_cfg_set. intros c. by apply key_is_insert. }
  intros _. apply raise_keeps_bind.
  { apply stable_fixed_sms_commands, fixed_key_blacklist. }
  intros _. apply raise_keeps_bind; [apply stable_cfg_get|].
  intros y. apply raise_keeps_bind; [apply stable_lift|]. intros groups.
  apply raise_keeps_bind.
  { apply stable_cfg_set. intros c. by apply key_is_insert. }
  intros _. apply raise_keeps_bind.
  { apply stable_cfg_set. intros c. by apply key_is_insert. }
  intros _. apply raise_keeps_bind.
  { apply stable_fixed_sms_groups, fixed_key_blacklist. }
  intros _. apply raise_keeps_bind; [apply stable_cfg_get|].
  intros z. apply raise_keeps_bind; [apply stable_lift|]. intros blacklist.
  apply raise_keeps_modify.
Qed.

(** When the first [sms] raises on a section that has a blacklist, the
    globals keep the partly converted section: every later [sms] returns it
    without raising, with the text of the blacklist in place of a list, and
    [has_permission] refuses every name that occurs inside that text. *)
Theorem failed_sms_is_kept CONFIG CONFIG' e g' s :
  sms CONFIG fresh_globals = (Raise e, g') →
  CONFIG !! "blacklist" = Some (Some s) →
  sms CONFIG' g' = (Ok (_SMS_CONFIG g'), g')
  ∧ _SMS_CONFIG g' !! "blacklist" = Some (VStr s)
  ∧ ∀ user cmd, PyStr.contains user s = true →
      has_permission CONFIG' user cmd g' = (Ok false, g').
Proof.
  intros H Hs.
  assert (Hbl : _SMS_CONFIG g' !! "blacklist" = Some (VStr s)).
  { eapply sms_raise_blacklist; [exact H|].
    unfold of_items. by rewrite lookup_fmap, Hs. }
  assert (Hmemo : sms CONFIG' g' = (Ok (_SMS_CONFIG g'), g')).
  { apply sms_memo. intros Hsz. apply map_size_empty_inv in Hsz.
    by rewrite Hsz, lookup_empty in Hbl. }
  split; [done|]. split; [done|].
  intros user cmd Hin. unfold has_permission.
  rewrite (bind_eq _ _ _ _ _ Hmemo).
  unfold bind at 1. unfold lift at 1. unfold getitem. rewrite Hbl.
  unfold bind at 1. unfold lift at 1. simpl py_in. cbv iota beta.
  by rewrite Hin.
Qed.

(** Once the first [sms] has returned, the configuration is not read
    again: a later [sms] returns the same dict and changes nothing,
    whatever the section then holds, and [has_permission] answers as the
    call that built the table. *)
Theorem sms_built_once CONFIG CONFIG' cfg g' :
  sms CONFIG fresh_globals = (Ok cfg, g') →
  sms CONFIG' g' = (Ok cfg, g')
  ∧ ∀ user cmd,
      has_permission CONFIG' user cmd g' = has_permission CONFIG user cmd fresh_globals.
Proof.
  intros Hsms.
  destruct (sms_fresh _ _ _ Hsms) as (-> & commands & groups & blacklist & Hb).
  assert (Hmemo : sms CONFIG' g' = (Ok (_SMS_CONFIG g'), g')).
  { eapply sms_memo, built_nonempty, Hb. }
  split; [done|]. intros user cmd.
  pose proof (built_blacklist _ _ _ _ Hb) as Hbl.
  by rewrite (has_permission_eval _ _ _ _ _ _ _ Hsms Hbl),
             (has_permission_eval _ _ _ _ _ _ _ Hmemo Hbl).
Qed.

(** ** Checks in a running window *)

Lemma holds_window_after_load ts options w :
  state_file w = FileOk options →
  (options ∪ STATE w) !! "throttle" = Some (Literal.str ts) →
  disk_full w = false →
  holds_window ts (after_load options w).
Proof.
  intros Hf Hl Hd. exists options. cbn. split; [done|]. split; [|done].
  by rewrite (assoc_L (∪)), (idemp_L (∪)).
Qed.

Lemma holds_window_after_update ts w :
  disk_full w = false → holds_window ts (after_update "throttle" (Literal.str ts) w).
Proof.
  intros Hd. eexists. cbn. split; [done|]. split; [|done].
  by rewrite (idemp_L (∪)), lookup_insert_eq.
Qed.

(** What a check reads in a world that holds a window which is running. *)
Lemma load_window_running cfg now w ts limit seconds t0 stop :
  holds_window ts w →
  cfg !! "throttle_time_limit_seconds" = Some limit →
  int_of_cfgval limit = Ok seconds →
  ts !! START_KEY = Some (TStr (DateTime.str t0)) →
  DateTime.strptime (DateTime.str t0) = Ok t0 →
  DateTime.add_seconds t0 seconds = Ok stop →
  (t0 < now ≤ stop)%Z →
  ∃ w1, load_window cfg now w = (Ok ts, w1) ∧ holds_window ts w1.
Proof.
  intros (options & Hf & Hl & Hd) Hlim Hsec Hstart Hparse Hstop Hnow.
  exists (after_load options w). split; [|by apply holds_window_after_load].
  rewrite (load_window_eval cfg now w options ts limit seconds t0 stop); try done.
  - replace (now =? t0)%Z with false by lia.
    by replace (stop <? now)%Z with false by lia.
  - rewrite Hl. cbn [default]. apply window_text_round_trip.
  - unfold window_start. by rewrite Hstart.
Qed.

Lemma has_counters_insert ts group k d :
  has_counters ts group → has_counters (<[k := TDict d]> ts) group.
Proof.
  intros H s. destruct (decide (k = group)) as [->|Hne].
  - by rewrite lookup_insert_eq.
  - rewrite lookup_insert_ne by done. apply H.
Qed.

Lemma counters_insert ts group d : counters (<[group := TDict d]> ts) group = d.
Proof. unfold counters. by rewrite lookup_insert_eq. Qed.

Lemma has_counters_start ts group v :
  has_counters ts group → ts !! START_KEY = Some (TStr v) → group ≠ START_KEY.
Proof. intros H Hs ->. by apply (H v). Qed.

(** One check in a running window: the flag, and the window it leaves. *)
Lemma check_running cfg now cmd user w ts limit seconds t0 stop sel group :
  holds_window ts w →
  cfg !! "throttle_time_limit_seconds" = Some limit →
  int_of_cfgval limit = Ok seconds →
  ts !! START_KEY = Some (TStr (DateTime.str t0)) →
  DateTime.strptime (DateTime.str t0) = Ok t0 →
  DateTime.add_seconds t0 seconds = Ok stop →
  (t0 < now ≤ stop)%Z →
  select_group cfg user cmd = Ok sel →
  throttled_group sel = Some group →
  group ≠ EmptyString →
  has_counters ts group →
  all_throttle_limit sel ≠ (-1)%Z ∨ cmd_throttle_limit sel ≠ (-1)%Z →
  let count := count_of (counters ts group) (deciding_counter sel cmd) in
  ∃ ts' w',
    is_throttle_exceeded cfg now cmd user w
    = (Ok (if (count <? deciding_limit sel)%Z then PyFalse else flag_at_limit sel), w')
    ∧ holds_window ts' w'
    ∧ ts' !! START_KEY = Some (TStr (DateTime.str t0))
    ∧ has_counters ts' group
    ∧ count_of (counters ts' group) (deciding_counter sel cmd)
      = if (count <? deciding_limit sel)%Z then (count + 1)%Z else count.
Proof.
  intros Hw Hlim Hsec Hstart Hparse Hstop Hnow Hsel Hg Hne Hc Hl.
  destruct (load_window_running _ _ _ _ _ _ _ _ Hw Hlim Hsec Hstart Hparse Hstop Hnow)
    as (w1 & Hload & Hw1).
  pose proof Hw1 as (options1 & _ & _ & Hd1).
  pose proof (has_counters_start _ _ _ Hc Hstart) as Hgs.
  rewrite is_throttle_exceeded_phases, (bind_eq _ _ _ _ _ Hload).
  unfold evaluate_limits, bind at 1, lift at 1. rewrite Hsel.
  rewrite (apply_limits_eval _ _ _ _ _ Hg Hne Hc Hd1). cbv zeta.
  unfold deciding_counter, deciding_limit, flag_at_limit.
  set (d := counters ts group).
  destruct (all_throttle_limit sel =? -1)%Z eqn:Eal; cbn [negb].
  - assert (Hcl : (cmd_throttle_limit sel =? -1)%Z = false) by (destruct Hl; lia).
    rewrite Hcl. cbn [negb andb].
    destruct (count_of d cmd <? cmd_throttle_limit sel)%Z.
    + exists (bump group cmd ts), (after_update "throttle" (Literal.str (bump group cmd ts)) w1).
      split; [done|]. split; [by apply holds_window_after_update|].
      split; [unfold bump; by rewrite lookup_insert_ne|].
      split; [by apply has_counters_insert|].
      rewrite counters_bump. unfold count_of at 1. by rewrite lookup_insert_eq.
    + exists ts, (after_update "throttle" (Literal.str ts) w1).
      split; [done|]. split; [by apply holds_window_after_update|]. done.
  - destruct (count_of d "all" <? all_throttle_limit sel)%Z.
    + destruct (negb (cmd_throttle_limit sel =? -1)
                && (count_of d cmd <? cmd_throttle_limit sel))%Z eqn:Ecl.
      * eexists _, _. split; [done|].
        split; [by apply holds_window_after_update|].
        split; [by rewrite lookup_insert_ne|].
        split; [by apply has_counters_insert|].
        rewrite counters_insert. unfold count_of at 1.
        destruct (decide (cmd = "all")) as [->|Hcmd].
        -- by rewrite lookup_insert_eq.
        -- by rewrite lookup_insert_ne, lookup_insert_eq.
      * exists (bump group "all" ts), (after_update "throttle" (Literal.str (bump group "all" ts)) w1).
        split; [done|]. split; [by apply holds_window_after_update|].
        split; [unfold bump; by rewrite lookup_insert_ne|].
        split; [by apply has_counters_insert|].
        rewrite counters_bump. unfold count_of at 1. by rewrite lookup_insert_eq.
    + exists ts, w1. done.
Qed.

(** In a running window the checks of a user for a command return [False]
    until the deciding counter has reached its limit, and the flag that
    refuses the command from then on: a user whose counter stands at
    [count] gets [limit - count] more commands, however fast they come. *)
Theorem checks_until_limit cfg cmd user nows limit seconds t0 stop sel group :
  cfg !! "throttle_time_limit_seconds" = Some limit →
  int_of_cfgval limit = Ok seconds →
  DateTime.strptime (DateTime.str t0) = Ok t0 →
  DateTime.add_seconds t0 seconds = Ok stop →
  Forall (λ now, t0 < now ≤ stop)%Z nows →
  select_group cfg user cmd = Ok sel →
  throttled_group sel = Some group →
  group ≠ EmptyString →
  all_throttle_limit sel ≠ (-1)%Z ∨ cmd_throttle_limit sel ≠ (-1)%Z →
  ∀ ts w,
    holds_window ts w →
    ts !! START_KEY = Some (TStr (DateTime.str t0)) →
    has_counters ts group →
    let count := count_of (counters ts group) (deciding_counter sel cmd) in
    ∃ fs, (successive_checks cfg cmd user nows w).1 = Ok fs
      ∧ length fs = length nows
      ∧ ∀ k f, fs !! k = Some f →
          f = if (count + Z.of_nat k <? deciding_limit sel)%Z
              then PyFalse else flag_at_limit sel.
Proof.
  intros Hlim Hsec Hparse Hstop Hnows Hsel Hg Hne Hl.
  induction Hnows as [|now nows Hnow Hnows IH]; intros ts w Hw Hstart Hc count.
  - exists []. split; [done|]. split; [done|]. intros k f Hk. by rewrite lookup_nil in Hk.
  - destruct (check_running _ _ _ _ _ _ _ _ _ _ _ _ Hw Hlim Hsec Hstart Hparse Hstop Hnow
                Hsel Hg Hne Hc Hl) as (ts' & w' & Hcheck & Hw' & Hstart' & Hc' & Hcount).
    fold count in Hcheck, Hcount.
    destruct (IH ts' w' Hw' Hstart' Hc') as (fs & Hfs & Hlen & Hflags).
    cbn [successive_checks]. rewrite (bind_eq _ _ _ _ _ Hcheck).
    unfold bind at 1.
    destruct (successive_checks cfg cmd user nows w') as [[fs'|e] w''] eqn:E;
      cbn in Hfs; [|done]. injection Hfs as ->.
    eexists. split; [done|]. split; [cbn; by rewrite Hlen|].
    intros [|k] f Hk; cbn in Hk.
    + injection Hk as <-. by rewrite Z.add_0_r.
    + rewrite (Hflags k f Hk), Hcount.
      destruct (count <? deciding_limit sel)%Z eqn:E1.
      * by replace (count + 1 + Z.of_nat k)%Z with (count + Z.of_nat (S k))%Z by lia.
      * apply Z.ltb_ge in E1.
        rewrite (proj2 (Z.ltb_ge (count + Z.of_nat k) _)) by lia.
        by rewrite (proj2 (Z.ltb_ge (count + Z.of_nat (S k)) _)) by lia.
Qed.

(** ** The state file, written and read *)

(** The window that a check stores is the window the next check reads:
    [ast.literal_eval] gives back every window from the text that
    [update_state] has written for it. *)
Theorem stored_window_read_back ts w :
  disk_full w = false →
  (update_state "throttle" (Literal.str ts);; load_state;;
   blob ← get_state "throttle" "{}"; lift (Literal.literal_eval blob))%M w
  = (Ok ts,
     after_load (<["throttle" := Literal.str ts]> (STATE w))
       (after_update "throttle" (Literal.str ts) w)).
Proof.
  intros Hd.
  change (bind (update_state "throttle" (Literal.str ts))
            (λ _, bind load_state (λ _, bind (get_state "throttle" "{}")
               (λ blob, lift (Literal.literal_eval blob)))) w
          = (Ok ts,
             after_load (<["throttle" := Literal.str ts]> (STATE w))
               (after_update "throttle" (Literal.str ts) w))).
  rewrite (bind_eq _ _ _ _ _ (update_state_ok _ _ _ Hd)).
  rewrite (bind_eq _ _ _ _ _
             (load_state_ok (after_update "throttle" (Literal.str ts) w)
                (<["throttle" := Literal.str ts]> (STATE w)) eq_refl)).
  unfold get_state, bind, get, ret, lift. cbn [STATE after_load after_update].
  rewrite (idemp_L (∪)), lookup_insert_eq. by rewrite window_text_round_trip.
Qed.

(** [update_state] writes the options of [STATE] and nothing else. Right
    after [load_state] every other option of the file is written back as
    the file had it; without the reload, the file gets the value that
    [STATE] has for it, and an option that has come into the file since
    the last load is gone from it. *)
Theorem update_state_writes_loaded_options w options value key :
  state_file w = FileOk options →
  disk_full w = false →
  key ≠ "throttle" →
  (∃ written,
     state_file ((load_state;; update_state "throttle" value)%M w).2 = FileOk written
     ∧ written !! key = (options ∪ STATE w) !! key
     ∧ (is_Some (options !! key) → written !! key = options !! key))
  ∧ (∃ written, state_file (update_state "throttle" value w).2 = FileOk written
       ∧ written !! key = STATE w !! key).
Proof.
  intros Hf Hd Hne. split.
  - change ((load_state;; update_state "throttle" value)%M w)
      with (bind load_state (λ _, update_state "throttle" value) w).
    rewrite (bind_eq _ _ _ _ _ (load_state_ok _ _ Hf)).
    rewrite update_state_ok by done. eexists. split; [done|].
    cbn [STATE after_load]. rewrite lookup_insert_ne by done. split; [done|].
    intros [v Hv]. by rewrite (lookup_union_Some_l _ _ _ _ Hv).
  - rewrite update_state_ok by done. eexists. split; [done|].
    by rewrite lookup_insert_ne.
Qed.


(** ** What a check does to the counters *)

Lemma count_of_insert (d : gmap string Z) k key :
  (count_of d key
   ≤ count_of (<[k := (count_of d k + 1)%Z]> d) key
   ≤ count_of d key + 1)%Z.
Proof.
  unfold count_of. destruct (decide (k = key)) as [->|Hne].
  - rewrite lookup_insert_eq. cbn. lia.
  - rewrite lookup_insert_ne by done. lia.
Qed.

Lemma bump_frame ts group key :
  (∀ k, k ≠ group → bump group key ts !! k = ts !! k)
  ∧ (∀ key', key' ≠ key →
       counters (bump group key ts) group !! key' = counters ts group !! key')
  ∧ (∀ key', (count_of (counters ts group) key'
              ≤ count_of (counters (bump group key ts) group) key'
              ≤ count_of (counters ts group) key' + 1)%Z).
Proof.
  split; [|split].
  - intros k Hk. unfold bump. by rewrite lookup_insert_ne.
  - intros key' Hne. rewrite counters_bump. by rewrite lookup_insert_ne.
  - intros key'. rewrite counters_bump. apply count_of_insert.
Qed.

(** A check changes nothing but the counters of the throttled group for
    ['all'] and for the command: the other groups and the start of the
    window are written back as they were read, no counter goes down, none
    rises by more than one, and a command that is refused is not counted. *)
Theorem check_counts_own_group cfg now cmd user w ts w1 sel group :
  load_window cfg now w = (Ok ts, w1) →
  select_group cfg user cmd = Ok sel →
  throttled_group sel = Some group →
  group ≠ EmptyString →
  has_counters ts group →
  disk_full w1 = false →
  ∃ f ts',
    (is_throttle_exceeded cfg now cmd user w = (Ok f, w1) ∧ f = PyTrue
     ∨ is_throttle_exceeded cfg now cmd user w
       = (Ok f, after_update "throttle" (Literal.str ts') w1))
    ∧ (f ≠ PyFalse → ts' = ts)
    ∧ (∀ k, k ≠ group → ts' !! k = ts !! k)
    ∧ (∀ key, key ≠ "all" → key ≠ cmd →
         counters ts' group !! key = counters ts group !! key)
    ∧ (∀ key, (count_of (counters ts group) key
               ≤ count_of (counters ts' group) key
               ≤ count_of (counters ts group) key + 1)%Z).
Proof.
  intros Hload Hsel Hg Hne Hc Hd.
  assert (Heq : is_throttle_exceeded cfg now cmd user w = apply_limits cmd sel ts w1).
  { rewrite is_throttle_exceeded_phases, (bind_eq _ _ _ _ _ Hload).
    unfold evaluate_limits, bind, lift. by rewrite Hsel. }
  rewrite Heq, (apply_limits_eval _ _ _ _ _ Hg Hne Hc Hd). clear Heq. cbv zeta.
  set (d := counters ts group).
  assert (Hsame : (∀ k, k ≠ group → ts !! k = ts !! k)
                  ∧ (∀ key, key ≠ "all" → key ≠ cmd → d !! key = d !! key)
                  ∧ (∀ key, (count_of d key ≤ count_of d key ≤ count_of d key + 1)%Z)).
  { split; [done|]. split; [done|]. intros key. lia. }
  destruct (negb (all_throttle_limit sel =? -1)%Z).
  - destruct (count_of d "all" <? all_throttle_limit sel)%Z.
    + destruct (negb (cmd_throttle_limit sel =? -1)
                && (count_of d cmd <? cmd_throttle_limit sel))%Z.
      * eexists PyFalse, _. split; [right; reflexivity|]. split; [done|].
        split; [intros k Hk; by rewrite lookup_insert_ne|].
        rewrite counters_insert. split.
        -- intros key H1 H2. by rewrite !lookup_insert_ne.
        -- intros key. destruct (decide (cmd = key)) as [->|Hk].
           { unfold count_of. rewrite lookup_insert_eq. cbn. lia. }
           pose proof (count_of_insert d "all" key) as Hall.
           unfold count_of in *. by rewrite lookup_insert_ne.
      * exists PyFalse, (bump group "all" ts). split; [by right|]. split; [done|].
        destruct (bump_frame ts group "all") as (H1 & H2 & H3).
        split; [done|]. split; [|done]. intros key Hk _. by apply H2.
    + exists PyTrue, ts. split; [by left|]. done.
  - destruct (negb (cmd_throttle_limit sel =? -1)
              && (count_of d cmd <? cmd_throttle_limit sel))%Z.
    + exists PyFalse, (bump group cmd ts). split; [by right|]. split; [done|].
      destruct (bump_frame ts group cmd) as (H1 & H2 & H3).
      split; [done|]. split; [|done]. intros key _ Hk. by apply H2.
    + exists PyMinus1, ts. split; [by right|]. done.
Qed.

(** ** The device table of [hardware] *)

Section lowered_devices.
Context {V : Type} (lower : string → string).

Lemma lowered_fold (l : list (string * V)) : ∀ (acc : gmap string V) k v,
  foldl (λ acc dv, <[lower dv.1 := dv.2]> acc) acc l !! k = Some v →
  acc !! k = Some v ∨ ∃ name, lower name = k ∧ (name, v) ∈ l.
Proof.
  induction l as [|[n x] l IH]; intros acc k v H; cbn in H; [by left|].
  apply IH in H as [H | (name & Hn & Hin)].
  - destruct (decide (lower n = k)) as [<-|Hne].
    + rewrite lookup_insert_eq in H. injection H as ->.
      right. exists n. split; [done|]. left.
    + rewrite lookup_insert_ne in H by done. by left.
  - right. exists name. split; [done|]. by right.
Qed.

Lemma lowered_fold_some (l : list (string * V)) : ∀ (acc : gmap string V) k,
  is_Some (acc !! k) ∨ (∃ name v, lower name = k ∧ (name, v) ∈ l) →
  is_Some (foldl (λ acc dv, <[lower dv.1 := dv.2]> acc) acc l !! k).
Proof.
  induction l as [|[n x] l IH]; intros acc k H; cbn.
  - destruct H as [H | (name & v & _ & Hin)]; [done|]. by apply elem_of_nil in Hin.
  - apply IH. destruct H as [H | (name & v & Hn & Hin)].
    + left. destruct (decide (lower n = k)) as [<-|Hne].
      * by rewrite lookup_insert_eq.
      * by rewrite lookup_insert_ne.
    + apply elem_of_cons in Hin as [[= -> ->] | Hin].
      * left. rewrite <- Hn. by rewrite lookup_insert_eq.
      * right. by exists name, v.
Qed.

Lemma lowered_from (d : gmap string V) k v :
  lowered lower d !! k = Some v → ∃ name, lower name = k ∧ d !! name = Some v.
Proof.
  intros H. apply lowered_fold in H as [H | (name & Hn & Hin)].
  - by rewrite lookup_empty in H.
  - exists name. split; [done|]. by apply elem_of_map_to_list in Hin.
Qed.

Lemma lowered_has (d : gmap string V) name :
  is_Some (d !! name) → is_Some (lowered lower d !! lower name).
Proof.
  intros [v Hv]. apply lowered_fold_some. right. exists name, v.
  split; [done|]. by apply elem_of_map_to_list.
Qed.

End lowered_devices.

Lemma hardware_memo {V} (json_loads : string → result (loaded V)) lower CONFIG g :
  size (_HARDWARE_CONFIG g) ≠ 0%nat →
  hardware json_loads lower CONFIG g = (Ok (_HARDWARE_CONFIG g), g).
Proof. intros H. unfold hardware, bind, get. by rewrite decide_False. Qed.

(** When the option [devices] holds a JSON object, the first [hardware]
    returns the section with, under ['devices'], a dictionary from the
    lowered names of the members: every entry is a member of the object
    under its lowered name, every member has an entry, and where no two
    names are lowered to the same name every member keeps its value.
    Nothing is logged. *)
Theorem hardware_devices_lowered {V} (json_loads : string → result (loaded V)) lower
    CONFIG text d :
  CONFIG !! "devices" = Some (Some text) →
  json_loads text = Ok (JObject d) →
  ∃ D,
    hardware json_loads lower CONFIG fresh_hw_globals
    = (Ok (<["devices" := HDevices D]> (hw_items CONFIG)),
       HwGlobals (<["devices" := HDevices D]> (hw_items CONFIG)) [])
    ∧ (∀ k v, D !! k = Some v → ∃ name, lower name = k ∧ d !! name = Some v)
    ∧ (∀ name, is_Some (d !! name) → is_Some (D !! lower name))
    ∧ ((∀ n1 n2, is_Some (d !! n1) → is_Some (d !! n2) → lower n1 = lower n2 → n1 = n2) →
       ∀ name, is_Some (d !! name) → D !! lower name = d !! name).
Proof.
  intros Hdev Hjson. exists (lowered lower d).
  assert (Hload : load_devices json_loads (hw_items CONFIG) = Ok (JObject d)).
  { unfold load_devices, getitem, hw_items. by rewrite lookup_fmap, Hdev. }
  split.
  { unfold hardware, bind, get, modify, ret. cbn.
    rewrite decide_True by apply map_size_empty. cbn. by rewrite Hload. }
  split; [apply lowered_from|]. split; [apply lowered_has|].
  intros Hinj name Hname.
  destruct (lowered_has lower d name Hname) as [v Hv]. rewrite Hv.
  destruct (lowered_from lower d _ _ Hv) as (name' & Hl & Hd).
  by rewrite <- (Hinj name' name (mk_is_Some _ _ Hd) Hname Hl).
Qed.

(** When the section has no option [devices], or has it without a value or
    with a text that is not JSON, the first [hardware] does not raise: it
    logs one error and returns the section with an empty dictionary under
    ['devices'], and the calls after it return the same and log no more. *)
Theorem hardware_devices_default {V} (json_loads : string → result (loaded V)) lower
    CONFIG CONFIG' :
  (∀ text, CONFIG !! "devices" = Some (Some text) → ∃ e, json_loads text = Raise e) →
  ∃ error,
    let cfg := <["devices" := HDevices ∅]> (hw_items CONFIG) in
    hardware json_loads lower CONFIG fresh_hw_globals = (Ok cfg, HwGlobals cfg [error])
    ∧ load_devices json_loads (hw_items CONFIG) = Raise error
    ∧ hardware json_loads lower CONFIG' (HwGlobals cfg [error])
      = (Ok cfg, HwGlobals cfg [error]).
Proof.
  intros Hbad.
  assert (Hload : ∃ error, load_devices json_loads (hw_items CONFIG) = Raise error).
  { unfold load_devices, getitem, hw_items. rewrite lookup_fmap.
    destruct (CONFIG !! "devices") as [[text|]|] eqn:E; cbn; [|by eexists..].
    destruct (Hbad text eq_refl) as [e He]. exists e. by rewrite He. }
  destruct Hload as [error Hload]. exists error. cbv zeta.
  split; [|split; [done|]].
  - unfold hardware, bind, get, modify, ret. cbn.
    rewrite decide_True by apply map_size_empty. cbn. by rewrite Hload.
  - rewrite hardware_memo; [done|].
    cbn. intros Hs. apply map_size_empty_inv in Hs.
    by apply insert_non_empty in Hs.
Qed.

(** When the option [devices] holds JSON that is not an object, the first
    [hardware] raises [AttributeError] and leaves the section as it was
    read: every later call returns it without raising, with the text of the
    option where the device table should be. *)
Theorem hardware_not_object_raises {V} (json_loads : string → result (loaded V)) lower
    CONFIG CONFIG' text :
  CONFIG !! "devices" = Some (Some text) →
  json_loads text = Ok JOther →
  hardware json_loads lower CONFIG fresh_hw_globals
  = (Raise AttributeError, HwGlobals (hw_items CONFIG) [])
  ∧ hardware json_loads lower CONFIG' (HwGlobals (hw_items CONFIG) [])
    = (Ok (hw_items CONFIG), HwGlobals (hw_items CONFIG) [])
  ∧ (hw_items CONFIG : gmap string (hwval V)) !! "devices" = Some (HStr text).
Proof.
  intros Hdev Hjson.
  assert (Hitem : (hw_items CONFIG : gmap string (hwval V)) !! "devices" = Some (HStr text)).
  { unfold hw_items. by rewrite lookup_fmap, Hdev. }
  assert (Hload : load_devices json_loads (hw_items CONFIG) = Ok JOther).
  { unfold load_devices, getitem. by rewrite Hitem. }
  split; [|split; [|done]].
  - unfold hardware, bind, get, modify, ret, raise. cbn.
    rewrite decide_True by apply map_size_empty. cbn. by rewrite Hload.
  - rewrite hardware_memo; [done|].
    cbn. intros Hs. apply map_size_empty_inv in Hs.
    by rewrite Hs, lookup_empty in Hitem.
Qed.

(** ** The test pattern *)

Lemma pass_eval (l : list nat) (calls : list call) :
  for_each l (λ light,
    perform TurnOnLights;; perform (TurnOffLight light);; perform (Sleep 400)) calls
  = (Ok tt, calls ++ flat_map (λ light, [TurnOnLights; TurnOffLight light; Sleep 400]) l).
Proof.
  revert calls. induction l as [|x l IH]; intros calls; cbn [for_each flat_map].
  - unfold ret. by rewrite app_nil_r.
  - unfold bind at 1. unfold bind at 1, perform at 1, modify at 1.
    unfold bind at 1, perform at 1, modify at 1. unfold perform at 1, modify at 1.
    rewrite IH. by rewrite <- !(assoc_L (++)).
Qed.

Lemma working_loop_eval (lights : nat) (is_set : nat → bool) : ∀ more pass todo calls,
  (more < todo)%nat →
  (∀ k, (pass ≤ k < pass + more)%nat → is_set k = false) →
  ((S more < todo)%nat → is_set (pass + more)%nat = true) →
  working_loop lights is_set pass todo calls
  = (Ok tt, calls ++ concat (replicate (S more) (pass_calls lights))).
Proof.
  induction more as [|more IH]; intros pass [|todo] calls Hlt Hno Hset; try lia;
    cbn [working_loop]; unfold bind at 1; rewrite pass_eval;
    fold (pass_calls lights); cbn [replicate concat].
  - destruct (is_set pass) eqn:E.
    + by rewrite app_nil_r.
    + destruct todo as [|todo]; [cbn; by rewrite app_nil_r|].
      rewrite Nat.add_0_r in Hset. rewrite Hset in E by lia. done.
  - rewrite Hno by lia.
    rewrite (IH (S pass) todo); [by rewrite <- (assoc_L (++))|lia| |].
    + intros k Hk. apply Hno. lia.
    + intros H. replace (S pass + more)%nat with (pass + S more)%nat by lia.
      apply Hset. lia.
Qed.

Lemma working_loop_total (is_set : nat → bool) : ∀ (todo pass : nat),
  ∃ more, (more < S todo)%nat
    ∧ (∀ k, (pass ≤ k < pass + more)%nat → is_set k = false)
    ∧ ((S more < S todo)%nat → is_set (pass + more)%nat = true).
Proof.
  induction todo as [|todo IH]; intros pass.
  - exists 0%nat. split; [lia|]. split; intros; lia.
  - destruct (is_set pass) eqn:E.
    + exists 0%nat. split; [lia|]. split; [intros; lia|]. intros _.
      by rewrite Nat.add_0_r.
    + destruct (IH (S pass)) as (more & Hlt & Hno & Hset).
      exists (S more). split; [lia|]. split.
      * intros k Hk. destruct (decide (k = pass)) as [->|Hne]; [done|].
        apply Hno. lia.
      * intros H. replace (pass + S more)%nat with (S pass + more)%nat by lia.
        apply Hset. lia.
Qed.

Lemma main_eval _GPIO_PINS is_set more :
  (more < 50)%nat →
  (∀ k, (k < more)%nat → is_set k = false) →
  ((more < 49)%nat → is_set more = true) →
  main _GPIO_PINS is_set [] = (Ok tt, run_calls (length _GPIO_PINS) (S more)).
Proof.
  intros Hlt Hno Hset. unfold main. cbv zeta.
  unfold bind at 1, perform at 1, modify at 1.
  unfold bind at 1, perform at 1, modify at 1.
  unfold bind at 1.
  rewrite (working_loop_eval _ _ more 0 50); [done|lia| |].
  - intros k Hk. apply Hno. lia.
  - intros H. apply Hset. lia.
Qed.

(** An exit request ends [main] at the end of the pass in which it is first
    seen, and only there: when [exit_event] is first set at the end of the
    pass [p], [main] makes the passes 0 to [p] in full, each channel in turn
    switched off for 0.4 seconds, and then switches all lights off. With
    the event set from the start it still makes one whole pass. *)
Theorem main_stops_after_pass _GPIO_PINS is_set p :
  (p < 50)%nat →
  (∀ k, (k < p)%nat → is_set k = false) →
  is_set p = true →
  main _GPIO_PINS is_set [] = (Ok tt, run_calls (length _GPIO_PINS) (S p)).
Proof. intros Hlt Hno Hset. by apply main_eval. Qed.

(** Whatever [exit_event] answers, [main] returns after at least one and at
    most 50 passes, its last call switches all lights off, and it has slept
    for 2 seconds and 0.4 seconds for every channel of every pass. *)
Theorem main_ends_dark _GPIO_PINS is_set :
  ∃ passes,
    (1 ≤ passes ≤ 50)%nat
    ∧ main _GPIO_PINS is_set [] = (Ok tt, run_calls (length _GPIO_PINS) passes)
    ∧ last (main _GPIO_PINS is_set []).2 = Some TurnOffLights
    ∧ sum_list_with (λ c, match c with Sleep ms => ms | _ => 0%nat end)
        (main _GPIO_PINS is_set []).2
      = (2000 + 400 * length _GPIO_PINS * passes)%nat.
Proof.
  destruct (working_loop_total is_set 49 0)
    as (more & Hlt & Hno & Hset).
  exists (S more). split; [lia|].
  assert (Hmain : main _GPIO_PINS is_set []
                  = (Ok tt, run_calls (length _GPIO_PINS) (S more))).
  { apply main_eval; [lia| |].
    - intros k Hk. apply Hno. lia.
    - intros H. apply Hset. lia. }
  split; [done|]. rewrite Hmain. cbn [snd]. unfold run_calls. split.
  - by rewrite !app_assoc, last_snoc.
  - rewrite !sum_list_with_app. cbn [sum_list_with].
    assert (Hpass : ∀ n from,
      sum_list_with (λ c, match c with Sleep ms => ms | _ => 0%nat end)
        (flat_map (λ light, [TurnOnLights; TurnOffLight light; Sleep 400]) (seq from n))
      = (400 * n)%nat).
    { induction n as [|n IH]; intros from; [done|].
      cbn [seq flat_map]. rewrite sum_list_with_app, IH. cbn. lia. }
    assert (Hall : ∀ q,
      sum_list_with (λ c, match c with Sleep ms => ms | _ => 0%nat end)
        (concat (replicate q (pass_calls (length _GPIO_PINS))))
      = (400 * length _GPIO_PINS * q)%nat).
    { induction q as [|q IH]; [cbn; lia|].
      cbn [replicate concat]. rewrite sum_list_with_app, IH.
      unfold pass_calls. rewrite Hpass. lia. }
    rewrite Hall. lia.
Qed.

(** ** The throttle table of a group *)

Lemma split_shape (d : string) :
  (∃ c l, PyStr.split ":" d = [c; l]) ∨ length (PyStr.split ":" d) ≠ 2%nat.
Proof.
  destruct (PyStr.split ":" d) as [|a [|b [|x y]]]; cbn; try (right; lia).
  left. by exists a, b.
Qed.

(** The definitions of a throttle option whose limits are all integers are
    read without an exception, whatever else is wrong with them: a
    definition that is not of the form [command:limit] is passed over with
    a warning, a command gets the limit of its last definition, under the
    name written before the colon, and a command without a definition
    keeps what the table had for it. Only the warnings change. *)
Theorem parse_definitions_last_wins group defs : ∀ acc g,
  (∀ d c l, d ∈ defs → PyStr.split ":" d = [c; l] → ∃ z, PyStr.int l = Ok z) →
  ∃ m g',
    parse_definitions group defs acc g = (Ok m, g')
    ∧ _SMS_CONFIG g' = _SMS_CONFIG g
    ∧ _WHO_CAN g' = _WHO_CAN g
    ∧ length (warned g')
      = (length (warned g)
         + length (filter (λ d, length (PyStr.split ":" d) ≠ 2%nat) defs))%nat
    ∧ (∀ pre d post c l z,
         defs = pre ++ d :: post →
         PyStr.split ":" d = [c; l] →
         PyStr.int l = Ok z →
         (∀ d' l', d' ∈ post → PyStr.split ":" d' ≠ [c; l']) →
         m !! c = Some z)
    ∧ (∀ c, (∀ d l, d ∈ defs → PyStr.split ":" d ≠ [c; l]) → m !! c = acc !! c).
Proof.
  induction defs as [|d defs IH]; intros acc g Hint.
  - exists acc, g. split; [done|]. split; [done|]. split; [done|].
    split; [cbn; lia|]. split; [|done].
    intros pre d post c l z Hdefs. by destruct pre.
  - destruct (split_shape d) as [(c & l & Hsplit) | Hshape].
    + destruct (Hint d c l ltac:(left) Hsplit) as [z Hz].
      destruct (IH (<[c := z]> acc) g) as (m & g' & Hrun & Hcfg & Hwho & Hwarn & Hlast & Hnone).
      { intros d' c' l' Hin. apply Hint. by right. }
      exists m, g'. split.
      { cbn [parse_definitions]. rewrite Hsplit. unfold bind at 1, lift at 1.
        by rewrite Hz. }
      split; [done|]. split; [done|]. split.
      { rewrite filter_cons_False; [done|]. rewrite Hsplit. cbn. lia. }
      split.
      * intros [|d0 pre] d1 post c1 l1 z1 Hdefs Hs1 Hz1 Hlater.
        -- injection Hdefs as <- <-. rewrite Hsplit in Hs1. injection Hs1 as <- <-.
           rewrite Hz in Hz1. injection Hz1 as <-.
           rewrite (Hnone c) by done. by rewrite lookup_insert_eq.
        -- injection Hdefs as <- ->. by eapply Hlast.
      * intros c1 Hno. rewrite Hnone.
        -- rewrite lookup_insert_ne; [done|]. intros <-.
           by apply (Hno d l ltac:(left)).
        -- intros d' l' Hin. apply Hno. by right.
    + destruct (IH acc
                  (Globals (_SMS_CONFIG g) (_WHO_CAN g)
                     ((group +:+ "_throttle definitions should be in the form "
                             +:+ "[command]:<limit> - "
                             +:+ PyStr.join ":" (PyStr.split ":" d)) :: warned g)))
        as (m & g' & Hrun & Hcfg & Hwho & Hwarn & Hlast & Hnone).
      { intros d' c' l' Hin. apply Hint. by right. }
      exists m, g'. split.
      { by rewrite (parse_definitions_skips _ _ _ _ Hshape). }
      split; [done|]. split; [done|]. split.
      { rewrite filter_cons_True by done. rewrite Hwarn. cbn. lia. }
      split.
      * intros [|d0 pre] d1 post c1 l1 z1 Hdefs Hs1 Hz1 Hlater.
        -- injection Hdefs as <- <-. rewrite Hs1 in Hshape. by cbn in Hshape.
        -- injection Hdefs as <- ->. by eapply Hlast.
      * intros c1 Hno. apply Hnone. intros d' l' Hin. apply Hno. by right.
Qed.

(** ** A window that has run out *)

(** Limits hold for one window: the first check after the stop time of the
    window starts a new window at the time of the check, in which no group
    has a counter left, and, where the deciding limit is above 0, allows
    the command and counts it as the first of the new window. *)
Theorem expired_window_starts_anew cfg now cmd user w ts limit seconds t0 stop sel group :
  holds_window ts w →
  cfg !! "throttle_time_limit_seconds" = Some limit →
  int_of_cfgval limit = Ok seconds →
  ts !! START_KEY = Some (TStr (DateTime.str t0)) →
  DateTime.strptime (DateTime.str t0) = Ok t0 →
  DateTime.add_seconds t0 seconds = Ok stop →
  (stop < now)%Z →
  select_group cfg user cmd = Ok sel →
  throttled_group sel = Some group →
  group ≠ EmptyString →
  group ≠ START_KEY →
  all_throttle_limit sel ≠ (-1)%Z ∨ cmd_throttle_limit sel ≠ (-1)%Z →
  (0 < deciding_limit sel)%Z →
  ∃ ts' w',
    is_throttle_exceeded cfg now cmd user w = (Ok PyFalse, w')
    ∧ holds_window ts' w'
    ∧ ts' !! START_KEY = Some (TStr (DateTime.str now))
    ∧ count_of (counters ts' group) (deciding_counter sel cmd) = 1%Z
    ∧ ∀ k, k ≠ group → k ≠ START_KEY → ts' !! k = None.
Proof.
  intros (options & Hf & Hl & Hd) Hlim Hsec Hstart Hparse Hstop Hnow Hsel Hg Hne Hgs
    Hlimits Hpos.
  set (w1 := after_load options w).
  set (w2 := after_update "throttle" (Literal.str (fresh_window now)) w1).
  assert (Hload : load_window cfg now w = (Ok (fresh_window now), w2)).
  { rewrite (load_window_eval cfg now w options ts limit seconds t0 stop); try done.
    - rewrite (proj2 (Z.ltb_lt stop now) Hnow), orb_true_r.
      by rewrite (bind_eq _ _ _ _ _ (update_state_ok _ _ w1 Hd)).
    - rewrite Hl. cbn [default]. apply window_text_round_trip.
    - unfold window_start. by rewrite Hstart. }
  assert (Hc : has_counters (fresh_window now) group).
  { intros s. rewrite fresh_window_lookup. by rewrite decide_False. }
  assert (Hd2 : disk_full w2 = false) by done.
  assert (Hcount : ∀ key, count_of (counters (fresh_window now) group) key = 0%Z).
  { intros key. unfold counters. rewrite fresh_window_lookup.
    by rewrite decide_False. }
  assert (Heq : is_throttle_exceeded cfg now cmd user w
                = apply_limits cmd sel (fresh_window now) w2).
  { rewrite is_throttle_exceeded_phases, (bind_eq _ _ _ _ _ Hload).
    unfold evaluate_limits, bind, lift. by rewrite Hsel. }
  rewrite Heq, (apply_limits_eval _ _ _ _ _ Hg Hne Hc Hd2). clear Heq. cbv zeta.
  rewrite !Hcount. revert Hpos. unfold deciding_counter, deciding_limit.
  assert (Hfresh : ∀ d k, k ≠ group → k ≠ START_KEY →
            <[group := TDict d]> (fresh_window now) !! k = None).
  { intros d k Hk1 Hk2. rewrite lookup_insert_ne by done.
    rewrite fresh_window_lookup. by rewrite decide_False. }
  assert (Hkeep : ∀ d, <[group := TDict d]> (fresh_window now) !! START_KEY
                       = Some (TStr (DateTime.str now))).
  { intros d. rewrite lookup_insert_ne by done.
    rewrite fresh_window_lookup. by rewrite decide_True. }
  destruct (all_throttle_limit sel =? -1)%Z eqn:Eal; cbn [negb]; intros Hpos.
  - assert (Hcl : (cmd_throttle_limit sel =? -1)%Z = false) by (destruct Hlimits; lia).
    rewrite Hcl, (proj2 (Z.ltb_lt 0 _) Hpos). cbn [negb andb].
    eexists _, _. split; [reflexivity|].
    split; [by apply holds_window_after_update|].
    split; [apply Hkeep|]. split; [|apply Hfresh].
    rewrite counters_bump, Hcount. unfold count_of. by rewrite lookup_insert_eq.
  - rewrite (proj2 (Z.ltb_lt 0 _) Hpos).
    destruct (negb (cmd_throttle_limit sel =? -1) && (0 <? cmd_throttle_limit sel))%Z.
    + eexists _, _. split; [reflexivity|].
      split; [by apply holds_window_after_update|].
      split; [apply Hkeep|]. split; [|apply Hfresh].
      rewrite counters_insert. unfold count_of.
      destruct (decide (cmd = "all")) as [->|Hcmd].
      * by rewrite lookup_insert_eq.
      * by rewrite lookup_insert_ne, lookup_insert_eq.
    + eexists _, _. split; [reflexivity|].
      split; [by apply holds_window_after_update|].
      split; [apply Hkeep|]. split; [|apply Hfresh].
      rewrite counters_bump, Hcount. unfold count_of. by rewrite lookup_insert_eq.
Qed.

(** ** The throttle tables that [sms] stores *)

Lemma last_char_app x c s : last_char (x +:+ String c s) = last_char (String c s).
Proof.
  induction x as [|a x IH]; [done|].
  rewrite append_cons. destruct x as [|b x].
  - by rewrite append_nil.
  - rewrite append_cons in *. exact IH.
Qed.

Lemma throttle_key_ne x y c s :
  last_char (String c s) = Some "s"%char → y +:+ String c s ≠ x +:+ "_throttle".
Proof.
  intros Hs E. apply (f_equal last_char) in E.
  rewrite !last_char_app, Hs in E. by vm_compute in E.
Qed.

Lemma throttle_raw_insert CONFIG key v c :
  (∀ x, key ≠ x +:+ "_throttle") →
  throttle_raw CONFIG c → throttle_raw CONFIG (<[key := v]> c).
Proof. intros Hne H x. rewrite lookup_insert_ne by done. apply H. Qed.

Lemma throttle_raw_items CONFIG : throttle_raw CONFIG (of_items CONFIG).
Proof. by intros x. Qed.

Lemma stable_throttle_raw_sms_command CONFIG cmd :
  stable (on_cfg (throttle_raw CONFIG)) (sms_command cmd).
Proof.
  apply stable_cfg_sms_command. intros c l. apply throttle_raw_insert.
  intros x. by apply throttle_key_ne.
Qed.

Lemma stable_throttle_raw_sms_group CONFIG group :
  stable (on_cfg (throttle_raw CONFIG)) (sms_group group).
Proof.
  apply stable_cfg_sms_group; intros c l; apply throttle_raw_insert; intros x.
  - by apply throttle_key_ne.
  - by apply throttle_key_ne.
  - apply not_eq_sym, app_ne. by vm_compute.
Qed.

(** What a run of [parse_definitions] that returns has read. *)
Lemma parse_definitions_Ok group defs : ∀ acc g m g',
  parse_definitions group defs acc g = (Ok m, g') →
  _SMS_CONFIG g' = _SMS_CONFIG g
  ∧ (∀ pre d post c l z,
       defs = pre ++ d :: post →
       PyStr.split ":" d = [c; l] →
       PyStr.int l = Ok z →
       (∀ d' l', d' ∈ post → PyStr.split ":" d' ≠ [c; l']) →
       m !! c = Some z)
  ∧ (∀ c, (∀ d l, d ∈ defs → PyStr.split ":" d ≠ [c; l]) → m !! c = acc !! c).
Proof.
  induction defs as [|d defs IH]; intros acc g m g' H.
  - injection H as <- <-. split; [done|]. split; [|done].
    intros pre d post c l z Hdefs. by destruct pre.
  - destruct (split_shape d) as [(c & l & Hsplit) | Hshape].
    + cbn [parse_definitions] in H. rewrite Hsplit in H.
      apply bind_Ok in H as (z & g1 & Hz & H). apply lift_Ok in Hz as [-> Hz].
      apply IH in H as (Hcfg & Hlast & Hnone).
      split; [done|]. split.
      * intros [|d0 pre] d1 post c1 l1 z1 Hdefs Hs1 Hz1 Hlater.
        -- injection Hdefs as <- <-. rewrite Hsplit in Hs1. injection Hs1 as <- <-.
           rewrite Hz in Hz1. injection Hz1 as <-.
           rewrite (Hnone c) by done. by rewrite lookup_insert_eq.
        -- injection Hdefs as <- ->. by eapply Hlast.
      * intros c1 Hno. rewrite Hnone.
        -- rewrite lookup_insert_ne; [done|]. intros <-.
           by apply (Hno d l ltac:(left)).
        -- intros d' l' Hin. apply Hno. by right.
    + rewrite (parse_definitions_skips _ _ _ _ Hshape) in H.
      apply bind_Ok in H as ([] & g1 & [= <-] & H).
      apply IH in H as (Hcfg & Hlast & Hnone).
      split; [done|]. split.
      * intros [|d0 pre] d1 post c1 l1 z1 Hdefs Hs1 Hz1 Hlater.
        -- injection Hdefs as <- <-. rewrite Hs1 in Hshape. by cbn in Hshape.
        -- injection Hdefs as <- ->. by eapply Hlast.
      * intros c1 Hno. apply Hnone. intros d' l' Hin. apply Hno. by right.
Qed.

(** One turn of the loop over the groups, for the throttle tables. *)
Lemma sms_group_throttle CONFIG group g g' tg :
  throttle_raw CONFIG (_SMS_CONFIG g) →
  _SMS_CONFIG g !! "throttled_groups" = Some (VGroups tg) →
  sms_group group g = (Ok tt, g') →
  ∃ tg', _SMS_CONFIG g' !! "throttled_groups" = Some (VGroups tg')
    ∧ match CONFIG !! (group +:+ "_throttle") with
      | Some (Some text) =>
          ∃ m, tg' = <[group := m]> tg
               ∧ table_of (raw_list CONFIG (group +:+ "_throttle")) m
      | Some None => False
      | None => tg' = tg
      end.
Proof.
  intros Hraw Htg H. unfold sms_group in H.
  apply bind_Ok in H as (users & g1 & Hu & H).
  apply bind_Ok in H as (commands & g2 & Hc & H).
  apply bind_Ok in H as ([] & g3 & Hloop & H).
  assert (Hraw3 : throttle_raw CONFIG (_SMS_CONFIG g3)
                  ∧ _SMS_CONFIG g3 !! "throttled_groups" = Some (VGroups tg)).
  { assert (Hst : stable (on_cfg (λ c, throttle_raw CONFIG c
                                       ∧ c !! "throttled_groups" = Some (VGroups tg)))
                    (users ← listify (group +:+ "_users");
                     commands ← listify (group +:+ "_commands");
                     for_each commands (λ cmd, for_each users (λ user, who_can_add cmd user)))).
    { apply stable_bind.
      { apply stable_cfg_listify. intros c l [H1 H2]. split.
        - apply throttle_raw_insert; [|done]. intros x. by apply throttle_key_ne.
        - rewrite lookup_insert_ne; [done|]. apply app_ne. by vm_compute. }
      intros us. apply stable_bind.
      { apply stable_cfg_listify. intros c l [H1 H2]. split.
        - apply throttle_raw_insert; [|done]. intros x. by apply throttle_key_ne.
        - rewrite lookup_insert_ne; [done|]. apply app_ne. by vm_compute. }
      intros cs. apply stable_for_each. intros cmd _. apply stable_for_each.
      intros user _. apply stable_cfg_who_can_add. }
    eapply (Hst g (Ok tt) g3); [done|].
    unfold bind. rewrite Hu, Hc. exact Hloop. }
  destruct Hraw3 as [Hraw3 Htg3].
  unfold parse_throttle in H. apply bind_Ok in H as (g3' & ? & [= <- <-] & H).
  rewrite (Hraw3 group) in H. unfold of_items in H. rewrite lookup_fmap in H.
  destruct (CONFIG !! (group +:+ "_throttle")) as [[text|]|] eqn:E;
    cbn [fmap option_fmap option_map] in H.
  - apply bind_Ok in H as (defs & g4 & Hdefs & H).
    apply lift_Ok in Hdefs as [-> Hdefs]. cbn [_as_list] in Hdefs.
    injection Hdefs as <-.
    apply bind_Ok in H as (m & g5 & Hparse & H).
    apply parse_definitions_Ok in Hparse as (Hcfg & Hlast & Hnone).
    apply bind_Ok in H as (g5' & ? & [= <- <-] & H).
    rewrite Hcfg, Htg3 in H. injection H as <-.
    exists (<[group := m]> tg). cbn [_SMS_CONFIG]. rewrite lookup_insert_eq.
    split; [done|]. exists m. split; [done|].
    unfold raw_list. rewrite E. split; [done|].
    intros c Hno. by rewrite (Hnone c Hno).
  - apply bind_Ok in H as (defs & g4 & Hdefs & H).
    by apply lift_Ok in Hdefs as [_ Hdefs].
  - injection H as <-. by exists tg.
Qed.

Lemma sms_groups_throttle CONFIG groups : ∀ processed g g' tg,
  throttle_raw CONFIG (_SMS_CONFIG g) →
  _SMS_CONFIG g !! "throttled_groups" = Some (VGroups tg) →
  throttled_as_configured CONFIG processed tg →
  for_each groups sms_group g = (Ok tt, g') →
  ∃ tg', _SMS_CONFIG g' !! "throttled_groups" = Some (VGroups tg')
    ∧ throttled_as_configured CONFIG (processed ++ groups) tg'.
Proof.
  induction groups as [|group groups IH]; intros processed g g' tg Hraw Htg Hconf H.
  - injection H as <-. exists tg. by rewrite app_nil_r.
  - cbn [for_each] in H. apply bind_Ok in H as ([] & g1 & H1 & H).
    destruct (sms_group_throttle CONFIG _ _ _ _ Hraw Htg H1) as (tg1 & Htg1 & Hgroup).
    assert (Hraw1 : throttle_raw CONFIG (_SMS_CONFIG g1)).
    { by eapply (stable_throttle_raw_sms_group CONFIG group g (Ok tt) g1). }
    assert (Hconf1 : throttled_as_configured CONFIG (processed ++ [group]) tg1).
    { intros x. specialize (Hconf x).
      destruct (CONFIG !! (group +:+ "_throttle")) as [[text|]|] eqn:E; [|done|].
      - destruct Hgroup as (m & -> & Hm).
        destruct (decide (group = x)) as [<-|Hne].
        + rewrite lookup_insert_eq. split; [apply elem_of_app; right; left|].
          split; [by rewrite E|done].
        + rewrite lookup_insert_ne by done.
          destruct (tg !! x) as [mx|].
          * destruct Hconf as (Hin & Hx). split; [|done]. apply elem_of_app. by left.
          * intros [Hin | ->%list_elem_of_singleton]%elem_of_app; [by apply Hconf|done].
      - subst tg1. destruct (tg !! x) as [mx|].
        + destruct Hconf as (Hin & Hx). split; [|done]. apply elem_of_app. by left.
        + intros [Hin | ->%list_elem_of_singleton]%elem_of_app; [by apply Hconf|done]. }
    destruct (IH _ _ _ _ Hraw1 Htg1 Hconf1 H) as (tg' & Htg' & Hfinal).
    exists tg'. split; [done|]. by rewrite <- app_assoc in Hfinal.
Qed.

(** After a successful first [sms], ['throttled_groups'] has a table exactly
    for the groups that have a throttle option in the section, and the
    table of a group gives every command the limit of the last definition
    [command:limit] of that option, under the name written before the
    colon; a group without the option is not throttled. *)
Theorem sms_throttle_tables CONFIG cfg g' groups throttled group :
  sms CONFIG fresh_globals = (Ok cfg, g') →
  cfg !! "groups" = Some (VList groups) →
  cfg !! "throttled_groups" = Some (VGroups throttled) →
  match throttled !! group with
  | Some m =>
      group ∈ groups
      ∧ is_Some (CONFIG !! (group +:+ "_throttle"))
      ∧ table_of (raw_list CONFIG (group +:+ "_throttle")) m
  | None => group ∈ groups → CONFIG !! (group +:+ "_throttle") = None
  end.
Proof.
  intros Hsms Hg Ht.
  destruct (sms_fresh_steps _ _ _ Hsms)
    as (commands & groups' & blacklist & g1 & g2 & _ & H1 & H2 & Hbl & -> & -> & Hb).
  rewrite (built_groups _ _ _ _ Hb) in Hg. injection Hg as ->.
  assert (Hraw1 : throttle_raw CONFIG (_SMS_CONFIG g1)).
  { eapply (stable_for_each (on_cfg (throttle_raw CONFIG))); [| |exact H1].
    - intros c _. apply stable_throttle_raw_sms_command.
    - apply throttle_raw_insert; [|apply throttle_raw_items].
      intros x. apply not_eq_sym, app_ne. by vm_compute. }
  set (G2 := Globals (<["throttled_groups" := VGroups ∅]>
                        (<["groups" := VList groups]> (_SMS_CONFIG g1)))
                     (_WHO_CAN g1) (warned g1)) in *.
  assert (Hraw2 : throttle_raw CONFIG (_SMS_CONFIG G2)).
  { apply throttle_raw_insert; [intros x; apply not_eq_sym, app_ne; by vm_compute|].
    apply throttle_raw_insert; [intros x; apply not_eq_sym, app_ne; by vm_compute|].
    done. }
  assert (Htg2 : _SMS_CONFIG G2 !! "throttled_groups" = Some (VGroups ∅)).
  { cbn [_SMS_CONFIG G2]. by rewrite lookup_insert_eq. }
  assert (Hconf2 : throttled_as_configured CONFIG [] ∅).
  { intros x. rewrite lookup_empty. by intros ?%elem_of_nil. }
  destruct (sms_groups_throttle CONFIG groups [] G2 _ ∅ Hraw2 Htg2 Hconf2 H2)
    as (tg & Htg & Hconf).
  cbn [_SMS_CONFIG] in Ht. rewrite lookup_insert_ne in Ht by done.
  rewrite Htg in Ht. injection Ht as <-. apply Hconf.
Qed.

(** ** The show configuration of [lightshow] *)

Lemma ls_bind_Done {V A B} (m : LS V A) (k : A → LS V B) g b g' :
  ls_bind m k g = (Done b, g') → ∃ a g1, m g = (Done a, g1) ∧ k a g1 = (Done b, g').
Proof.
  unfold ls_bind. destruct (m g) as [[a|e] g1]; [|done]. intros H. by exists a, g1.
Qed.

Lemma ls_bind_Failed {V A B} (m : LS V A) (k : A → LS V B) g e g' :
  ls_bind m k g = (Failed e, g') →
  m g = (Failed e, g') ∨ ∃ a g1, m g = (Done a, g1) ∧ k a g1 = (Failed e, g').
Proof.
  unfold ls_bind. destruct (m g) as [[a|e'] g1]; intros H.
  - right. by exists a, g1.
  - left. by injection H as -> ->.
Qed.

Lemma lightshow_memo {V} (json_loads : string → option V) isfile CONFIG g :
  size (_LIGHTSHOW_CONFIG g) ≠ 0%nat →
  lightshow json_loads isfile CONFIG g = (Done (_LIGHTSHOW_CONFIG g), g).
Proof.
  intros H. unfold lightshow, ls_bind, ls_get, ls_ret. by rewrite decide_False.
Qed.

Lemma ls_truthy_text text : text ≠ EmptyString → ls_truthy (Some text) = true.
Proof. by destruct text. Qed.

(** What [show_setup] returns when it returns, where the two options of
    the show are in [_LIGHTSHOW_CONFIG] as the section gave them. *)
Lemma show_setup_Done {V} (json_loads : string → option V) isfile CONFIG show g v g1 :
  _LIGHTSHOW_CONFIG g !! (show +:+ "_configuration")
    = ls_items CONFIG !! (show +:+ "_configuration") →
  _LIGHTSHOW_CONFIG g !! (show +:+ "_script") = ls_items CONFIG !! (show +:+ "_script") →
  show_setup json_loads isfile CONFIG show g = (Done v, g1) →
  _LIGHTSHOW_CONFIG g1 = _LIGHTSHOW_CONFIG g
  ∧ (∀ path, CONFIG !! (show +:+ "_script") = Some (Some path) →
       path ≠ EmptyString →
       v = (if isfile path then LStr path else LNone) ∧ g1 = g)
  ∧ (∀ script text,
       CONFIG !! (show +:+ "_script") = Some script →
       ls_truthy script = false →
       CONFIG !! (show +:+ "_configuration") = Some (Some text) →
       text ≠ EmptyString →
       match json_loads text with
       | Some parsed => v = LJson parsed ∧ g1 = g
       | None => v = LNone ∧ ls_logged g1 = ValueError :: ls_logged g
       end).
Proof.
  intros Hc Hs H. unfold show_setup in H.
  apply ls_bind_Done in H as (conf & g2 & Hconf & H).
  injection Hconf as Hconf <-. unfold config_get in Hconf.
  destruct (CONFIG !! (show +:+ "_configuration")) as [conf'|] eqn:Ec; [|done].
  injection Hconf as ->.
  apply ls_bind_Done in H as (use & g3 & Huse & H).
  apply ls_bind_Done in H as (g4 & g5 & [= <- <-] & H).
  unfold ls_items in Hc, Hs. rewrite lookup_fmap in Hc, Hs. rewrite Ec in Hc.
  destruct (ls_truthy conf) eqn:Et.
  - apply ls_bind_Done in Huse as (script & g6 & Hscript & Huse).
    injection Hscript as Hscript <-. unfold config_get in Hscript.
    destruct (CONFIG !! (show +:+ "_script")) as [script'|] eqn:Es; [|done].
    injection Hscript as ->. injection Huse as <- <-.
    destruct conf as [text|]; [|done]. cbn in Hc.
    destruct (ls_truthy script) eqn:Ets; cbn [negb] in H.
    + destruct script as [path|]; [|done]. cbn in Hs. rewrite Hs in H.
      injection H as <- <-. split; [done|]. split.
      * intros path' [= <-] _. done.
      * intros script text' [= <-]. by rewrite Ets.
    + rewrite Hc in H. split; [|split].
      * destruct (json_loads text); by injection H as <- <-.
      * intros path [= ->] Hne. by rewrite ls_truthy_text in Ets.
      * intros script' text' _ _ [= <-] _.
        destruct (json_loads text); by injection H as <- <-.
  - injection Huse as <- <-.
    destruct (CONFIG !! (show +:+ "_script")) as [[path|]|] eqn:Es; cbn in Hs;
      rewrite Hs in H; [|done|done].
    injection H as <- <-. split; [done|]. split.
    + by intros path' [= <-] _.
    + intros script text _ _ [= ->] Hne. by rewrite ls_truthy_text in Et.
Qed.

(** What a successful first [lightshow] holds: the two audio options as
    integers, and for each show the script when the section names one,
    whether or not it is a file (a script that is not a file gives [None],
    and the configuration of the show is not read), and else the parsed
    configuration of the show, [None] when it is not JSON. *)
Theorem lightshow_built {V} (json_loads : string → option V) isfile CONFIG cfg g' show :
  lightshow json_loads isfile CONFIG fresh_ls_globals = (Done cfg, g') →
  show = "preshow" ∨ show = "postshow" →
  (∃ channels rate,
     config_getint CONFIG "audio_in_channels" = Done channels
     ∧ config_getint CONFIG "audio_in_sample_rate" = Done rate
     ∧ cfg !! "audio_in_channels" = Some (LInt channels)
     ∧ cfg !! "audio_in_sample_rate" = Some (LInt rate))
  ∧ (∀ path, CONFIG !! (show +:+ "_script") = Some (Some path) →
       path ≠ EmptyString →
       cfg !! show = Some (if isfile path then LStr path else LNone))
  ∧ (∀ script text,
       CONFIG !! (show +:+ "_script") = Some script →
       ls_truthy script = false →
       CONFIG !! (show +:+ "_configuration") = Some (Some text) →
       text ≠ EmptyString →
       cfg !! show = Some (match json_loads text with
                           | Some parsed => LJson parsed
                           | None => LNone
                           end)).
Proof.
  intros H Hshow. unfold lightshow in H.
  apply ls_bind_Done in H as (g0 & ? & [= <- <-] & H).
  apply ls_bind_Done in H as ([] & g7 & H & [= <- <-]).
  rewrite decide_True in H by apply map_size_empty.
  apply ls_bind_Done in H as ([] & g1 & [= <-] & H).
  apply ls_bind_Done in H as (channels & ? & [= Hch <-] & H).
  apply ls_bind_Done in H as ([] & g2 & [= <-] & H).
  apply ls_bind_Done in H as (rate & ? & [= Hrate <-] & H).
  apply ls_bind_Done in H as ([] & g3 & [= <-] & H).
  apply ls_bind_Done in H as (preshow & g4 & Hpre & H).
  apply ls_bind_Done in H as ([] & g5 & [= <-] & H).
  apply ls_bind_Done in H as (postshow & g6 & Hpost & H).
  injection H as <-. cbn [_LIGHTSHOW_CONFIG ls_logged] in *.
  apply show_setup_Done in Hpre as (Hcfg4 & Hpre_script & Hpre_conf);
    [|cbn [_LIGHTSHOW_CONFIG]; by rewrite !lookup_insert_ne by (by vm_compute)..].
  apply show_setup_Done in Hpost as (Hcfg6 & Hpost_script & Hpost_conf);
    [|cbn [_LIGHTSHOW_CONFIG]; rewrite Hcfg4; cbn [_LIGHTSHOW_CONFIG];
      by rewrite !lookup_insert_ne by (by vm_compute)..].
  rewrite Hcfg6. cbn [_LIGHTSHOW_CONFIG]. rewrite Hcfg4. cbn [_LIGHTSHOW_CONFIG].
  split.
  { exists channels, rate. split; [done|]. split; [done|].
    rewrite !(lookup_insert_ne _ "postshow") by done.
    rewrite !(lookup_insert_ne _ "preshow") by done.
    rewrite lookup_insert_ne by done. by rewrite !lookup_insert_eq. }
  destruct Hshow as [-> | ->].
  - rewrite lookup_insert_ne by done. rewrite lookup_insert_eq. split.
    + intros path Hs Hne. by destruct (Hpre_script path Hs Hne) as [-> _].
    + intros script text Hs Ht Hc Hne.
      specialize (Hpre_conf script text Hs Ht Hc Hne).
      destruct (json_loads text); by destruct Hpre_conf as [-> _].
  - rewrite lookup_insert_eq. split.
    + intros path Hs Hne. by destruct (Hpost_script path Hs Hne) as [-> _].
    + intros script text Hs Ht Hc Hne.
      specialize (Hpost_conf script text Hs Ht Hc Hne).
      destruct (json_loads text); by destruct Hpost_conf as [-> _].
Qed.

(** When the first [lightshow] fails on a section that is not empty, the
    section stays in [_LIGHTSHOW_CONFIG] partly converted: every later
    call returns it without an exception, and ['postshow'] is in it only
    if the section had an option of that name. *)
Theorem failed_lightshow_is_kept {V} (json_loads : string → option V) isfile
    CONFIG CONFIG' e g' :
  lightshow json_loads isfile CONFIG fresh_ls_globals = (Failed e, g') →
  CONFIG ≠ ∅ →
  lightshow json_loads isfile CONFIG' g' = (Done (_LIGHTSHOW_CONFIG g'), g')
  ∧ _LIGHTSHOW_CONFIG g' !! "postshow" = ls_items CONFIG !! "postshow"
  ∧ dom CONFIG ⊆ dom (_LIGHTSHOW_CONFIG g').
Proof.
  intros H Hne.
  assert (Hkept : _LIGHTSHOW_CONFIG g' !! "postshow" = ls_items CONFIG !! "postshow"
                  ∧ dom CONFIG ⊆ dom (_LIGHTSHOW_CONFIG g')).
  { unfold lightshow in H.
    apply ls_bind_Failed in H as [H | (g0 & ? & [= <- <-] & H)]; [done|].
    apply ls_bind_Failed in H as [H | (? & ? & _ & H)]; [|done].
    rewrite decide_True in H by apply map_size_empty.
    apply ls_bind_Failed in H as [H | ([] & g1 & [= <-] & H)]; [done|].
    assert (Hd : dom CONFIG ⊆ dom (ls_items CONFIG : gmap string (lsval V))).
    { unfold ls_items. by rewrite dom_fmap_L. }
    apply ls_bind_Failed in H as [[= _ <-] | (channels & ? & [= _ <-] & H)]; [done|].
    apply ls_bind_Failed in H as [H | ([] & g2 & [= <-] & H)]; [done|].
    apply ls_bind_Failed in H as [[= _ <-] | (rate & ? & [= _ <-] & H)].
    { cbn [_LIGHTSHOW_CONFIG]. rewrite lookup_insert_ne by done.
      split; [done|]. rewrite dom_insert_L. set_solver. }
    apply ls_bind_Failed in H as [H | ([] & g3 & [= <-] & H)]; [done|].
    assert (Hsetup : ∀ show g r g1,
              show_setup json_loads isfile CONFIG show g = (r, g1) →
              _LIGHTSHOW_CONFIG g1 = (_LIGHTSHOW_CONFIG g : gmap string (lsval V))).
    { clear. intros show g r g1. unfold show_setup, ls_bind, ls_lift, ls_get, ls_ret, ls_log.
      destruct (config_get CONFIG (show +:+ "_configuration")) as [conf|]; [|by intros [= _ <-]].
      destruct (ls_truthy conf).
      - destruct (config_get CONFIG (show +:+ "_script")) as [script|]; [|by intros [= _ <-]].
        destruct (negb (ls_truthy script)).
        + destruct (_LIGHTSHOW_CONFIG g !! (show +:+ "_configuration")) as [[|text| |]|];
            try (by intros [= _ <-]).
          destruct (json_loads text); by intros [= _ <-].
        + destruct (_LIGHTSHOW_CONFIG g !! (show +:+ "_script")) as [[| | |]|];
            by intros [= _ <-].
      - destruct (_LIGHTSHOW_CONFIG g !! (show +:+ "_script")) as [[| | |]|];
          by intros [= _ <-]. }
    apply ls_bind_Failed in H as [H | (preshow & g4 & Hpre & H)].
    { rewrite (Hsetup _ _ _ _ H). cbn [_LIGHTSHOW_CONFIG].
      rewrite !lookup_insert_ne by done.
      split; [done|]. rewrite !dom_insert_L. set_solver. }
    apply Hsetup in Hpre.
    apply ls_bind_Failed in H as [H | ([] & g5 & [= <-] & H)]; [done|].
    apply ls_bind_Failed in H as [H | (postshow & g6 & Hpost & H)]; [|done].
    rewrite (Hsetup _ _ _ _ H). cbn [_LIGHTSHOW_CONFIG]. rewrite Hpre.
    cbn [_LIGHTSHOW_CONFIG]. rewrite !lookup_insert_ne by done.
    split; [done|]. rewrite !dom_insert_L. set_solver. }
  split; [|done]. apply lightshow_memo. intros Hs. apply map_size_empty_inv in Hs.
  destruct Hkept as [_ Hd]. rewrite Hs, dom_empty_L in Hd.
  apply Hne. apply dom_empty_iff_L. set_solver.
Qed.

(** ** The statements at concrete inputs *)

Lemma sms_result CONFIG g cfg g' :
  sms CONFIG g = (Ok cfg, g') → cfg = _SMS_CONFIG g'.
Proof.
  unfold sms. intros H.
  apply bind_Ok in H as (g0 & s0 & _ & H).
  apply bind_Ok in H as ([] & g1 & _ & H). by injection H as <- <-.
Qed.

Lemma demo_built : sms demo_items fresh_globals = (Ok demo_cfg, demo_globals).
Proof.
  assert (H : is_ok (sms demo_items fresh_globals).1 = true)
    by (vm_compute; reflexivity).
  unfold demo_cfg, demo_globals.
  destruct (sms demo_items fresh_globals) as [[cfg|e] g] eqn:E; [|done].
  simpl. by rewrite (sms_result _ _ _ _ E).
Qed.

Lemma has_permission_iff_witness :
  ∃ blacklist all_users cmd_users,
    demo_cfg !! "blacklist" = Some (VList blacklist)
    ∧ _WHO_CAN demo_globals !! "all" = Some all_users
    ∧ _WHO_CAN demo_globals !! "play" = Some cmd_users
    ∧ has_permission demo_items "carol" "play" fresh_globals =
        (Ok (bool_decide ((("carol" : string) ∉ blacklist)
                          ∧ ("carol" ∈ all_users ∨ "all" ∈ cmd_users
                             ∨ "carol" ∈ cmd_users))),
         demo_globals)
    ∧ ("carol" ∈ blacklist →
       has_permission demo_items "carol" "play" fresh_globals = (Ok false, demo_globals)).
Proof.
  apply (has_permission_iff demo_items "carol" "play" demo_cfg demo_globals
           ["play"; "volume"] fresh_globals).
  - exact demo_built.
  - vm_compute. reflexivity.
  - left.
  - left. reflexivity.
Defined.

(** C10, as stated, fails: [stop] is not a configured command, and for the
    blacklisted [bob] the check returns [False] instead of raising. *)
Lemma has_permission_unconfigured_blacklisted :
  sms demo_items fresh_globals = (Ok demo_cfg, demo_globals)
  ∧ demo_cfg !! "commands" = Some (VList ["play"; "volume"])
  ∧ (("stop" : string) ∉ ["play"; "volume"])
  ∧ (has_permission demo_items "bob" "stop" fresh_globals).1 = Ok false
  ∧ (has_permission demo_items "bob" "stop" demo_globals).1 = Ok false.
Proof.
  split; [exact demo_built|]. split; [vm_compute; reflexivity|].
  split; [|split; vm_compute; reflexivity].
  intros H. repeat (apply elem_of_cons in H as [H|H]; [discriminate|]).
  by apply elem_of_nil in H.
Qed.

Lemma has_permission_unconfigured_witness :
  (∃ blacklist all_users,
     demo_cfg !! "blacklist" = Some (VList blacklist)
     ∧ _WHO_CAN demo_globals !! "all" = Some all_users
     ∧ has_permission demo_items "carol" "stop" fresh_globals =
         (if bool_decide ("carol" ∈ blacklist) then Ok false
          else if bool_decide ("carol" ∈ all_users) then Ok true
          else Raise KeyError, demo_globals))
  ∧ (∃ blacklist all_users,
       demo_cfg !! "blacklist" = Some (VList blacklist)
       ∧ _WHO_CAN demo_globals !! "all" = Some all_users
       ∧ has_permission demo_items "carol" "stop" demo_globals =
           (if bool_decide ("carol" ∈ blacklist) then Ok false
            else if bool_decide ("carol" ∈ all_users) then Ok true
            else Raise KeyError, demo_globals)).
Proof.
  assert (Hno : ("stop" : string) ∉ ["play"; "volume"]).
  { intros H. repeat (apply elem_of_cons in H as [H|H]; [discriminate|]).
    by apply elem_of_nil in H. }
  split.
  - apply (has_permission_unconfigured demo_items "carol" "stop" demo_cfg demo_globals
             ["play"; "volume"] fresh_globals);
      [exact demo_built | vm_compute; reflexivity | exact Hno | discriminate | by left].
  - apply (has_permission_unconfigured demo_items "carol" "stop" demo_cfg demo_globals
             ["play"; "volume"] demo_globals);
      [exact demo_built | vm_compute; reflexivity | exact Hno | discriminate | by right].
Defined.


Lemma all_limit_before_cmd_limit_witness :
  count_of (counters first_call_window "vip") "play" = 1%Z
  ∧ select_group demo_cfg "carol" "play" = Ok (Selection (Some "vip") 5%Z 1%Z)
  ∧ is_throttle_exceeded demo_cfg five_seconds_after "play" "carol" after_first_call
    = (Ok PyFalse,
       after_update "throttle" (Literal.str (bump "vip" "all" first_call_window))
         (after_load (STATE after_first_call) after_first_call)).
Proof.
  split; [vm_compute; reflexivity|]. split; [vm_compute; reflexivity|].
  refine (all_limit_before_cmd_limit demo_cfg five_seconds_after "play" "carol"
            after_first_call first_call_window
            (after_load (STATE after_first_call) after_first_call)
            (Selection (Some "vip") 5%Z 1%Z) "vip" _ _ _ _ _ _ _ _ _).
  - vm_compute. reflexivity.
  - vm_compute. reflexivity.
  - reflexivity.
  - discriminate.
  - intros s. vm_compute. discriminate.
  - reflexivity.
  - discriminate.
  - discriminate.
  - discriminate.
Defined.

(** The failing input of C4: [alice] is a member of the first group [a],
    whose throttle definition has a limit for ['all'], and the group the
    check uses is [b]. *)
Lemma first_group_with_limit_passed_over :
  sentinel_cfg !! "groups" = Some (VList ["a"; "b"])
  ∧ sentinel_cfg !! "a_users" = Some (VList ["alice"])
  ∧ (∃ m, sentinel_cfg !! "throttled_groups" = Some (VGroups m)
          ∧ defines_limit m "a" "play")
  ∧ select_group sentinel_cfg "alice" "play" = Ok (Selection (Some "b") 100%Z (-1)%Z).
Proof.
  split; [vm_compute; reflexivity|]. split; [vm_compute; reflexivity|].
  split; [|vm_compute; reflexivity].
  exists (<["a" := {[ "all" := (-1)%Z ]}]> {[ "b" := {[ "all" := 100%Z ]} ]}).
  split; [vm_compute; reflexivity|].
  exists {[ "all" := (-1)%Z ]}. split; [vm_compute; reflexivity|]. left. by eexists.
Qed.

(** With any other limit in the place of [-1], [0] and [-2] among them, the
    same group [a] is the one the check uses. *)
Lemma first_group_with_other_limit_governs :
  select_group (_SMS_CONFIG (sms (sentinel_items_with "0") fresh_globals).2) "alice" "play"
  = Ok (Selection (Some "a") 0%Z (-1)%Z)
  ∧ select_group (_SMS_CONFIG (sms (sentinel_items_with "-2") fresh_globals).2)
      "alice" "play"
    = Ok (Selection (Some "a") (-2)%Z (-1)%Z)
  ∧ select_group (_SMS_CONFIG (sms (sentinel_items_with "-1") fresh_globals).2)
      "alice" "play"
    = Ok (Selection (Some "b") 100%Z (-1)%Z).
Proof. split; [|split]; vm_compute; reflexivity. Qed.

Lemma first_matching_group_governs_witness :
  select_group sentinel_cfg "alice" "play" = Ok (Selection (Some "b") 100%Z (-1)%Z)
  ∧ select_group demo_cfg "carol" "play" = Ok (Selection (Some "vip") 5%Z 1%Z)
  ∧ select_group demo_cfg "alice" "play" = Ok (Selection None (-1)%Z (-1)%Z).
Proof.
  pose proof (first_matching_group_governs sentinel_cfg "alice" "play" ["a"; "b"]
                (<["a" := {[ "all" := (-1)%Z ]}]> {[ "b" := {[ "all" := 100%Z ]} ]}))
    as Hsentinel.
  pose proof (first_matching_group_governs demo_cfg "carol" "play"
                ["admin"; "vip"; "guest"] demo_throttled) as Hcarol.
  pose proof (first_matching_group_governs demo_cfg "alice" "play"
                ["admin"; "vip"; "guest"] demo_throttled) as Halice.
  split; [|split].
  - refine (proj1 (proj1 (Hsentinel _ _) ["a"] "b" [] ["alice"] _ _ _ _ _)).
    + vm_compute. reflexivity.
    + vm_compute. reflexivity.
    + reflexivity.
    + intros g Hg. apply list_elem_of_singleton in Hg as ->.
      exists ["alice"]. split; [vm_compute; reflexivity|].
      intros [_ (limits & Hl & [(a & Ha & Hne) | (c & Hc & _)])];
        vm_compute in Hl; injection Hl as <-.
      * vm_compute in Ha. by injection Ha as <-.
      * vm_compute in Hc. discriminate.
    + vm_compute. reflexivity.
    + left.
    + exists {[ "all" := 100%Z ]}.
      split; [vm_compute; reflexivity|]. left. exists 100%Z. split; [reflexivity|discriminate].
  - refine (proj1 (proj1 (Hcarol _ _) ["admin"] "vip" ["guest"] ["carol"; "dave"] _ _ _ _ _)).
    + vm_compute. reflexivity.
    + vm_compute. reflexivity.
    + reflexivity.
    + intros g Hg. apply list_elem_of_singleton in Hg as ->.
      exists ["alice"]. split; [vm_compute; reflexivity|].
      intros [H _]. apply list_elem_of_singleton in H. discriminate.
    + vm_compute. reflexivity.
    + left.
    + exists (<["all" := 5%Z]> {[ "play" := 1%Z ]}).
      split; [vm_compute; reflexivity|]. left. exists 5%Z. split; [reflexivity|discriminate].
  - refine (proj1 (proj2 (Halice _ _) _)).
    + vm_compute. reflexivity.
    + vm_compute. reflexivity.
    + intros g Hg.
      apply elem_of_cons in Hg as [->|Hg]; [|apply elem_of_cons in Hg as [->|Hg]];
        [| |apply list_elem_of_singleton in Hg as ->].
      * exists ["alice"]. split; [vm_compute; reflexivity|].
        intros [_ (limits & H & _)]. vm_compute in H. discriminate.
      * exists ["carol"; "dave"]. split; [vm_compute; reflexivity|].
        intros [H _]. repeat (apply elem_of_cons in H as [H|H]; [discriminate|]).
        by apply elem_of_nil in H.
      * exists ["bob"; "carol"]. split; [vm_compute; reflexivity|].
        intros [H _]. repeat (apply elem_of_cons in H as [H|H]; [discriminate|]).
        by apply elem_of_nil in H.
Defined.

(** C5, as stated, fails: [alice] belongs to no throttled group, and the
    check returns [False] having only read the state file; nothing is
    written. *)
Lemma check_returns_without_writing :
  let run := is_throttle_exceeded demo_cfg five_seconds_after "play" "alice" started_world in
  run.1 = Ok PyFalse
  ∧ events run.2 = [EvOpen false; EvLock false; EvUnlock; EvClose]
  ∧ state_file run.2 = state_file started_world.
Proof. vm_compute. by repeat split. Qed.

Lemma window_written_unless_early_return_witness :
  (∃ f ts',
     is_throttle_exceeded demo_cfg five_seconds_after "play" "carol" after_first_call
     = (Ok f, after_update "throttle" (Literal.str ts')
                (after_load (STATE after_first_call) after_first_call)))
  ∧ is_throttle_exceeded demo_cfg five_seconds_after "play" "alice" started_world
    = (Ok PyFalse,
       after_load {[ "throttle" := "{'throttle_timestamp_start': '2020-01-01 00:00:00.000001'}" ]}
                  started_world).
Proof.
  split.
  - refine (proj2 (window_written_unless_early_return demo_cfg five_seconds_after
              "play" "carol" after_first_call first_call_window
              (after_load (STATE after_first_call) after_first_call)
              (Selection (Some "vip") 5%Z 1%Z) _ _ _ _)).
    + vm_compute. reflexivity.
    + vm_compute. reflexivity.
    + reflexivity.
    + intros group [= <-] s. vm_compute. discriminate.
  - refine (proj2 (window_written_unless_early_return demo_cfg five_seconds_after
              "play" "alice" started_world (fresh_window just_after)
              (after_load {[ "throttle" := "{'throttle_timestamp_start': '2020-01-01 00:00:00.000001'}" ]}
                          started_world)
              (Selection None (-1)%Z (-1)%Z) _ _ _ _)).
    + vm_compute. reflexivity.
    + vm_compute. reflexivity.
    + reflexivity.
    + intros group [=].
Defined.

(** C6, as stated, fails: a stored text that [ast.literal_eval] cannot read
    makes the check raise [SyntaxError]. *)
Lemma unreadable_window_raises :
  Literal.literal_eval "{" = Raise SyntaxError
  ∧ (is_throttle_exceeded demo_cfg just_after "play" "carol" (stored_world "{")).1
    = Raise SyntaxError.
Proof. vm_compute. by split. Qed.

Lemma absent_window_is_default_witness :
  load_window demo_cfg just_after empty_world =
    (Ok (fresh_window just_after),
     after_update "throttle" (Literal.str (fresh_window just_after))
                  (after_load ∅ empty_world))
  ∧ ∃ f w', is_throttle_exceeded demo_cfg just_after "play" "carol" empty_world = (Ok f, w').
Proof.
  refine (proj2 (proj2
    (absent_window_is_default demo_items demo_cfg demo_globals just_after "play" "carol"
       empty_world ∅ (VStr "60") 60%Z (just_after + 60000000)%Z _ _ _ _ _ _ _ _))).
  - exact demo_built.
  - reflexivity.
  - reflexivity.
  - vm_compute. reflexivity.
  - vm_compute. reflexivity.
  - vm_compute. reflexivity.
  - vm_compute. reflexivity.
  - intros groups H. vm_compute in H. injection H as <-.
    intros H. repeat (apply elem_of_cons in H as [H|H]; [discriminate|]).
    by apply elem_of_nil in H.
Defined.


Lemma zero_microsecond_window_raises_witness :
  let first := is_throttle_exceeded demo_cfg midnight "play" "carol" empty_world in
  first.1 = Ok PyFalse
  ∧ STATE first.2 !! "throttle"
    = Some "{'vip': {'all': 1, 'play': 1}, 'throttle_timestamp_start': '2020-01-01 00:00:00'}"
  ∧ state_file first.2 = FileOk (STATE first.2)
  ∧ is_throttle_exceeded demo_cfg five_seconds_after "play" "carol" first.2
    = (Raise ValueError, after_load (STATE first.2) first.2).
Proof.
  split; [vm_compute; reflexivity|]. split; [vm_compute; reflexivity|].
  split; [vm_compute; reflexivity|].
  refine (proj2 (proj2
    (zero_microsecond_window_raises demo_cfg five_seconds_after "play" "carol"
       (is_throttle_exceeded demo_cfg midnight "play" "carol" empty_world).2
       (STATE (is_throttle_exceeded demo_cfg midnight "play" "carol" empty_world).2)
       (bump "vip" "play" (bump "vip" "all" (fresh_window midnight)))
       (VStr "60") midnight _ _ _ _ _))).
  - vm_compute. reflexivity.
  - vm_compute. reflexivity.
  - vm_compute. reflexivity.
  - vm_compute. reflexivity.
  - reflexivity.
Defined.

Lemma sms_names_differ_witness :
  NoDup ["play"; "volume"] ∧ NoDup ["admin"; "vip"; "guest"].
Proof.
  apply (sms_names_differ demo_items demo_cfg demo_globals);
    [exact demo_built | vm_compute; reflexivity | vm_compute; reflexivity].
Defined.

Lemma who_can_is_granted_witness :
  "carol" ∈ default ∅ (_WHO_CAN demo_globals !! "play")
  ↔ granted demo_items ["admin"; "vip"; "guest"] "play" "carol".
Proof.
  apply (who_can_is_granted demo_items demo_cfg demo_globals);
    [exact demo_built | vm_compute; reflexivity | vm_compute; reflexivity].
Defined.

Lemma granted_commands_configured_witness :
  "play" = "all" ∨ "play" ∈ ["play"; "volume"].
Proof.
  apply (granted_commands_configured demo_items demo_cfg demo_globals
           ["play"; "volume"] ["admin"; "vip"; "guest"] "vip" "play");
    [exact demo_built | vm_compute; reflexivity | vm_compute; reflexivity
    | set_solver | vm_compute; discriminate | vm_compute; set_solver].
Defined.

Lemma has_permission_from_section_witness :
  ∃ b, has_permission demo_items "carol" "play" fresh_globals = (Ok b, demo_globals)
    ∧ (b = true ↔
       ("carol" ∉ raw_list demo_items "blacklist")
       ∧ (granted demo_items ["admin"; "vip"; "guest"] "all" "carol"
          ∨ granted demo_items ["admin"; "vip"; "guest"] "play" "all"
          ∨ granted demo_items ["admin"; "vip"; "guest"] "play" "carol")).
Proof.
  apply (has_permission_from_section demo_items demo_cfg demo_globals
           ["play"; "volume"] ["admin"; "vip"; "guest"]);
    [exact demo_built | vm_compute; reflexivity | vm_compute; reflexivity
    | set_solver].
Defined.

Lemma failed_sms_is_kept_witness :
  let g' := (sms malformed_items fresh_globals).2 in
  sms demo_items g' = (Ok (_SMS_CONFIG g'), g')
  ∧ _SMS_CONFIG g' !! "blacklist" = Some (VStr "mallory")
  ∧ ∀ user cmd, PyStr.contains user "mallory" = true →
      has_permission demo_items user cmd g' = (Ok false, g').
Proof.
  apply (failed_sms_is_kept malformed_items demo_items ValueError);
    [vm_compute; reflexivity | vm_compute; reflexivity].
Defined.

Lemma sms_built_once_witness :
  sms malformed_items demo_globals = (Ok demo_cfg, demo_globals)
  ∧ ∀ user cmd,
      has_permission malformed_items user cmd demo_globals
      = has_permission demo_items user cmd fresh_globals.
Proof. apply (sms_built_once demo_items malformed_items), demo_built. Defined.

Lemma checks_until_limit_witness :
  let sel := Selection (Some "vip") 5 1 in
  let ts := fresh_window just_after in
  ∃ fs,
    (successive_checks demo_cfg "play" "carol"
       [five_seconds_after; five_seconds_after] started_world).1 = Ok fs
    ∧ length fs = 2%nat
    ∧ ∀ k f, fs !! k = Some f →
        f = if (count_of (counters ts "vip") (deciding_counter sel "play")
                + Z.of_nat k <? deciding_limit sel)%Z
            then PyFalse else flag_at_limit sel.
Proof.
  intros sel ts.
  apply (checks_until_limit demo_cfg "play" "carol"
           [five_seconds_after; five_seconds_after] (VStr "60") 60%Z just_after
           (just_after + 60000000)%Z sel "vip").
  - vm_compute; reflexivity.
  - vm_compute; reflexivity.
  - vm_compute; reflexivity.
  - vm_compute; reflexivity.
  - repeat constructor; unfold just_after, five_seconds_after; lia.
  - vm_compute; reflexivity.
  - reflexivity.
  - discriminate.
  - left. discriminate.
  - exists {[ "throttle" := "{'throttle_timestamp_start': '2020-01-01 00:00:00.000001'}" ]}.
    split; [reflexivity|]. split; [vm_compute; reflexivity | reflexivity].
  - vm_compute; reflexivity.
  - intros s. vm_compute. discriminate.
Defined.

Lemma stored_window_read_back_witness :
  (update_state "throttle" (Literal.str first_call_window);; load_state;;
   blob ← get_state "throttle" "{}"; lift (Literal.literal_eval blob))%M empty_world
  = (Ok first_call_window,
     after_load (<["throttle" := Literal.str first_call_window]> (STATE empty_world))
       (after_update "throttle" (Literal.str first_call_window) empty_world)).
Proof. apply (stored_window_read_back first_call_window empty_world). reflexivity. Defined.

Lemma update_state_writes_loaded_options_witness :
  let w := World ∅ (FileOk {[ "play_now" := "1" ]}) DiskOk [] in
  (∃ written,
     state_file ((load_state;; update_state "throttle" "{}")%M w).2 = FileOk written
     ∧ written !! "play_now" = ({[ "play_now" := "1" ]} ∪ STATE w) !! "play_now"
     ∧ (is_Some (({[ "play_now" := "1" ]} : gmap string string) !! "play_now") →
        written !! "play_now"
        = ({[ "play_now" := "1" ]} : gmap string string) !! "play_now"))
  ∧ (∃ written, state_file (update_state "throttle" "{}" w).2 = FileOk written
       ∧ written !! "play_now" = STATE w !! "play_now").
Proof.
  apply (update_state_writes_loaded_options
           (World ∅ (FileOk {[ "play_now" := "1" ]}) DiskOk [])
           {[ "play_now" := "1" ]} "{}" "play_now");
    [reflexivity | reflexivity | discriminate].
Defined.


Lemma check_counts_own_group_witness :
  let ts := fresh_window just_after in
  let w1 := after_load {[ "throttle" := Literal.str ts ]} started_world in
  ∃ f ts',
    (is_throttle_exceeded demo_cfg five_seconds_after "play" "carol" started_world
     = (Ok f, w1) ∧ f = PyTrue
     ∨ is_throttle_exceeded demo_cfg five_seconds_after "play" "carol" started_world
       = (Ok f, after_update "throttle" (Literal.str ts') w1))
    ∧ (f ≠ PyFalse → ts' = ts)
    ∧ (∀ k, k ≠ "vip" → ts' !! k = ts !! k)
    ∧ (∀ key, key ≠ "all" → key ≠ "play" →
         counters ts' "vip" !! key = counters ts "vip" !! key)
    ∧ (∀ key, (count_of (counters ts "vip") key
               ≤ count_of (counters ts' "vip") key
               ≤ count_of (counters ts "vip") key + 1)%Z).
Proof.
  intros ts w1.
  apply (check_counts_own_group demo_cfg five_seconds_after "play" "carol"
           started_world ts w1 (Selection (Some "vip") 5 1) "vip").
  - vm_compute; reflexivity.
  - vm_compute; reflexivity.
  - reflexivity.
  - discriminate.
  - intros s. vm_compute. discriminate.
  - reflexivity.
Defined.

Lemma hardware_devices_lowered_witness :
  let CONFIG : gmap string (option string) :=
    <["devices" := Some demo_devices_text]> {[ "pin_modes" := Some "onoff" ]} in
  ∃ D,
    hardware demo_json_loads demo_lower CONFIG fresh_hw_globals
    = (Ok (<["devices" := HDevices D]> (hw_items CONFIG)),
       HwGlobals (<["devices" := HDevices D]> (hw_items CONFIG)) [])
    ∧ D !! "lamp" = Some 1%Z
    ∧ D !! "tree" = Some 2%Z
    ∧ D !! "Lamp" = None
    ∧ D !! "TREE" = None
    ∧ (∀ k v, D !! k = Some v →
         ∃ name, demo_lower name = k ∧ demo_devices !! name = Some v).
Proof.
  intros CONFIG.
  assert (Hnames : ∀ name, is_Some (demo_devices !! name) → name = "Lamp" ∨ name = "TREE").
  { intros name H. unfold demo_devices in H.
    destruct (decide (name = "Lamp")) as [->|Hl]; [by left|]. right.
    rewrite lookup_insert_ne in H by done.
    destruct (decide (name = "TREE")) as [->|Ht]; [done|].
    rewrite lookup_singleton_ne in H by done. by destruct H. }
  assert (Hinj : ∀ n1 n2, is_Some (demo_devices !! n1) → is_Some (demo_devices !! n2) →
                          demo_lower n1 = demo_lower n2 → n1 = n2).
  { intros n1 n2 H1 H2 E.
    destruct (Hnames n1 H1) as [-> | ->], (Hnames n2 H2) as [-> | ->];
      try done; by vm_compute in E. }
  destruct (hardware_devices_lowered demo_json_loads demo_lower CONFIG
              demo_devices_text demo_devices eq_refl eq_refl)
    as (D & Hrun & Hfrom & Hhas & Hkeep).
  assert (Hupper : ∀ k, k = "Lamp" ∨ k = "TREE" → D !! k = None).
  { intros k Hk. destruct (D !! k) as [v|] eqn:E; [|done].
    destruct (Hfrom k v E) as (name & Hlow & Hname).
    destruct (Hnames name (mk_is_Some _ _ Hname)) as [-> | ->], Hk as [-> | ->];
      by vm_compute in Hlow. }
  exists D. split; [exact Hrun|].
  split; [exact (Hkeep Hinj "Lamp" (mk_is_Some _ _ eq_refl))|].
  split; [exact (Hkeep Hinj "TREE" (mk_is_Some _ _ eq_refl))|].
  split; [apply Hupper; by left|]. split; [apply Hupper; by right|]. exact Hfrom.
Defined.

Lemma hardware_devices_default_witness :
  let json_loads := λ _ : string, @Raise (loaded Z) ValueError in
  let CONFIG : gmap string (option string) := {[ "devices" := Some "lamp" ]} in
  ∃ error,
    let cfg := <["devices" := HDevices ∅]> (hw_items CONFIG) in
    hardware json_loads id CONFIG fresh_hw_globals = (Ok cfg, HwGlobals cfg [error])
    ∧ load_devices json_loads (hw_items CONFIG) = Raise error
    ∧ hardware json_loads id ∅ (HwGlobals cfg [error]) = (Ok cfg, HwGlobals cfg [error]).
Proof.
  intros json_loads CONFIG.
  apply (hardware_devices_default json_loads id CONFIG ∅).
  intros text _. by exists ValueError.
Defined.

Lemma hardware_not_object_raises_witness :
  let json_loads := λ _ : string, Ok (@JOther Z) in
  let CONFIG : gmap string (option string) := {[ "devices" := Some "[]" ]} in
  hardware json_loads id CONFIG fresh_hw_globals
  = (Raise AttributeError, HwGlobals (hw_items CONFIG) [])
  ∧ hardware json_loads id ∅ (HwGlobals (hw_items CONFIG) [])
    = (Ok (hw_items CONFIG), HwGlobals (hw_items CONFIG) [])
  ∧ (hw_items CONFIG : gmap string (hwval Z)) !! "devices" = Some (HStr "[]").
Proof.
  intros json_loads CONFIG.
  apply (hardware_not_object_raises json_loads id CONFIG ∅ "[]"); reflexivity.
Defined.

Lemma main_stops_after_pass_witness :
  main [17; 18]%Z (λ _, true) [] = (Ok tt, run_calls (length [17; 18]%Z) 1).
Proof.
  apply (main_stops_after_pass [17; 18]%Z (λ _, true) 0); [lia | intros; lia | reflexivity].
Defined.

Lemma parse_definitions_last_wins_witness :
  let defs := ["play:1"; "volume"; "play : 7"; "play:2"] in
  ∃ m g',
    parse_definitions "vip" defs ∅ fresh_globals = (Ok m, g')
    ∧ _SMS_CONFIG g' = _SMS_CONFIG fresh_globals
    ∧ _WHO_CAN g' = _WHO_CAN fresh_globals
    ∧ length (warned g')
      = (length (warned fresh_globals)
         + length (filter (λ d, length (PyStr.split ":" d) ≠ 2%nat) defs))%nat
    ∧ (∀ pre d post c l z,
         defs = pre ++ d :: post →
         PyStr.split ":" d = [c; l] →
         PyStr.int l = Ok z →
         (∀ d' l', d' ∈ post → PyStr.split ":" d' ≠ [c; l']) →
         m !! c = Some z)
    ∧ (∀ c, (∀ d l, d ∈ defs → PyStr.split ":" d ≠ [c; l]) →
            m !! c = (∅ : gmap string Z) !! c).
Proof.
  intros defs.
  apply (parse_definitions_last_wins "vip" defs ∅ fresh_globals).
  intros d c l Hin Hsplit. unfold defs in Hin.
  repeat (apply elem_of_cons in Hin as [-> | Hin];
          [vm_compute in Hsplit;
           first [discriminate
                 | injection Hsplit as <- <-; eexists; vm_compute; reflexivity]|]).
  by apply elem_of_nil in Hin.
Defined.

Lemma expired_window_starts_anew_witness :
  let sel := Selection (Some "vip") 5 1 in
  let now := (just_after + 120000000)%Z in
  ∃ ts' w',
    is_throttle_exceeded demo_cfg now "play" "carol" started_world = (Ok PyFalse, w')
    ∧ holds_window ts' w'
    ∧ ts' !! START_KEY = Some (TStr (DateTime.str now))
    ∧ count_of (counters ts' "vip") (deciding_counter sel "play") = 1%Z
    ∧ ∀ k, k ≠ "vip" → k ≠ START_KEY → ts' !! k = None.
Proof.
  intros sel now.
  apply (expired_window_starts_anew demo_cfg now "play" "carol" started_world
           (fresh_window just_after) (VStr "60") 60%Z just_after
           (just_after + 60000000)%Z sel "vip").
  - exists {[ "throttle" := "{'throttle_timestamp_start': '2020-01-01 00:00:00.000001'}" ]}.
    split; [reflexivity|]. split; [vm_compute; reflexivity | reflexivity].
  - vm_compute; reflexivity.
  - vm_compute; reflexivity.
  - vm_compute; reflexivity.
  - vm_compute; reflexivity.
  - vm_compute; reflexivity.
  - unfold now, just_after. lia.
  - vm_compute; reflexivity.
  - reflexivity.
  - discriminate.
  - discriminate.
  - left. discriminate.
  - reflexivity.
Defined.

Lemma sms_throttle_tables_witness :
  "vip" ∈ ["admin"; "vip"; "guest"]
  ∧ is_Some (demo_items !! ("vip" +:+ "_throttle"))
  ∧ table_of (raw_list demo_items ("vip" +:+ "_throttle"))
      (<["all" := 5%Z]> {[ "play" := 1%Z ]}).
Proof.
  apply (sms_throttle_tables demo_items demo_cfg demo_globals
           ["admin"; "vip"; "guest"] demo_throttled "vip");
    [exact demo_built | vm_compute; reflexivity | vm_compute; reflexivity].
Defined.

Lemma lightshow_built_witness :
  let CONFIG : gmap string (option string) :=
    list_to_map
      [("audio_in_channels", Some "2"); ("audio_in_sample_rate", Some "44100");
       ("preshow_configuration", Some "{}"); ("preshow_script", None);
       ("postshow_configuration", None); ("postshow_script", Some "post.py")] in
  let json_loads := λ _ : string, Some 0%Z in
  let isfile := λ _ : string, false in
  let g' := (lightshow json_loads isfile CONFIG fresh_ls_globals).2 in
  let cfg := _LIGHTSHOW_CONFIG g' in
  (∃ channels rate,
     config_getint CONFIG "audio_in_channels" = Done channels
     ∧ config_getint CONFIG "audio_in_sample_rate" = Done rate
     ∧ cfg !! "audio_in_channels" = Some (LInt channels)
     ∧ cfg !! "audio_in_sample_rate" = Some (LInt rate))
  ∧ (∀ path, CONFIG !! ("postshow" +:+ "_script") = Some (Some path) →
       path ≠ EmptyString →
       cfg !! "postshow" = Some (if isfile path then LStr path else LNone))
  ∧ (∀ script text,
       CONFIG !! ("postshow" +:+ "_script") = Some script →
       ls_truthy script = false →
       CONFIG !! ("postshow" +:+ "_configuration") = Some (Some text) →
       text ≠ EmptyString →
       cfg !! "postshow" = Some (match json_loads text with
                                 | Some parsed => LJson parsed
                                 | None => LNone
                                 end)).
Proof.
  intros CONFIG json_loads isfile g' cfg.
  apply (lightshow_built json_loads isfile CONFIG cfg g' "postshow");
    [vm_compute; reflexivity | by right].
Defined.

Lemma failed_lightshow_is_kept_witness :
  let CONFIG : gmap string (option string) := {[ "audio_in_channels" := Some "two" ]} in
  let json_loads := λ _ : string, Some 0%Z in
  let isfile := λ _ : string, false in
  let g' := (lightshow json_loads isfile CONFIG fresh_ls_globals).2 in
  lightshow json_loads isfile ∅ g' = (Done (_LIGHTSHOW_CONFIG g'), g')
  ∧ _LIGHTSHOW_CONFIG g' !! "postshow" = ls_items CONFIG !! "postshow"
  ∧ dom CONFIG ⊆ dom (_LIGHTSHOW_CONFIG g').
Proof.
  intros CONFIG json_loads isfile g'.
  apply (failed_lightshow_is_kept json_loads isfile CONFIG ∅ (Py ValueError) g');
    [vm_compute; reflexivity|].
  intros H. apply (f_equal (λ m : gmap string (option string), m !! "audio_in_channels")) in H.
  by vm_compute in H.
Defined.
